(** * Reproductive Age Explorer: the demographic simulation engine

    A shallow embedding of the numerical core of
    [src/ReproductiveAgeExplorer.jsx]: the Siler mortality model, the
    Gaussian fertility model with its biological cap, the initialisation of
    the population, the one-year McKendrick-von Foerster transition and the
    realised growth rate read off the history log.

    Numbers.  A JavaScript number is modelled by a real number: [+], [*],
    [Math.exp], [Math.min], [Math.max] are the exact operations on [R], so
    that rounding is abstracted away (an equation proved here holds of the
    program up to floating-point rounding).  A real number cannot be a
    non-finite value, so every operation of the source that may produce one
    is partial here: a division whose divisor is a computed value ([num_div])
    and a read of an array cell ([l !! i], [undefined] when out of range)
    return an [option], and the functions of the engine live in the option
    monad.  [None] therefore reads: a division by zero or an out-of-range
    read happened.  Loop counters and array indices are natural numbers,
    injected into the numbers by [INR].

    Rounding.  An equation or a non-strict bound proved on the reals holds
    of the program up to rounding.  A strict inequality between two
    computed numbers is different: rounding can make the two numbers
    equal.  Where a statement depends on it, the functions concerned are
    given a second time over binary64 (module [Binary64]). *)

From Stdlib Require Import Reals Lra Lia.
From Corelib Require PrimFloat FloatAxioms FloatOps SpecFloat.
From stdpp Require Import base option list.

Open Scope R_scope.

(** ** Numeric primitives *)

(** [x / y] with a computed divisor. *)
Definition num_div (x y : R) : option R :=
  if Req_dec_T y 0 then None else Some (x / y).

Notation "x /? y" := (num_div x y) (at level 40, left associativity).

(** [x < y] as a JavaScript boolean. *)
Definition Rltb (x y : R) : bool := if Rlt_dec x y then true else false.

(** [arr.reduce((a, b) => a + b, 0)]. *)
Definition sum (l : list R) : R := foldl Rplus 0 l.

(** [arr.slice(from, to)] and [arr.slice(from)]. *)
Definition slice {A} (from to : nat) (l : list A) : list A :=
  take (to - from) (drop from l).

(** [for (let age = lo; age < lo + n; age++) s = body(age, s)]. *)
Fixpoint for_range {St : Type} (lo n : nat) (body : nat → St → option St)
    (s : St) : option St :=
  match n with
  | O => Some s
  | S n' => s' ← body lo s; for_range (S lo) n' body s'
  end.

(** JavaScript truthiness of a number that may be [null]: [null] and [0]
    are falsy. *)
Definition truthy (x : option R) : bool :=
  match x with
  | Some v => if Req_dec_T v 0 then false else true
  | None => false
  end.

(** [x || null]. *)
Definition or_null (x : option R) : option R :=
  if truthy x then x else None.

(** ** Demographic constants *)

Definition numAges : nat := 100.

(** ** Mortality model *)

Definition MALE_INFANT_MULTIPLIER : R := 1.20.
Definition MALE_BACKGROUND_MULTIPLIER : R := 1.50.
Definition MALE_SENESCENT_MULTIPLIER : R := 1.15.

Definition getMortalityRate (age e0 : R) (isMale : bool) : R :=
  let alpha1 := 0.015 * exp ((75 - e0) * 0.055) in
  let beta1 := 0.7 in
  let infantMortality := alpha1 * exp (- beta1 * age) in
  let alpha2 := 0.0004 * exp ((75 - e0) * 0.015) in
  let beta3 := 0.088 in
  let alpha3 := 0.00002 * exp ((80 - e0) * 0.055) in
  let senescentMortality := alpha3 * exp (beta3 * age) in
  let mortality :=
    if isMale then
      (infantMortality * MALE_INFANT_MULTIPLIER) +
      (alpha2 * MALE_BACKGROUND_MULTIPLIER) +
      (senescentMortality * MALE_SENESCENT_MULTIPLIER)
    else infantMortality + alpha2 + senescentMortality in
  Rmin mortality 0.6.

Definition getSurvivalCurve (e0 : R) (isMale : bool) : option (list R) :=
  for_range 1 (numAges - 1)
    (λ age survival,
       let mortality := getMortalityRate (INR age - 1) e0 isMale in
       prev ← survival !! (age - 1)%nat;
       Some (<[age := prev * exp (- mortality)]> survival))
    (replicate numAges 1).

Definition calculateLifeExpectancy (survivalCurve : list R) : R :=
  sum survivalCurve.

(** ** Fertility model *)

Definition MAX_ASFR : R := 1.1.

(** The array returned by [getFertilitySchedule], with the two properties
    the source attaches to it.  They are absent ([undefined]) on the early
    return. *)
Record FertilitySchedule := {
  schedule : list R;
  biologicallyCapped : option bool;
  effectiveTFR : option R
}.

(** The first loop of [getFertilitySchedule]: the raw shape. *)
Definition rawSchedule (peak spreadVal : R) (secondPeak : option R)
  : option (list R) :=
  let sigma := Rmax spreadVal 2.5 in
  for_range 12 (55 - 12)
    (λ age schedule,
       e ← (- ((INR age - peak) ^ 2)) /? (2 * sigma ^ 2);
       let primary := exp e in
       secondary ←
         match secondPeak with
         | Some sp =>
             if truthy secondPeak && Rltb 5 (Rabs (sp - peak)) then
               e2 ← (- ((INR age - sp) ^ 2)) /? (2 * sigma ^ 2);
               Some (exp e2 * 0.6)
             else Some 0
         | None => Some 0
         end;
       let biologicalDecline :=
         if Rltb 40 (INR age) then exp (- 0.1 * (INR age - 40)) else 1.0 in
       Some (<[age := (primary + secondary) * biologicalDecline]> schedule))
    (replicate numAges 0).

(** [capped.map((f, a) => f < MAX_ASFR && a >= 12 && a < 55)]. *)
Definition canReceive (capped : list R) : list bool :=
  imap (λ a f, Rltb f MAX_ASFR && (12 <=? a)%nat && (a <? 55)%nat) capped.

(** The redistribution pass over [capped]. *)
Definition redistribute (capped : list R) (lostFertility : R) : option (list R) :=
  let canReceive := canReceive capped in
  let numCanReceive := length (filter (λ x, x = true) canReceive) in
  if (0 <? numCanReceive)%nat then
    mapM (λ '(a, f),
            match canReceive !! a with
            | Some true =>
                share ← lostFertility /? INR numCanReceive;
                Some (Rmin (f + share) MAX_ASFR)
            | _ => Some f
            end)
         (imap pair capped)
  else Some capped.

Definition getFertilitySchedule (peak spreadVal : R) (secondPeak : option R)
    (tfr : R) : option FertilitySchedule :=
  schedule ← rawSchedule peak spreadVal secondPeak;
  let sum0 := sum schedule in
  if Rltb sum0 1e-10 then
    Some {| schedule := schedule;
            biologicallyCapped := None; effectiveTFR := None |}
  else
    schedule ← mapM (λ f, q ← f /? sum0; Some (q * tfr)) schedule;
    let capped := (λ f, Rmin f MAX_ASFR) <$> schedule in
    let totalCapped := sum capped in
    let isCapped := Rltb totalCapped (tfr * 0.99) in
    redistributed ←
      (if isCapped then
         let lostFertility := tfr - totalCapped in
         redistribute capped lostFertility
       else Some capped);
    Some {| schedule := redistributed;
            biologicallyCapped := Some isCapped;
            effectiveTFR := Some (sum redistributed) |}.

(** ** Scenarios and the state of the component *)

Inductive Scenario := baseline | early | late | bimodal | custom.

Record Params := {
  peakAge : R;
  spread : R;
  secondPeak : option R
}.

Definition scenarios (s : Scenario) : Params :=
  match s with
  | baseline => {| peakAge := 27; spread := 7; secondPeak := None |}
  | early => {| peakAge := 21; spread := 5; secondPeak := None |}
  | late => {| peakAge := 33; spread := 6; secondPeak := None |}
  | bimodal => {| peakAge := 20; spread := 4; secondPeak := Some 35 |}
  | custom => {| peakAge := 27; spread := 7; secondPeak := None |}
  end.

(** One entry of the history log. *)
Module Entry.
Record t := mk {
  time : nat;
  population : R;
  births : R;
  deaths : R;
  meanParentAge : R;
  dependencyRatio : R;
  ageDistribution : list R;
  maleDistribution : list R;
  femaleDistribution : list R;
  lifeExpectancy : R;
  totalFertility : R;
  peakFertilityAge : R;
  fertilitySpread : R;
  sexRatioBirth : R
}.
End Entry.

(** The [useState] cells the engine reads and writes. *)
Record State := {
  scenario : Scenario;
  totalFertility : R;
  lifeExpectancy : R;
  fertilitySpread : R;
  peakFertilityAge : R;
  sexRatioBirth : R;
  initialPopulation : R;
  ageDistribution : list R;
  maleDistribution : list R;
  femaleDistribution : list R;
  time : nat;
  scrubIndex : option nat;
  history : list Entry.t
}.

Definition getEffectiveParams (st : State) : Params :=
  match scenario st with
  | custom => {| peakAge := peakFertilityAge st;
                 spread := fertilitySpread st; secondPeak := None |}
  | s => scenarios s
  end.

(** [working > 0 ? (young + old) / working : 0] over a distribution. *)
Definition dependency (dist : list R) : option R :=
  let young := sum (slice 0 15 dist) in
  let old := sum (drop 65 dist) in
  let working := sum (slice 15 65 dist) in
  if Rltb 0 working then (young + old) /? working else Some 0.

(** [births > 0 ? weightedAgeSum / births : params.peakAge]. *)
Definition meanAge (births weightedAgeSum peakAge : R) : option R :=
  if Rltb 0 births then weightedAgeSum /? births else Some peakAge.

(** ** Initialisation *)

(** [survivalCurve] is the memoised [getSurvivalCurve(lifeExpectancy,
    false)].  The display state the source also resets ([debugInfo],
    [yAxisRanges]) is left out. *)
Definition initialize (st : State) : option State :=
  let params := getEffectiveParams st in
  survivalCurve ← getSurvivalCurve (lifeExpectancy st) false;
  rawInitial ← mapM (λ age, survivalCurve !! age) (seq 0 numAges);
  let rawTotal := sum rawInitial in
  scaleFactor ← initialPopulation st /? rawTotal;
  let initial := (λ n, n * scaleFactor) <$> rawInitial in
  fertilitySchedule ←
    getFertilitySchedule (peakAge params) (spread params)
      (or_null (secondPeak params)) (totalFertility st);
  '(initialBirths, weightedAgeSum) ←
    for_range 12 (55 - 12)
      (λ age '(initialBirths, weightedAgeSum),
         asfr ← schedule fertilitySchedule !! age;
         n ← initial !! age;
         let births := asfr * n * 0.5 in
         Some (initialBirths + births, weightedAgeSum + INR age * births))
      (0, 0);
  initialDeaths ←
    for_range 0 numAges
      (λ age initialDeaths,
         let mortality := getMortalityRate (INR age) (lifeExpectancy st) false in
         n ← initial !! age;
         Some (initialDeaths + n * (1 - exp (- mortality))))
      0;
  meanParentAge ← meanAge initialBirths weightedAgeSum (peakAge params);
  depRatio ← dependency initial;
  let initialMale := (λ n, n * 0.5) <$> initial in
  let initialFemale := (λ n, n * 0.5) <$> initial in
  let initialPop := sum initial in
  Some {| scenario := scenario st;
          totalFertility := totalFertility st;
          lifeExpectancy := lifeExpectancy st;
          fertilitySpread := fertilitySpread st;
          peakFertilityAge := peakFertilityAge st;
          sexRatioBirth := sexRatioBirth st;
          initialPopulation := initialPopulation st;
          ageDistribution := initial;
          maleDistribution := initialMale;
          femaleDistribution := initialFemale;
          time := 0;
          scrubIndex := None;
          history :=
            [ Entry.mk 0 initialPop initialBirths initialDeaths meanParentAge
                depRatio initial initialMale initialFemale
                (lifeExpectancy st) (totalFertility st) (peakFertilityAge st)
                (fertilitySpread st) (sexRatioBirth st) ] |}.

(** ** The one-year transition *)

(** The ageing loop of the female and of the male track (the source writes
    it out once for each): cell [0] receives the newborns of that sex and
    cell [age] the survivors of cell [age - 1]. *)
Definition ageTrack (old : list R) (e0 : R) (isMale : bool) (newborns : R)
  : option (list R) :=
  for_range 1 (numAges - 1)
    (λ age new,
       let mortality := getMortalityRate (INR age - 1) e0 isMale in
       let survivalProb := exp (- mortality) in
       prev ← old !! (age - 1)%nat;
       Some (<[age := Rmax 0 (prev * survivalProb)]> new))
    (<[0%nat := newborns]> (replicate numAges 0)).

(** One tick.  The three new distributions are computed from the
    distributions of [st] and committed together with the new history
    entry; [debugInfo] and [yAxisRanges] are left out. *)
Definition simulateStep (st : State) : option State :=
  let params := getEffectiveParams st in
  fertilitySchedule ←
    getFertilitySchedule (peakAge params) (spread params)
      (or_null (secondPeak params)) (totalFertility st);
  '(births, weightedAgeSum) ←
    for_range 12 (55 - 12)
      (λ age '(births, weightedAgeSum),
         asfr ← schedule fertilitySchedule !! age;
         women ← femaleDistribution st !! age;
         let birthsFromAge := asfr * women in
         Some (births + birthsFromAge, weightedAgeSum + INR age * birthsFromAge))
      (0, 0);
  meanParentAge ← meanAge births weightedAgeSum (peakAge params);
  newFemale ←
    ageTrack (femaleDistribution st) (lifeExpectancy st) false
      (births * sexRatioBirth st);
  newMale ←
    ageTrack (maleDistribution st) (lifeExpectancy st) true
      (births * (1 - sexRatioBirth st));
  '(newDist, deaths) ←
    for_range 1 (numAges - 1)
      (λ age '(newDist, deaths),
         let mortality := getMortalityRate (INR age - 1) (lifeExpectancy st) false in
         let survivalProb := exp (- mortality) in
         prev ← ageDistribution st !! (age - 1)%nat;
         let survivors := prev * survivalProb in
         Some (<[age := Rmax 0 survivors]> newDist,
               deaths + prev * (1 - survivalProb)))
      (<[0%nat := births]> (replicate numAges 0), 0);
  oldest ← ageDistribution st !! (numAges - 1)%nat;
  let deaths := deaths + oldest in
  dependencyRatio ← dependency newDist;
  let newPop := sum newDist in
  Some {| scenario := scenario st;
          totalFertility := totalFertility st;
          lifeExpectancy := lifeExpectancy st;
          fertilitySpread := fertilitySpread st;
          peakFertilityAge := peakFertilityAge st;
          sexRatioBirth := sexRatioBirth st;
          initialPopulation := initialPopulation st;
          ageDistribution := newDist;
          maleDistribution := newMale;
          femaleDistribution := newFemale;
          time := time st + 1;
          scrubIndex := scrubIndex st;
          history :=
            history st ++
            [ Entry.mk (time st + 1) newPop births deaths meanParentAge
                dependencyRatio newDist newMale newFemale
                (lifeExpectancy st) (totalFertility st) (peakFertilityAge st)
                (fertilitySpread st) (sexRatioBirth st) ] |}.

(** ** Realised growth rate *)

Definition growthRate (history : list Entry.t) : option R :=
  if (10 <? length history)%nat then
    latest ← history !! (length history - 1)%nat;
    earlier ← history !! (length history - 10)%nat;
    ratio ← Entry.population latest /? Entry.population earlier;
    Some ((ratio - 1) * 100 / 10)
  else Some 0.


(** * The view on the simulation

    The functions of the component around the engine: the median age, the
    cursor into the history with its slider, buttons and playback, and the
    rates derived from the current parameters.  The conventions are those
    of the engine: a read of an array cell that fails and a logarithm or a
    quotient that is not a finite number give [None]. *)

(** ** The median age *)

(** [x >= y] as a JavaScript boolean. *)
Definition Rgeb (x y : R) : bool := if Rge_dec x y then true else false.

(** The loop of [findMedianAge] from [age] on, with [n] ages left: the
    first age at which the running total reaches half of [total], and 50
    when the loop runs out.  A read outside the array gives [None] (in the
    source the running total is then not a number, every later comparison
    fails and 50 is returned). *)
Fixpoint medianScan (dist : list R) (total : R) (age n : nat) (cumulative : R)
  : option nat :=
  match n with
  | O => Some 50%nat
  | S n' =>
      x ← dist !! age;
      let cumulative := cumulative + x in
      if Rgeb cumulative (total / 2) then Some age
      else medianScan dist total (S age) n' cumulative
  end.

Definition findMedianAge (dist : list R) : option nat :=
  let total := sum dist in
  medianScan dist total 0 numAges 0.

(** ** Time travel through the history *)

(** [arr[i]] for an index that may be negative. *)
Definition at_index {A} (l : list A) (i : Z) : option A :=
  if (0 <=? i)%Z then l !! Z.to_nat i else None.

(** The setter of the [scrubIndex] cell. *)
Definition setScrubIndex (v : option nat) (st : State) : State :=
  {| scenario := scenario st;
     totalFertility := totalFertility st;
     lifeExpectancy := lifeExpectancy st;
     fertilitySpread := fertilitySpread st;
     peakFertilityAge := peakFertilityAge st;
     sexRatioBirth := sexRatioBirth st;
     initialPopulation := initialPopulation st;
     ageDistribution := ageDistribution st;
     maleDistribution := maleDistribution st;
     femaleDistribution := femaleDistribution st;
     time := time st;
     scrubIndex := v;
     history := history st |}.

(** [history.length]. *)
Definition historyLength (st : State) : Z := Z.of_nat (length (history st)).

Definition handleTimeScrub (index : Z) (st : State) : State :=
  if (0 <=? index)%Z && (index <? historyLength st)%Z
  then setScrubIndex (Some (Z.to_nat index)) st
  else st.

Definition jumpToLive (st : State) : State := setScrubIndex None st.

Definition isViewingHistory (st : State) : bool :=
  match scrubIndex st with Some _ => true | None => false end.

Definition displayedHistoryEntry (st : State) : option Entry.t :=
  match scrubIndex st with
  | Some i => history st !! i
  | None => at_index (history st) (historyLength st - 1)
  end.

Definition displayedAgeDist (st : State) : list R :=
  match scrubIndex st, displayedHistoryEntry st with
  | Some _, Some e => Entry.ageDistribution e
  | _, _ => ageDistribution st
  end.

Definition displayedMaleDist (st : State) : list R :=
  match scrubIndex st, displayedHistoryEntry st with
  | Some _, Some e => Entry.maleDistribution e
  | _, _ => maleDistribution st
  end.

Definition displayedFemaleDist (st : State) : list R :=
  match scrubIndex st, displayedHistoryEntry st with
  | Some _, Some e => Entry.femaleDistribution e
  | _, _ => femaleDistribution st
  end.

(** [scrubIndex !== null ? scrubIndex : history.length - 1], the position
    the buttons and the playback start from. *)
Definition cursor (st : State) : Z :=
  match scrubIndex st with
  | Some i => Z.of_nat i
  | None => historyLength st - 1
  end.

(** The buttons of the time scrubber. *)
Definition startButton (st : State) : State := handleTimeScrub 0 st.

Definition backButton (st : State) : State :=
  let c := cursor st in handleTimeScrub (Z.max 0 (c - 1)) st.

Definition forwardButton (st : State) : State :=
  let c := cursor st in
  handleTimeScrub (Z.min (historyLength st - 1) (c + 1)) st.

Definition endButton (st : State) : State :=
  handleTimeScrub (historyLength st - 1) st.

(** The setter of the [scenario] cell and the setters of the six sliders. *)
Definition setScenario (s : Scenario) (st : State) : State :=
  {| scenario := s;
     totalFertility := totalFertility st;
     lifeExpectancy := lifeExpectancy st;
     fertilitySpread := fertilitySpread st;
     peakFertilityAge := peakFertilityAge st;
     sexRatioBirth := sexRatioBirth st;
     initialPopulation := initialPopulation st;
     ageDistribution := ageDistribution st;
     maleDistribution := maleDistribution st;
     femaleDistribution := femaleDistribution st;
     time := time st;
     scrubIndex := scrubIndex st;
     history := history st |}.

Definition setSliders (tfr e0 spreadVal peak srb pop : R) (st : State) : State :=
  {| scenario := scenario st;
     totalFertility := tfr;
     lifeExpectancy := e0;
     fertilitySpread := spreadVal;
     peakFertilityAge := peak;
     sexRatioBirth := srb;
     initialPopulation := pop;
     ageDistribution := ageDistribution st;
     maleDistribution := maleDistribution st;
     femaleDistribution := femaleDistribution st;
     time := time st;
     scrubIndex := scrubIndex st;
     history := history st |}.

Definition sameScenario (a b : Scenario) : bool :=
  match a, b with
  | baseline, baseline | early, early | late, late
  | bimodal, bimodal | custom, custom => true
  | _, _ => false
  end.

(** A click on a scenario: the effect on [scenario] runs [initialize] when
    the scenario changes. *)
Definition selectScenario (s : Scenario) (st : State) : option State :=
  if sameScenario s (scenario st) then Some st
  else initialize (setScenario s st).

(** The engine together with the playback flag of the history. *)
Record Player := {
  engine : State;
  isPlayingHistory : bool
}.

Definition playButton (p : Player) : Player :=
  if isPlayingHistory p then
    {| engine := engine p; isPlayingHistory := false |}
  else
    {| engine := if isViewingHistory (engine p) then engine p
                 else setScrubIndex (Some 0%nat) (engine p);
       isPlayingHistory := true |}.

Definition liveButton (p : Player) : Player :=
  {| engine := jumpToLive (engine p); isPlayingHistory := false |}.

(** One firing of the playback interval. *)
Definition playbackTick (p : Player) : Player :=
  let st := engine p in
  if isPlayingHistory p && (0 <? historyLength st)%Z then
    let current := cursor st in
    let next := (current + 1)%Z in
    if (historyLength st - 1 <=? next)%Z then
      {| engine := setScrubIndex (Some (Z.to_nat (historyLength st - 1))) st;
         isPlayingHistory := false |}
    else
      {| engine := setScrubIndex (Some (Z.to_nat next)) st;
         isPlayingHistory := isPlayingHistory p |}
  else p.

(** What the user and the timers can do to the player: a tick of the
    simulation, [reset], the slider and the buttons of the time scrubber,
    a tick of the playback, a click on a scenario, and the sliders of the
    parameters. *)
Inductive Action :=
  | SimulateStep
  | Reinitialize
  | Scrub (index : Z)
  | ToStart
  | StepBack
  | StepForward
  | ToEnd
  | TogglePlay
  | GoLive
  | PlaybackTick
  | SelectScenario (s : Scenario)
  | SetSliders (tfr e0 spreadVal peak srb pop : R).

Definition onEngine (f : State → option State) (p : Player) : option Player :=
  st ← f (engine p);
  Some {| engine := st; isPlayingHistory := isPlayingHistory p |}.

Definition perform (a : Action) (p : Player) : option Player :=
  match a with
  | SimulateStep => onEngine simulateStep p
  | Reinitialize => onEngine initialize p
  | Scrub index => onEngine (λ st, Some (handleTimeScrub index st)) p
  | ToStart => onEngine (λ st, Some (startButton st)) p
  | StepBack => onEngine (λ st, Some (backButton st)) p
  | StepForward => onEngine (λ st, Some (forwardButton st)) p
  | ToEnd => onEngine (λ st, Some (endButton st)) p
  | TogglePlay => Some (playButton p)
  | GoLive => Some (liveButton p)
  | PlaybackTick => Some (playbackTick p)
  | SelectScenario s => onEngine (selectScenario s) p
  | SetSliders tfr e0 spreadVal peak srb pop =>
      onEngine (λ st, Some (setSliders tfr e0 spreadVal peak srb pop st)) p
  end.

Fixpoint performAll (actions : list Action) (p : Player) : option Player :=
  match actions with
  | [] => Some p
  | a :: rest => p' ← perform a p; performAll rest p'
  end.

(** ** Derived rates *)

(** [Math.log] where its value is a finite number. *)
Definition num_ln (x : R) : option R :=
  if Rlt_dec 0 x then Some (ln x) else None.

(** [arr.reduce((acc, x, i) => f(acc, x, i), init)] for a step that may
    fail. *)
Fixpoint reduce_from {A St} (f : St → A → nat → option St) (i : nat)
    (l : list A) (acc : St) : option St :=
  match l with
  | [] => Some acc
  | x :: l' => acc' ← f acc x i; reduce_from f (S i) l' acc'
  end.

Definition currentFertilitySchedule (st : State) : option FertilitySchedule :=
  let params := getEffectiveParams st in
  getFertilitySchedule (peakAge params) (spread params) (secondPeak params)
    (totalFertility st).

Definition totalPop (st : State) : R := sum (displayedAgeDist st).

Definition generationTime (st : State) : R :=
  let params := getEffectiveParams st in
  match displayedHistoryEntry st with
  | Some e =>
      if truthy (Some (Entry.meanParentAge e)) then Entry.meanParentAge e
      else peakAge params
  | None => peakAge params
  end.

Definition netReproductionRate (st : State) : option R :=
  survivalCurve ← getSurvivalCurve (lifeExpectancy st) false;
  currentFertilitySchedule ← currentFertilitySchedule st;
  reduce_from
    (λ acc beta age,
       l ← survivalCurve !! age;
       Some (acc + sexRatioBirth st * beta * l))
    0 (schedule currentFertilitySchedule) 0.

Definition intrinsicGrowthRate (st : State) : option R :=
  netReproductionRate ← netReproductionRate st;
  let generationTime := generationTime st in
  if Rltb 0 generationTime then
    l ← num_ln netReproductionRate; l /? generationTime
  else Some 0.

(** * The mortality model in binary64

    The engine above reads a JavaScript number as a real number.  A strict
    inequality between two computed numbers is the one kind of statement
    that this reading can get wrong: rounding may make the two equal.  To
    decide such a statement the three functions of the mortality model are
    given here a second time, over the doubles of the program: [+], [-] and
    [*] are the IEEE 754 operations of the kernel's primitive floats, the
    decimal constants are rounded to the nearest double as the JavaScript
    parser does, and [Math.exp], whose accuracy ECMAScript leaves to the
    implementation, is a parameter: any function on doubles. *)

Module Binary64.
Import PrimFloat.
Local Open Scope float_scope.
#[local] Set Warnings "-inexact-float".

Section WithExp.

Variable exp : float → float.

(** [Math.min] on two numbers: not a number as soon as one argument is,
    and the negative zero below the positive one. *)
Definition num_min (x y : float) : float :=
  if is_nan x || is_nan y then nan
  else if x <? y then x
  else if y <? x then y
  else if get_sign x then x else y.

(** A loop counter as a number: [n] increments from 0. *)
Fixpoint of_nat (n : nat) : float :=
  match n with
  | O => 0
  | S n' => of_nat n' + 1
  end.

Definition MALE_INFANT_MULTIPLIER : float := 1.20.
Definition MALE_BACKGROUND_MULTIPLIER : float := 1.50.
Definition MALE_SENESCENT_MULTIPLIER : float := 1.15.

Definition getMortalityRate (age e0 : float) (isMale : bool) : float :=
  let alpha1 := 0.015 * exp ((75 - e0) * 0.055) in
  let beta1 := 0.7 in
  let infantMortality := alpha1 * exp (- beta1 * age) in
  let alpha2 := 0.0004 * exp ((75 - e0) * 0.015) in
  let beta3 := 0.088 in
  let alpha3 := 0.00002 * exp ((80 - e0) * 0.055) in
  let senescentMortality := alpha3 * exp (beta3 * age) in
  let mortality :=
    if isMale then
      (infantMortality * MALE_INFANT_MULTIPLIER) +
      (alpha2 * MALE_BACKGROUND_MULTIPLIER) +
      (senescentMortality * MALE_SENESCENT_MULTIPLIER)
    else infantMortality + alpha2 + senescentMortality in
  num_min mortality 0.6.

Definition getSurvivalCurve (e0 : float) (isMale : bool) : option (list float) :=
  for_range 1 (numAges - 1)%nat
    (λ age survival,
       let mortality := getMortalityRate (of_nat age - 1) e0 isMale in
       prev ← survival !! (age - 1)%nat;
       Some (<[age := prev * exp (- mortality)]> survival))
    (replicate numAges 1).

Definition calculateLifeExpectancy (survivalCurve : list float) : float :=
  foldl add 0 survivalCurve.

(** The monotonicity of the calibration as the specification words it, at
    one pair of targets and one sex: for two targets [e0 < e0'] of the
    valid domain [30, 95] the realised life expectancy computed for [e0']
    is strictly greater than the one computed for [e0]. *)
Definition increasing_claim (e0 e0' : float) (isMale : bool) : Prop :=
  (30 <=? e0) = true → (e0 <? e0') = true → (e0' <=? 95) = true →
  ∃ l l',
    getSurvivalCurve e0 isMale = Some l ∧
    getSurvivalCurve e0' isMale = Some l' ∧
    (calculateLifeExpectancy l <? calculateLifeExpectancy l') = true.

End WithExp.

(** The lower end of the domain of the life-expectancy target and the
    double that follows it, 30.000000000000004. *)
Definition e0_low : float := 30.
Definition e0_next : float := 0x1.e000000000001p+4.

End Binary64.
(** * Closed forms and statement vocabulary

    The functions of the engine above are loops in the option monad.  This
    part gives, for each of them, the value it computes when nothing fails
    ([survival], [rawList], [fertility], [nextState], [initialState], ...);
    the second half of the file proves the engine equal to these closed
    forms ([getSurvivalCurve_eq], [rawSchedule_eq],
    [getFertilitySchedule_eq], [simulateStep_eq], [initialize_eq]) and
    derives the properties from them.  It also names the states and the
    statements the theorems speak about. *)

(** The hazard before the clamp at 0.6. *)
Definition siler (age e0 : R) (isMale : bool) : R :=
  if isMale then
    0.015 * exp ((75 - e0) * 0.055) * exp (- 0.7 * age) * 1.20 +
    0.0004 * exp ((75 - e0) * 0.015) * 1.50 +
    0.00002 * exp ((80 - e0) * 0.055) * exp (0.088 * age) * 1.15
  else
    0.015 * exp ((75 - e0) * 0.055) * exp (- 0.7 * age) +
    0.0004 * exp ((75 - e0) * 0.015) +
    0.00002 * exp ((80 - e0) * 0.055) * exp (0.088 * age).

(** The survival curve as a function of the age: [l(0) = 1] and
    [l(a + 1) = l(a) * exp (- mu(a))]. *)
Fixpoint survival (e0 : R) (isMale : bool) (a : nat) : R :=
  match a with
  | O => 1
  | S a' => survival e0 isMale a' * exp (- getMortalityRate (INR a') e0 isMale)
  end.

(** The value the first loop of [getFertilitySchedule] stores at [age]. *)
Definition rawValue (peak spreadVal : R) (secondPeak : option R) (age : nat) : R :=
  let sigma := Rmax spreadVal 2.5 in
  let primary := exp (- ((INR age - peak) ^ 2) / (2 * sigma ^ 2)) in
  let secondary :=
    match secondPeak with
    | Some sp =>
        if truthy secondPeak && Rltb 5 (Rabs (sp - peak))
        then exp (- ((INR age - sp) ^ 2) / (2 * sigma ^ 2)) * 0.6
        else 0
    | None => 0
    end in
  let biologicalDecline :=
    if Rltb 40 (INR age) then exp (- 0.1 * (INR age - 40)) else 1.0 in
  (primary + secondary) * biologicalDecline.

(** The raw shape: [rawValue] on the fertile window [12, 55), zero elsewhere. *)
Definition rawShape (peak spreadVal : R) (secondPeak : option R) (age : nat) : R :=
  if (12 <=? age)%nat && (age <? 55)%nat
  then rawValue peak spreadVal secondPeak age else 0.

Definition rawList (peak spreadVal : R) (secondPeak : option R) : list R :=
  rawShape peak spreadVal secondPeak <$> seq 0 numAges.

(** Whether the redistribution pass adds a share to cell [a] holding [f]. *)
Definition receives (a : nat) (f : R) : bool :=
  Rltb f MAX_ASFR && (12 <=? a)%nat && (a <? 55)%nat.

(** The result of the redistribution pass, with the unchecked division. *)
Definition redistributed (capped : list R) (lostFertility : R) : list R :=
  let numCanReceive := length (filter (λ x, x = true) (canReceive capped)) in
  if (0 <? numCanReceive)%nat then
    imap (λ a f, if receives a f
                 then Rmin (f + lostFertility / INR numCanReceive) MAX_ASFR
                 else f) capped
  else capped.

(** The normalised schedule, before the cap. *)
Definition normalised (raw : list R) (tfr : R) : list R :=
  (λ f, f / sum raw * tfr) <$> raw.

(** The capped schedule. *)
Definition cap (l : list R) : list R := (λ f, Rmin f MAX_ASFR) <$> l.

(** [getFertilitySchedule] with the unchecked division: what it returns
    when no division fails. *)
Definition fertility (peak spreadVal : R) (secondPeak : option R) (tfr : R)
  : FertilitySchedule :=
  let raw := rawList peak spreadVal secondPeak in
  if Rltb (sum raw) 1e-10 then
    {| schedule := raw; biologicallyCapped := None; effectiveTFR := None |}
  else
    let capped := cap (normalised raw tfr) in
    let isCapped := Rltb (sum capped) (tfr * 0.99) in
    let result :=
      if isCapped then redistributed capped (tfr - sum capped) else capped in
    {| schedule := result;
       biologicallyCapped := Some isCapped;
       effectiveTFR := Some (sum result) |}.


(** The content of cell [a] of an array of [numAges] numbers. *)
Definition cell (l : list R) (a : nat) : R := default 0 (l !! a).

(** A state whose three distributions have [numAges] cells, as after
    [initialize] and after every [simulateStep]. *)
Definition wellFormed (st : State) : Prop :=
  length (ageDistribution st) = numAges ∧
  length (maleDistribution st) = numAges ∧
  length (femaleDistribution st) = numAges.

(** Cell [a] of a track after one year: the newborns at age 0, the
    survivors of cell [a - 1] above. *)
Definition aged (old : list R) (e0 : R) (isMale : bool) (newborns : R)
    (a : nat) : R :=
  match a with
  | O => newborns
  | S _ => Rmax 0 (cell old (a - 1) *
                   exp (- getMortalityRate (INR a - 1) e0 isMale))
  end.

Definition agedList (old : list R) (e0 : R) (isMale : bool) (newborns : R)
  : list R :=
  aged old e0 isMale newborns <$> seq 0 numAges.

(** Births from the women of age [a]. *)
Definition birthsFromAge (asfr women : list R) (a : nat) : R :=
  cell asfr a * cell women a.

Definition totalBirths (asfr women : list R) : R :=
  sum (birthsFromAge asfr women <$> seq 12 (55 - 12)).

Definition weightedAges (asfr women : list R) : R :=
  sum ((λ a, INR a * birthsFromAge asfr women a) <$> seq 12 (55 - 12)).

(** Deaths out of cell [age - 1] during the year. *)
Definition deathsInto (old : list R) (e0 : R) (age : nat) : R :=
  cell old (age - 1) * (1 - exp (- getMortalityRate (INR age - 1) e0 false)).

Definition totalDeaths (old : list R) (e0 : R) : R :=
  sum (deathsInto old e0 <$> seq 1 (numAges - 1)) + cell old (numAges - 1).

Definition meanAgeValue (births weightedAgeSum peakAge : R) : R :=
  if Rltb 0 births then weightedAgeSum / births else peakAge.

Definition dependencyValue (dist : list R) : R :=
  let young := sum (slice 0 15 dist) in
  let old := sum (drop 65 dist) in
  let working := sum (slice 15 65 dist) in
  if Rltb 0 working then (young + old) / working else 0.

(** The effective fertility schedule of a state. *)
Definition stateFertility (st : State) : FertilitySchedule :=
  let params := getEffectiveParams st in
  fertility (peakAge params) (spread params) (or_null (secondPeak params))
    (totalFertility st).

(** The history entry [simulateStep] appends. *)
Definition nextEntry (st : State) : Entry.t :=
  let asfr := schedule (stateFertility st) in
  let births := totalBirths asfr (femaleDistribution st) in
  let weightedAgeSum := weightedAges asfr (femaleDistribution st) in
  let e0 := lifeExpectancy st in
  let newFemale :=
    agedList (femaleDistribution st) e0 false (births * sexRatioBirth st) in
  let newMale :=
    agedList (maleDistribution st) e0 true (births * (1 - sexRatioBirth st)) in
  let newDist := agedList (ageDistribution st) e0 false births in
  Entry.mk (time st + 1) (sum newDist) births
    (totalDeaths (ageDistribution st) e0)
    (meanAgeValue births weightedAgeSum (peakAge (getEffectiveParams st)))
    (dependencyValue newDist) newDist newMale newFemale
    (lifeExpectancy st) (totalFertility st) (peakFertilityAge st)
    (fertilitySpread st) (sexRatioBirth st).

(** The state [simulateStep] commits. *)
Definition nextState (st : State) : State :=
  let e := nextEntry st in
  {| scenario := scenario st;
     totalFertility := totalFertility st;
     lifeExpectancy := lifeExpectancy st;
     fertilitySpread := fertilitySpread st;
     peakFertilityAge := peakFertilityAge st;
     sexRatioBirth := sexRatioBirth st;
     initialPopulation := initialPopulation st;
     ageDistribution := Entry.ageDistribution e;
     maleDistribution := Entry.maleDistribution e;
     femaleDistribution := Entry.femaleDistribution e;
     time := time st + 1;
     scrubIndex := scrubIndex st;
     history := history st ++ [e] |}.

(** A state of the default configuration holding 100 people, 50 men and 50
    women in every cohort. *)
Definition uniformState : State :=
  {| scenario := baseline;
     totalFertility := 2.1;
     lifeExpectancy := 75;
     fertilitySpread := 7;
     peakFertilityAge := 27;
     sexRatioBirth := 0.488;
     initialPopulation := 10000;
     ageDistribution := replicate numAges 100;
     maleDistribution := replicate numAges 50;
     femaleDistribution := replicate numAges 50;
     time := 0;
     scrubIndex := None;
     history := [] |}.

(** The female survival curve [initialize] reads (a [useMemo] of
    [getSurvivalCurve(lifeExpectancy, false)]). *)
Definition survivalCurve (st : State) : list R :=
  survival (lifeExpectancy st) false <$> seq 0 numAges.

Definition initialDistribution (st : State) : list R :=
  (λ n, n * (initialPopulation st / sum (survivalCurve st))) <$> survivalCurve st.

(** The history entry [initialize] records. *)
Definition initialEntry (st : State) : Entry.t :=
  let params := getEffectiveParams st in
  let initial := initialDistribution st in
  let asfr := schedule (stateFertility st) in
  let birthsAt := λ a : nat, cell asfr a * cell initial a * 0.5 in
  let initialBirths := sum (birthsAt <$> seq 12 (55 - 12)) in
  let weightedAgeSum := sum ((λ a, INR a * birthsAt a) <$> seq 12 (55 - 12)) in
  let initialDeaths :=
    sum ((λ a, cell initial a *
               (1 - exp (- getMortalityRate (INR a) (lifeExpectancy st) false)))
         <$> seq 0 numAges) in
  Entry.mk 0 (sum initial) initialBirths initialDeaths
    (meanAgeValue initialBirths weightedAgeSum (peakAge params))
    (dependencyValue initial) initial
    ((λ n, n * 0.5) <$> initial) ((λ n, n * 0.5) <$> initial)
    (lifeExpectancy st) (totalFertility st) (peakFertilityAge st)
    (fertilitySpread st) (sexRatioBirth st).

(** The state [initialize] commits. *)
Definition initialState (st : State) : State :=
  let e := initialEntry st in
  {| scenario := scenario st;
     totalFertility := totalFertility st;
     lifeExpectancy := lifeExpectancy st;
     fertilitySpread := fertilitySpread st;
     peakFertilityAge := peakFertilityAge st;
     sexRatioBirth := sexRatioBirth st;
     initialPopulation := initialPopulation st;
     ageDistribution := Entry.ageDistribution e;
     maleDistribution := Entry.maleDistribution e;
     femaleDistribution := Entry.femaleDistribution e;
     time := 0;
     scrubIndex := None;
     history := [e] |}.

(** Two states hold the same configuration. *)
Definition sameConfiguration (s1 s2 : State) : Prop :=
  scenario s1 = scenario s2 ∧
  totalFertility s1 = totalFertility s2 ∧
  lifeExpectancy s1 = lifeExpectancy s2 ∧
  peakFertilityAge s1 = peakFertilityAge s2 ∧
  fertilitySpread s1 = fertilitySpread s2 ∧
  sexRatioBirth s1 = sexRatioBirth s2 ∧
  initialPopulation s1 = initialPopulation s2.

(** The state of the component when it is mounted: the default
    configuration, nothing simulated yet. *)
Definition mountState : State :=
  {| scenario := baseline;
     totalFertility := 2.1;
     lifeExpectancy := 75;
     fertilitySpread := 7;
     peakFertilityAge := 27;
     sexRatioBirth := 0.488;
     initialPopulation := 10000;
     ageDistribution := [];
     maleDistribution := [];
     femaleDistribution := [];
     time := 0;
     scrubIndex := None;
     history := [] |}.

(** The zero guard as the specification words it, at one input: when the
    raw shape sums to less than the threshold, the all-zero schedule is
    returned. *)
Definition zero_schedule_claim (peak spreadVal : R) (secondPeak : option R)
    (tfr : R) : Prop :=
  ∀ raw r,
    rawSchedule peak spreadVal secondPeak = Some raw →
    sum raw < 1e-10 →
    getFertilitySchedule peak spreadVal secondPeak tfr = Some r →
    schedule r = replicate numAges 0.

(** [n] ticks of the live clock. *)
Fixpoint run (n : nat) (st : State) : option State :=
  match n with
  | O => Some st
  | S n' => st' ← run n' st; simulateStep st'
  end.

(** The realised growth rate as the specification words it, on one history:
    with at least 10 entries it is the ratio of the latest population to
    the population recorded 10 steps earlier, annualised over the 10 steps
    (in percent per year); with fewer than 10 entries it is 0. *)
Definition growth_claim (h : list Entry.t) : Prop :=
  ((10 ≤ length h)%nat →
     ∃ latest earlier,
       last h = Some latest ∧ earlier ∈ h ∧
       (Entry.time earlier + 10)%nat = Entry.time latest ∧
       growthRate h =
         Some ((Entry.population latest / Entry.population earlier - 1)
               * 100 / 10)) ∧
  ((length h < 10)%nat → growthRate h = Some 0).

(** All cohorts of the three tracks are nonnegative. *)
Definition nonnegative (st : State) : Prop :=
  Forall (λ x, 0 <= x) (ageDistribution st) ∧
  Forall (λ x, 0 <= x) (maleDistribution st) ∧
  Forall (λ x, 0 <= x) (femaleDistribution st).

(** The latest history entry is a snapshot of the live state. *)
Definition snapshotOfLive (st : State) : Prop :=
  ∃ e, last (history st) = Some e ∧
       Entry.time e = time st ∧
       Entry.population e = sum (ageDistribution st) ∧
       Entry.ageDistribution e = ageDistribution st ∧
       Entry.maleDistribution e = maleDistribution st ∧
       Entry.femaleDistribution e = femaleDistribution st.

(** The total track holds at least the sum of the male and the female
    track in every cohort. *)
Definition totalCoversSexes (st : State) : Prop :=
  ∀ a, cell (maleDistribution st) a + cell (femaleDistribution st) a
       <= cell (ageDistribution st) a.

(** A state with the fertility switched off. *)
Definition childless (st : State) : State :=
  {| scenario := scenario st;
     totalFertility := 0;
     lifeExpectancy := lifeExpectancy st;
     fertilitySpread := fertilitySpread st;
     peakFertilityAge := peakFertilityAge st;
     sexRatioBirth := sexRatioBirth st;
     initialPopulation := initialPopulation st;
     ageDistribution := ageDistribution st;
     maleDistribution := maleDistribution st;
     femaleDistribution := femaleDistribution st;
     time := time st;
     scrubIndex := scrubIndex st;
     history := history st |}.

(** The cohorts younger than [k] are empty in all three tracks. *)
Definition emptyBelow (k : nat) (st : State) : Prop :=
  ∀ a, (a < k)%nat →
    cell (ageDistribution st) a = 0 ∧
    cell (maleDistribution st) a = 0 ∧
    cell (femaleDistribution st) a = 0.

(** The three distributions stored in a history entry have [numAges]
    cells. *)
Definition entryWellFormed (e : Entry.t) : Prop :=
  length (Entry.ageDistribution e) = numAges ∧
  length (Entry.maleDistribution e) = numAges ∧
  length (Entry.femaleDistribution e) = numAges.

(** What holds of the player whatever the user does: the history is not
    empty, its entries are well formed, and the cursor, when set, points
    into it. *)
Definition playerInvariant (st : State) : Prop :=
  wellFormed st ∧
  (0 < length (history st))%nat ∧
  Forall entryWellFormed (history st) ∧
  (∀ i, scrubIndex st = Some i → (i < length (history st))%nat).

(** A player on the engine [st]. *)
Definition playerOn (st : State) (playing : bool) : Player :=
  {| engine := st; isPlayingHistory := playing |}.

(** The net reproduction rate in closed form: the daughters a newborn
    girl is expected to bear, [SRB * sum of beta(a) * l(a)]. *)
Definition r0Value (st : State) : R :=
  sum ((λ a, sexRatioBirth st * cell (schedule (stateFertility st)) a *
             survival (lifeExpectancy st) false a) <$> seq 0 numAges).

(** A state with another life-expectancy target. *)
Definition withLifeExpectancy (e0 : R) (st : State) : State :=
  {| scenario := scenario st;
     totalFertility := totalFertility st;
     lifeExpectancy := e0;
     fertilitySpread := fertilitySpread st;
     peakFertilityAge := peakFertilityAge st;
     sexRatioBirth := sexRatioBirth st;
     initialPopulation := initialPopulation st;
     ageDistribution := ageDistribution st;
     maleDistribution := maleDistribution st;
     femaleDistribution := femaleDistribution st;
     time := time st;
     scrubIndex := scrubIndex st;
     history := history st |}.

(** The books are consistent: every entry of the history records as its
    population the sum of the distribution it stores, and the latest entry
    stores the live distributions. *)
Definition booksConsistent (st : State) : Prop :=
  Forall (λ e, Entry.population e = sum (Entry.ageDistribution e)) (history st) ∧
  ∃ e, last (history st) = Some e ∧
       Entry.ageDistribution e = ageDistribution st ∧
       Entry.maleDistribution e = maleDistribution st ∧
       Entry.femaleDistribution e = femaleDistribution st.

(** The component as mounted with the total-fertility slider moved to its
    lower end, 0.8. *)
Definition lowFertilityMount : State :=
  setSliders 0.8 75 7 27 0.488 10000 mountState.
(** * Properties of the engine *)

(** One step of the option monad: [Some x ≫= f] reduces to [f x]. *)
Ltac bind_step := cbn [mbind option_bind].

(** ** Numeric primitives *)

Lemma num_div_Some x y : y ≠ 0 → x /? y = Some (x / y).
Proof. intros Hy. unfold num_div. by destruct (Req_dec_T y 0). Qed.

Lemma Rltb_true x y : Rltb x y = true ↔ x < y.
Proof. unfold Rltb. destruct (Rlt_dec x y); split; auto; discriminate. Qed.

Lemma Rltb_false x y : Rltb x y = false ↔ y <= x.
Proof.
  unfold Rltb. destruct (Rlt_dec x y); split; auto; try discriminate; lra.
Qed.

Lemma foldl_Rplus a l : foldl Rplus a l = a + foldl Rplus 0 l.
Proof.
  revert a. induction l as [|x l IH]; intros a; simpl; [lra|].
  rewrite IH, (IH (0 + x)). lra.
Qed.

Lemma sum_nil : sum [] = 0.
Proof. reflexivity. Qed.

Lemma sum_cons x l : sum (x :: l) = x + sum l.
Proof. unfold sum. simpl. rewrite foldl_Rplus. lra. Qed.

Lemma sum_app l k : sum (l ++ k) = sum l + sum k.
Proof.
  induction l as [|x l IH]; simpl.
  - rewrite sum_nil. lra.
  - rewrite !sum_cons, IH. lra.
Qed.

Lemma sum_nonneg l : Forall (λ x, 0 <= x) l → 0 <= sum l.
Proof.
  induction 1 as [|x l Hx _ IH]; [rewrite sum_nil; lra|].
  rewrite sum_cons. lra.
Qed.

Lemma sum_elem_le l x : Forall (λ y, 0 <= y) l → x ∈ l → x <= sum l.
Proof.
  induction 1 as [|y l Hy Hl IH]; [by intros ?%elem_of_nil|].
  rewrite sum_cons. intros [->|Hx]%elem_of_cons.
  - pose proof (sum_nonneg l Hl). lra.
  - specialize (IH Hx). lra.
Qed.

(** ** The loop combinator *)

(** Hoare-style rule: an invariant established at [lo] and preserved by
    every iteration holds after the loop, and the loop does not fail. *)
Lemma for_range_inv {St} (I : nat → St → Prop) (body : nat → St → option St) n :
  ∀ lo s,
    I lo s →
    (∀ i t, (lo ≤ i < lo + n)%nat → I i t →
            ∃ t', body i t = Some t' ∧ I (S i) t') →
    ∃ s', for_range lo n body s = Some s' ∧ I (lo + n)%nat s'.
Proof.
  induction n as [|n IH]; intros lo s H0 Hstep; simpl.
  - exists s. by rewrite Nat.add_0_r.
  - destruct (Hstep lo s) as (t & -> & Ht); [lia|done|]. simpl.
    destruct (IH (S lo) t Ht) as (s' & -> & Hs').
    + intros i u Hi. apply Hstep. lia.
    + exists s'. split; [done|]. by replace (lo + S n)%nat with (S lo + n)%nat by lia.
Qed.

(** ** Mortality *)

Lemma getMortalityRate_siler age e0 isMale :
  getMortalityRate age e0 isMale = Rmin (siler age e0 isMale) 0.6.
Proof.
  unfold getMortalityRate, siler, MALE_INFANT_MULTIPLIER,
    MALE_BACKGROUND_MULTIPLIER, MALE_SENESCENT_MULTIPLIER.
  destruct isMale; repeat (f_equal; try lra).
Qed.

Lemma siler_pos age e0 isMale : 0 < siler age e0 isMale.
Proof.
  unfold siler.
  pose proof (exp_pos ((75 - e0) * 0.055)).
  pose proof (exp_pos ((75 - e0) * 0.015)).
  pose proof (exp_pos ((80 - e0) * 0.055)).
  pose proof (exp_pos (- 0.7 * age)).
  pose proof (exp_pos (0.088 * age)).
  assert (0 < exp ((75 - e0) * 0.055) * exp (- 0.7 * age))
    by (by apply Rmult_lt_0_compat).
  assert (0 < exp ((80 - e0) * 0.055) * exp (0.088 * age))
    by (by apply Rmult_lt_0_compat).
  destruct isMale; lra.
Qed.

Lemma getMortalityRate_pos age e0 isMale : 0 < getMortalityRate age e0 isMale.
Proof.
  rewrite getMortalityRate_siler. pose proof (siler_pos age e0 isMale).
  apply Rmin_glb_lt; lra.
Qed.

Lemma getMortalityRate_le age e0 isMale : getMortalityRate age e0 isMale <= 0.6.
Proof. rewrite getMortalityRate_siler. apply Rmin_r. Qed.

Lemma siler_sex age e0 : siler age e0 false < siler age e0 true.
Proof.
  unfold siler.
  pose proof (exp_pos ((75 - e0) * 0.055)).
  pose proof (exp_pos ((75 - e0) * 0.015)).
  pose proof (exp_pos ((80 - e0) * 0.055)).
  pose proof (exp_pos (- 0.7 * age)).
  pose proof (exp_pos (0.088 * age)).
  assert (0 < exp ((75 - e0) * 0.055) * exp (- 0.7 * age))
    by (by apply Rmult_lt_0_compat).
  assert (0 < exp ((80 - e0) * 0.055) * exp (0.088 * age))
    by (by apply Rmult_lt_0_compat).
  lra.
Qed.

Lemma getMortalityRate_sex age e0 :
  getMortalityRate age e0 false <= getMortalityRate age e0 true.
Proof.
  rewrite !getMortalityRate_siler. pose proof (siler_sex age e0).
  apply Rle_min_compat_r. lra.
Qed.

Lemma getMortalityRate_sex_strict age e0 :
  siler age e0 false < 0.6 →
  getMortalityRate age e0 false < getMortalityRate age e0 true.
Proof.
  intros Hlt. rewrite !getMortalityRate_siler. pose proof (siler_sex age e0).
  rewrite (Rmin_left (siler age e0 false)) by lra.
  apply Rmin_glb_lt; lra.
Qed.

Lemma siler_e0_decr age e0 e0' isMale :
  e0 < e0' → siler age e0' isMale < siler age e0 isMale.
Proof.
  intros He. unfold siler.
  assert (exp ((75 - e0') * 0.055) < exp ((75 - e0) * 0.055))
    by (apply exp_increasing; lra).
  assert (exp ((75 - e0') * 0.015) < exp ((75 - e0) * 0.015))
    by (apply exp_increasing; lra).
  assert (exp ((80 - e0') * 0.055) < exp ((80 - e0) * 0.055))
    by (apply exp_increasing; lra).
  pose proof (exp_pos (- 0.7 * age)).
  pose proof (exp_pos (0.088 * age)).
  assert (exp ((75 - e0') * 0.055) * exp (- 0.7 * age) <
          exp ((75 - e0) * 0.055) * exp (- 0.7 * age))
    by (by apply Rmult_lt_compat_r).
  assert (exp ((80 - e0') * 0.055) * exp (0.088 * age) <
          exp ((80 - e0) * 0.055) * exp (0.088 * age))
    by (by apply Rmult_lt_compat_r).
  destruct isMale; lra.
Qed.

Lemma getMortalityRate_e0_decr age e0 e0' isMale :
  e0 <= e0' → getMortalityRate age e0' isMale <= getMortalityRate age e0 isMale.
Proof.
  intros [He| ->]; [|lra]. rewrite !getMortalityRate_siler.
  pose proof (siler_e0_decr age e0 e0' isMale He).
  apply Rle_min_compat_r. lra.
Qed.

(** ** Survival curve *)

Lemma INR_pred age : (1 ≤ age)%nat → INR age - 1 = INR (age - 1).
Proof. intros H. rewrite minus_INR by done. simpl. lra. Qed.

(** The loop of [getSurvivalCurve] fills the array with [survival]. *)
Lemma getSurvivalCurve_eq e0 isMale :
  getSurvivalCurve e0 isMale = Some (survival e0 isMale <$> seq 0 numAges).
Proof.
  unfold getSurvivalCurve.
  edestruct (for_range_inv
    (λ i s, (1 ≤ i ≤ numAges)%nat ∧
            s = (survival e0 isMale <$> seq 0 i) ++ replicate (numAges - i) 1))
    as (s' & -> & _ & ->).
  - split; [unfold numAges; lia|]. reflexivity.
  - intros i t Hi [_ ->]. unfold numAges in Hi.
    assert (Hlen : length (survival e0 isMale <$> seq 0 i) = i)
      by (by rewrite length_fmap, length_seq).
    rewrite lookup_app_l by (rewrite Hlen; lia).
    rewrite list_lookup_fmap, lookup_seq_lt by lia.
    eexists. split; [reflexivity|]. split; [unfold numAges; lia|].
    rewrite insert_app_r_alt by (rewrite Hlen; lia).
    rewrite Hlen, Nat.sub_diag.
    replace (numAges - i)%nat with (S (numAges - S i)) by (unfold numAges; lia).
    rewrite seq_S, fmap_app, <- app_assoc. simpl.
    do 2 f_equal. rewrite INR_pred by lia.
    destruct i as [|i]; [lia|]. simpl. by rewrite Nat.sub_0_r.
  - change (1 + (numAges - 1))%nat with numAges.
    by rewrite Nat.sub_diag, app_nil_r.
Qed.

Lemma survival_pos e0 isMale a : 0 < survival e0 isMale a.
Proof.
  induction a as [|a IH]; simpl; [lra|].
  apply Rmult_lt_0_compat; [done|apply exp_pos].
Qed.

Lemma exp_neg_lt_1 x : 0 < x → exp (- x) < 1.
Proof. intros Hx. rewrite <- exp_0. apply exp_increasing. lra. Qed.

Lemma survival_step_lt e0 isMale a :
  survival e0 isMale (S a) < survival e0 isMale a.
Proof.
  simpl. pose proof (survival_pos e0 isMale a).
  pose proof (exp_neg_lt_1 _ (getMortalityRate_pos (INR a) e0 isMale)).
  pose proof (exp_pos (- getMortalityRate (INR a) e0 isMale)).
  nra.
Qed.

Lemma survival_mono e0 isMale a b :
  (a ≤ b)%nat → survival e0 isMale b <= survival e0 isMale a.
Proof.
  induction 1 as [|b _ IH]; [lra|].
  pose proof (survival_step_lt e0 isMale b). lra.
Qed.

Lemma survival_le_1 e0 isMale a : survival e0 isMale a <= 1.
Proof. apply (survival_mono e0 isMale 0 a). lia. Qed.

Lemma lookup_fmap_seq {A} (f : nat → A) n a x :
  (f <$> seq 0 n) !! a = Some x ↔ (a < n)%nat ∧ x = f a.
Proof.
  rewrite list_lookup_fmap. split.
  - destruct (seq 0 n !! a) as [j|] eqn:E; [|done].
    apply lookup_seq in E as [-> ?]. intros [= <-]. done.
  - intros [H ->]. by rewrite lookup_seq_lt.
Qed.

(** C4. For every life-expectancy target (in particular for those of the
    valid domain [30, 95]) and either sex, [getSurvivalCurve] returns an
    array [l] of [numAges] cells with [l(0) = 1] exactly,
    [l(a) = l(a-1) * exp (- mu(a-1))] for [a = 1 .. numAges - 1], [l]
    nonincreasing, and every [l(a)] in (0, 1]. *)
Theorem survival_curve_recurrence_bounds (e0 : R) (isMale : bool) :
  ∃ l : list R,
    getSurvivalCurve e0 isMale = Some l ∧
    length l = numAges ∧
    l !! 0%nat = Some 1 ∧
    (∀ a, (1 ≤ a < numAges)%nat →
       ∃ prev cur,
         l !! (a - 1)%nat = Some prev ∧ l !! a = Some cur ∧
         cur = prev * exp (- getMortalityRate (INR a - 1) e0 isMale)) ∧
    (∀ a b x y, (a ≤ b)%nat → l !! a = Some x → l !! b = Some y → y <= x) ∧
    (∀ a x, l !! a = Some x → 0 < x <= 1).
Proof.
  exists (survival e0 isMale <$> seq 0 numAges).
  split; [apply getSurvivalCurve_eq|].
  split; [by rewrite length_fmap, length_seq|].
  split; [reflexivity|].
  split; [|split].
  - intros a Ha. exists (survival e0 isMale (a - 1)), (survival e0 isMale a).
    split; [apply lookup_fmap_seq; split; [lia|done]|].
    split; [apply lookup_fmap_seq; split; [lia|done]|].
    rewrite INR_pred by lia. destruct a as [|a]; [lia|].
    simpl. by rewrite Nat.sub_0_r.
  - intros a b x y Hab [_ ->]%lookup_fmap_seq [_ ->]%lookup_fmap_seq.
    by apply survival_mono.
  - intros a x [_ ->]%lookup_fmap_seq.
    split; [apply survival_pos|apply survival_le_1].
Qed.

(** A pointwise smaller hazard gives a pointwise larger survival curve. *)
Lemma survival_le e0 m e0' m' :
  (∀ age, getMortalityRate age e0' m' <= getMortalityRate age e0 m) →
  ∀ a, survival e0 m a <= survival e0' m' a.
Proof.
  intros Hmu a. induction a as [|a IH]; simpl; [lra|].
  pose proof (survival_pos e0 m a).
  pose proof (exp_pos (- getMortalityRate (INR a) e0 m)).
  assert (exp (- getMortalityRate (INR a) e0 m) <=
          exp (- getMortalityRate (INR a) e0' m')).
  { specialize (Hmu (INR a)).
    destruct Hmu as [Hlt|Heq]; [|rewrite Heq; lra].
    left. apply exp_increasing. lra. }
  apply Rmult_le_compat; lra.
Qed.

Lemma survival_lt e0 m e0' m' :
  (∀ age, getMortalityRate age e0' m' <= getMortalityRate age e0 m) →
  getMortalityRate (INR 0) e0' m' < getMortalityRate (INR 0) e0 m →
  ∀ a, survival e0 m (S a) < survival e0' m' (S a).
Proof.
  intros Hmu H0 a. induction a as [|a IH].
  - simpl in *. rewrite !Rmult_1_l. apply exp_increasing. lra.
  - change (survival e0 m (S a) * exp (- getMortalityRate (INR (S a)) e0 m) <
            survival e0' m' (S a) * exp (- getMortalityRate (INR (S a)) e0' m')).
    pose proof (survival_pos e0 m (S a)).
    pose proof (exp_pos (- getMortalityRate (INR (S a)) e0 m)).
    assert (exp (- getMortalityRate (INR (S a)) e0 m) <=
            exp (- getMortalityRate (INR (S a)) e0' m')).
    { specialize (Hmu (INR (S a))).
      destruct Hmu as [Hlt|Heq]; [|rewrite Heq; lra].
      left. apply exp_increasing. lra. }
    pose proof (exp_pos (- getMortalityRate (INR (S a)) e0' m')).
    nra.
Qed.

Lemma sum_fmap_seq_S (f : nat → R) n :
  sum (f <$> seq 0 (S n)) = sum (f <$> seq 0 n) + f n.
Proof.
  rewrite seq_S, fmap_app, sum_app. csimpl. rewrite sum_cons, sum_nil. lra.
Qed.

Lemma sum_fmap_seq_le (f g : nat → R) n :
  (∀ a, (a < n)%nat → f a <= g a) →
  sum (f <$> seq 0 n) <= sum (g <$> seq 0 n).
Proof.
  induction n as [|n IH]; intros H; [simpl; lra|].
  rewrite !sum_fmap_seq_S.
  assert (f n <= g n) by (apply H; lia).
  assert (sum (f <$> seq 0 n) <= sum (g <$> seq 0 n))
    by (apply IH; intros; apply H; lia).
  lra.
Qed.

Lemma sum_fmap_seq_lt (f g : nat → R) n a0 :
  (∀ a, (a < n)%nat → f a <= g a) →
  (a0 < n)%nat → f a0 < g a0 →
  sum (f <$> seq 0 n) < sum (g <$> seq 0 n).
Proof.
  induction n as [|n IH]; intros H Ha0 Hlt; [lia|].
  rewrite !sum_fmap_seq_S.
  assert (f n <= g n) by (apply H; lia).
  destruct (decide (a0 = n)) as [->|Hne].
  - assert (sum (f <$> seq 0 n) <= sum (g <$> seq 0 n))
      by (apply sum_fmap_seq_le; intros; apply H; lia).
    lra.
  - assert (sum (f <$> seq 0 n) < sum (g <$> seq 0 n))
      by (apply IH; [intros; apply H; lia|lia|done]).
    lra.
Qed.

(** ** Bounds on the exponential *)

Lemma exp_INR_le n : exp (INR n) <= 3 ^ n.
Proof.
  induction n as [|n IH].
  - simpl. rewrite exp_0. lra.
  - rewrite S_INR, exp_plus. simpl.
    pose proof exp_le_3. pose proof (exp_pos (INR n)). pose proof (exp_pos 1).
    rewrite (Rmult_comm 3). apply Rmult_le_compat; lra.
Qed.

Lemma exp_INR_ge n : 2 ^ n <= exp (INR n).
Proof.
  induction n as [|n IH].
  - simpl. rewrite exp_0. lra.
  - rewrite S_INR, exp_plus. simpl.
    assert (2 <= exp 1) by (left; pose proof (exp_ineq1 1); lra).
    assert (0 <= 2 ^ n) by (apply pow_le; lra).
    rewrite (Rmult_comm 2). apply Rmult_le_compat; lra.
Qed.

Lemma exp_le_27 x : x <= 3 → exp x <= 27.
Proof.
  intros Hx. pose proof (exp_INR_le 3) as H3. simpl in H3.
  replace (1 + 1 + 1) with 3 in H3 by lra.
  destruct Hx as [Hx| ->]; [|lra].
  pose proof (exp_increasing _ _ Hx). lra.
Qed.

Lemma exp_le_3' x : x <= 1 → exp x <= 3.
Proof.
  intros [Hx| ->]; [|apply exp_le_3].
  pose proof (exp_increasing _ _ Hx). pose proof exp_le_3. lra.
Qed.

(** In the valid domain the hazard of the newborn stays below the clamp. *)
Lemma siler_0_below_clamp e0 isMale : 30 <= e0 → siler (INR 0) e0 isMale < 0.6.
Proof.
  intros He. unfold siler. simpl INR.
  replace (- 0.7 * 0) with 0 by lra. replace (0.088 * 0) with 0 by lra.
  rewrite exp_0.
  pose proof (exp_le_27 ((75 - e0) * 0.055)).
  pose proof (exp_le_27 ((80 - e0) * 0.055)).
  pose proof (exp_le_3' ((75 - e0) * 0.015)).
  pose proof (exp_pos ((75 - e0) * 0.055)).
  pose proof (exp_pos ((80 - e0) * 0.055)).
  pose proof (exp_pos ((75 - e0) * 0.015)).
  destruct isMale; lra.
Qed.

Lemma getMortalityRate_0_e0_strict e0 e0' isMale :
  30 <= e0 → e0 < e0' →
  getMortalityRate (INR 0) e0' isMale < getMortalityRate (INR 0) e0 isMale.
Proof.
  intros He Hlt. rewrite !getMortalityRate_siler.
  pose proof (siler_0_below_clamp e0 isMale He).
  pose proof (siler_e0_decr (INR 0) e0 e0' isMale Hlt).
  rewrite (Rmin_left (siler (INR 0) e0 isMale)) by lra.
  pose proof (Rmin_l (siler (INR 0) e0' isMale) 0.6). lra.
Qed.

(** C9. At every age and for every life-expectancy target the male hazard
    is at least the female hazard (the clamp at 0.6 keeps the order);
    hence the male survival curve lies pointwise below the female one and
    the realised male life expectancy does not exceed the female one. *)
Theorem male_hazard_dominates_female :
  (∀ age e0, getMortalityRate age e0 false <= getMortalityRate age e0 true) ∧
  (∀ e0, ∃ lm lf,
     getSurvivalCurve e0 true = Some lm ∧
     getSurvivalCurve e0 false = Some lf ∧
     (∀ a x y, lm !! a = Some x → lf !! a = Some y → x <= y) ∧
     calculateLifeExpectancy lm <= calculateLifeExpectancy lf).
Proof.
  split; [apply getMortalityRate_sex|].
  intros e0. eexists _, _.
  split; [apply getSurvivalCurve_eq|]. split; [apply getSurvivalCurve_eq|].
  pose proof (survival_le e0 true e0 false
                (λ age, getMortalityRate_sex age e0)) as Hle.
  split.
  - intros a x y [_ ->]%lookup_fmap_seq [_ ->]%lookup_fmap_seq. apply Hle.
  - unfold calculateLifeExpectancy. apply sum_fmap_seq_le. intros; apply Hle.
Qed.

(** C5, amended.  In exact real arithmetic, for a fixed sex and two
    life-expectancy targets [e0 < e0'] of the valid domain [30, 95], the
    realised life expectancy (the sum of the survival curve over all ages)
    is strictly greater for [e0'].  The strictness is a property of the
    exact computation only; the section on rounding at the end shows two
    targets that the doubles of the program do not separate. *)
Theorem realised_life_expectancy_increasing (e0 e0' : R) (isMale : bool) :
  30 <= e0 → e0 < e0' → e0' <= 95 →
  ∃ l l',
    getSurvivalCurve e0 isMale = Some l ∧
    getSurvivalCurve e0' isMale = Some l' ∧
    calculateLifeExpectancy l < calculateLifeExpectancy l'.
Proof.
  intros Hlo Hlt Hhi. eexists _, _.
  split; [apply getSurvivalCurve_eq|]. split; [apply getSurvivalCurve_eq|].
  unfold calculateLifeExpectancy.
  assert (Hmu : ∀ age, getMortalityRate age e0' isMale <=
                       getMortalityRate age e0 isMale).
  { intros age. apply getMortalityRate_e0_decr. lra. }
  apply (sum_fmap_seq_lt _ _ numAges 1).
  - intros a _. by apply survival_le.
  - unfold numAges. lia.
  - apply survival_lt; [done|]. by apply getMortalityRate_0_e0_strict.
Qed.

Lemma realised_life_expectancy_increasing_witness :
  ∃ l l',
    getSurvivalCurve 70 false = Some l ∧
    getSurvivalCurve 80 false = Some l' ∧
    calculateLifeExpectancy l < calculateLifeExpectancy l'.
Proof. apply (realised_life_expectancy_increasing 70 80 false); lra. Defined.

(** ** Fertility schedule: the raw shape *)

Lemma sigma_sq_ne_0 spreadVal : 2 * Rmax spreadVal 2.5 ^ 2 ≠ 0.
Proof. pose proof (Rmax_r spreadVal 2.5). nra. Qed.

Lemma rawSchedule_eq peak spreadVal secondPeak :
  rawSchedule peak spreadVal secondPeak = Some (rawList peak spreadVal secondPeak).
Proof.
  unfold rawSchedule, rawList.
  set (rs := rawShape peak spreadVal secondPeak).
  edestruct (for_range_inv
    (λ i s, (12 ≤ i ≤ 55)%nat ∧ s = (rs <$> seq 0 i) ++ replicate (numAges - i) 0))
    as (s' & -> & _ & ->).
  - split; [lia|]. reflexivity.
  - intros i t Hi [_ ->].
    assert (Hlen : length (rs <$> seq 0 i) = i)
      by (by rewrite length_fmap, length_seq).
    exists ((rs <$> seq 0 (S i)) ++ replicate (numAges - S i) 0).
    split; [|split; [lia|done]].
    rewrite !num_div_Some by apply sigma_sq_ne_0.
    assert (Hins : ∀ v, v = rs i →
      <[i:=v]> ((rs <$> seq 0 i) ++ replicate (numAges - i) 0) =
      (rs <$> seq 0 (S i)) ++ replicate (numAges - S i) 0).
    { intros v ->. rewrite insert_app_r_alt by (rewrite Hlen; lia).
      rewrite Hlen, Nat.sub_diag.
      replace (numAges - i)%nat with (S (numAges - S i))
        by (unfold numAges; lia).
      by rewrite seq_S, fmap_app, <- app_assoc. }
    assert (Hrs : rs i = rawValue peak spreadVal secondPeak i).
    { unfold rs, rawShape.
      replace (12 <=? i)%nat with true by (symmetry; apply Nat.leb_le; lia).
      replace (i <? 55)%nat with true by (symmetry; apply Nat.ltb_lt; lia).
      done. }
    rewrite Hrs in Hins. unfold rawValue in Hins.
    destruct secondPeak as [sp|]; bind_step.
    + destruct (truthy (Some sp) && Rltb 5 (Rabs (sp - peak))) eqn:E.
      * rewrite !num_div_Some by apply sigma_sq_ne_0. bind_step.
        f_equal. by apply Hins.
      * bind_step. f_equal. by apply Hins.
    + f_equal. by apply Hins.
  - change (12 + (55 - 12))%nat with 55%nat.
    change numAges with (55 + 45)%nat at 2.
    by rewrite seq_app, fmap_app.
Qed.

(** ** Fertility schedule: normalisation, cap and redistribution *)

Lemma mapM_total {A B} (h : A → option B) (g : A → B) (l : list A) :
  (∀ x, x ∈ l → h x = Some (g x)) → mapM h l = Some (g <$> l).
Proof.
  intros H. apply mapM_Some. induction l as [|x l IH]; csimpl; [constructor|].
  constructor.
  - apply H. left.
  - apply IH. intros y Hy. apply H. by right.
Qed.

Lemma mapM_imap {A B C} (h : B → option C) (l : list A) :
  ∀ (k : nat → A → B) (g : nat → A → C),
    (∀ a x, l !! a = Some x → h (k a x) = Some (g a x)) →
    mapM h (imap k l) = Some (imap g l).
Proof.
  intros k g H. apply mapM_Some. revert k g H.
  induction l as [|x l IH]; intros k g H; [constructor|].
  rewrite !imap_cons. constructor.
  - by apply (H 0%nat x).
  - apply IH. intros a y Hy. by apply (H (S a)).
Qed.

Lemma canReceive_lookup capped a f :
  capped !! a = Some f → canReceive capped !! a = Some (receives a f).
Proof. intros H. unfold canReceive. by rewrite list_lookup_imap, H. Qed.

Lemma redistribute_eq capped lostFertility :
  redistribute capped lostFertility = Some (redistributed capped lostFertility).
Proof.
  unfold redistribute, redistributed.
  set (n := length (filter (λ x, x = true) (canReceive capped))).
  destruct (0 <? n)%nat eqn:En; [|done].
  apply Nat.ltb_lt in En.
  apply mapM_imap. intros a f Hf.
  rewrite (canReceive_lookup _ _ _ Hf).
  destruct (receives a f); [|done].
  rewrite num_div_Some; [done|].
  apply not_0_INR. lia.
Qed.

Lemma getFertilitySchedule_eq peak spreadVal secondPeak tfr :
  getFertilitySchedule peak spreadVal secondPeak tfr =
  Some (fertility peak spreadVal secondPeak tfr).
Proof.
  unfold getFertilitySchedule, fertility.
  rewrite rawSchedule_eq. bind_step.
  set (raw := rawList peak spreadVal secondPeak).
  destruct (Rltb (sum raw) 1e-10) eqn:E; [done|].
  apply Rltb_false in E.
  rewrite (mapM_total _ (λ f, f / sum raw * tfr)).
  2:{ intros f _. rewrite num_div_Some by lra. done. }
  bind_step. fold (normalised raw tfr).
  fold (cap (normalised raw tfr)).
  destruct (Rltb (sum (cap (normalised raw tfr))) (tfr * 0.99)); [|done].
  by rewrite redistribute_eq.
Qed.

Lemma rawValue_pos peak spreadVal secondPeak age :
  0 < rawValue peak spreadVal secondPeak age.
Proof.
  unfold rawValue.
  set (e1 := exp _). assert (0 < e1) by apply exp_pos.
  apply Rmult_lt_0_compat.
  - destruct secondPeak as [sp|]; [|lra].
    destruct (truthy (Some sp) && Rltb 5 (Rabs (sp - peak))); [|lra].
    pose proof (exp_pos (- (INR age - sp) ^ 2 / (2 * Rmax spreadVal 2.5 ^ 2))).
    lra.
  - destruct (Rltb 40 (INR age)); [apply exp_pos|lra].
Qed.

Lemma rawShape_nonneg peak spreadVal secondPeak age :
  0 <= rawShape peak spreadVal secondPeak age.
Proof.
  unfold rawShape. destruct (_ && _); [|lra].
  left. apply rawValue_pos.
Qed.

Lemma rawShape_outside peak spreadVal secondPeak age :
  (age < 12 ∨ 55 ≤ age)%nat → rawShape peak spreadVal secondPeak age = 0.
Proof.
  intros H. unfold rawShape.
  destruct (12 <=? age)%nat eqn:E1; [|done].
  destruct (age <? 55)%nat eqn:E2; [|done].
  apply Nat.leb_le in E1. apply Nat.ltb_lt in E2. lia.
Qed.

Lemma rawList_length peak spreadVal secondPeak :
  length (rawList peak spreadVal secondPeak) = numAges.
Proof. unfold rawList. by rewrite length_fmap, length_seq. Qed.

Lemma rawList_lookup peak spreadVal secondPeak a f :
  rawList peak spreadVal secondPeak !! a = Some f ↔
  (a < numAges)%nat ∧ f = rawShape peak spreadVal secondPeak a.
Proof. apply lookup_fmap_seq. Qed.

Lemma rawList_nonneg peak spreadVal secondPeak :
  Forall (λ x, 0 <= x) (rawList peak spreadVal secondPeak).
Proof.
  apply Forall_lookup. intros a f [_ ->]%rawList_lookup.
  apply rawShape_nonneg.
Qed.

Lemma sum_fmap_linear (c d : R) l : sum ((λ f, f / c * d) <$> l) = sum l / c * d.
Proof.
  induction l as [|x l IH]; csimpl; [rewrite !sum_nil; unfold Rdiv; lra|].
  rewrite !sum_cons, IH. unfold Rdiv. lra.
Qed.

Lemma sum_normalised raw tfr : sum raw ≠ 0 → sum (normalised raw tfr) = tfr.
Proof. intros H. unfold normalised. rewrite sum_fmap_linear. by field. Qed.

Lemma normalised_lookup raw tfr a y :
  normalised raw tfr !! a = Some y ↔
  ∃ f, raw !! a = Some f ∧ y = f / sum raw * tfr.
Proof.
  unfold normalised. rewrite list_lookup_fmap.
  destruct (raw !! a) as [f|]; csimpl; split.
  - intros [= <-]. by exists f.
  - by intros (f' & [= <-] & ->).
  - done.
  - by intros (? & ? & _).
Qed.

Lemma cap_lookup l a y :
  cap l !! a = Some y ↔ ∃ f, l !! a = Some f ∧ y = Rmin f MAX_ASFR.
Proof.
  unfold cap. rewrite list_lookup_fmap.
  destruct (l !! a) as [f|]; csimpl; split.
  - intros [= <-]. by exists f.
  - by intros (f' & [= <-] & ->).
  - done.
  - by intros (? & ? & _).
Qed.

Lemma sum_cap_le l : sum (cap l) <= sum l.
Proof.
  induction l as [|x l IH]; csimpl; [lra|].
  rewrite !sum_cons. pose proof (Rmin_l x MAX_ASFR). lra.
Qed.

Lemma cap_id l : Forall (λ f, f <= MAX_ASFR) l → cap l = l.
Proof.
  induction 1 as [|x l Hx _ IH]; csimpl; [done|].
  by rewrite IH, Rmin_left.
Qed.


(** The number of cells that receive a share. *)
Lemma sum_imap_receive_le (c M : R) l :
  0 <= c →
  ∀ r : nat → R → bool,
    sum (imap (λ a f, if r a f then Rmin (f + c) M else f) l) <=
    sum l + INR (length (filter (λ x, x = true) (imap r l))) * c.
Proof.
  intros Hc. induction l as [|x l IH]; intros r.
  - simpl. rewrite sum_nil. lra.
  - rewrite !imap_cons, filter_cons, !sum_cons.
    specialize (IH (r ∘ S)). unfold compose in IH.
    change (imap ((λ a f, if r a f then Rmin (f + c) M else f) ∘ S) l)
      with (imap (λ a f, if r (S a) f then Rmin (f + c) M else f) l).
    change (imap (r ∘ S) l) with (imap (λ a, r (S a)) l).
    destruct (r 0%nat x) eqn:E.
    + rewrite decide_True by done. rewrite length_cons, S_INR.
      pose proof (Rmin_l (x + c) M). lra.
    + rewrite decide_False by (by intros ?). lra.
Qed.

Lemma sum_imap_receive_eq (c M : R) l :
  ∀ r : nat → R → bool,
    (∀ a f, l !! a = Some f → r a f = true → f + c <= M) →
    sum (imap (λ a f, if r a f then Rmin (f + c) M else f) l) =
    sum l + INR (length (filter (λ x, x = true) (imap r l))) * c.
Proof.
  induction l as [|x l IH]; intros r H.
  - simpl. rewrite sum_nil. lra.
  - rewrite !imap_cons, filter_cons, !sum_cons.
    specialize (IH (r ∘ S)). unfold compose in IH.
    change (imap ((λ a f, if r a f then Rmin (f + c) M else f) ∘ S) l)
      with (imap (λ a f, if r (S a) f then Rmin (f + c) M else f) l).
    change (imap (r ∘ S) l) with (imap (λ a, r (S a)) l).
    rewrite IH by (intros a f Hf; by apply (H (S a))).
    destruct (r 0%nat x) eqn:E.
    + rewrite decide_True by done. rewrite length_cons, S_INR.
      rewrite Rmin_left by (by apply (H 0%nat)). lra.
    + rewrite decide_False by (by intros ?). lra.
Qed.

Lemma redistributed_length capped lost :
  length (redistributed capped lost) = length capped.
Proof.
  unfold redistributed. destruct (0 <? _)%nat; [|done]. apply length_imap.
Qed.

Lemma receives_true a f :
  receives a f = true ↔ f < MAX_ASFR ∧ (12 ≤ a < 55)%nat.
Proof.
  unfold receives. rewrite !andb_true_iff, Rltb_true, Nat.leb_le, Nat.ltb_lt.
  tauto.
Qed.

Lemma redistributed_lookup capped lost a y :
  0 <= lost →
  redistributed capped lost !! a = Some y →
  ∃ f, capped !! a = Some f ∧
       (y = f ∨ (receives a f = true ∧ f <= y <= MAX_ASFR)).
Proof.
  intros Hl. unfold redistributed.
  set (n := length (filter (λ x, x = true) (canReceive capped))).
  destruct (0 <? n)%nat eqn:En.
  - rewrite list_lookup_imap.
    destruct (capped !! a) as [f|]; csimpl; [|done].
    intros [= <-]. exists f. split; [done|].
    destruct (receives a f) eqn:E; [|by left].
    right. split; [done|]. apply receives_true in E as [Hf _].
    apply Nat.ltb_lt in En.
    assert (0 < INR n) by (apply lt_0_INR; lia).
    assert (0 <= lost / INR n).
    { apply Rmult_le_pos; [lra|]. left. by apply Rinv_0_lt_compat. }
    split; [apply Rmin_glb; lra|apply Rmin_r].
  - intros ->. eauto.
Qed.

Lemma sum_redistributed_le capped lost :
  0 <= lost → sum (redistributed capped lost) <= sum capped + lost.
Proof.
  intros Hl. unfold redistributed.
  set (n := length (filter (λ x, x = true) (canReceive capped))).
  destruct (0 <? n)%nat eqn:En; [|lra].
  apply Nat.ltb_lt in En.
  assert (0 < INR n) by (apply lt_0_INR; lia).
  assert (0 <= lost / INR n).
  { apply Rmult_le_pos; [lra|]. left. by apply Rinv_0_lt_compat. }
  pose proof (sum_imap_receive_le (lost / INR n) MAX_ASFR capped
                ltac:(done) receives) as Hle.
  change (length (filter (λ x, x = true) (imap receives capped))) with n in Hle.
  replace (INR n * (lost / INR n)) with lost in Hle by (field; lra).
  done.
Qed.

(** Without a second clamp the redistribution restores the whole loss. *)
Lemma sum_redistributed_eq capped lost :
  let n := length (filter (λ x, x = true) (canReceive capped)) in
  (0 < n)%nat →
  (∀ a f, capped !! a = Some f → receives a f = true →
          f + lost / INR n <= MAX_ASFR) →
  sum (redistributed capped lost) = sum capped + lost.
Proof.
  intros n Hn H. unfold redistributed. fold n.
  replace (0 <? n)%nat with true by (symmetry; by apply Nat.ltb_lt).
  assert (0 < INR n) by (apply lt_0_INR; lia).
  rewrite (sum_imap_receive_eq (lost / INR n) MAX_ASFR capped receives H).
  change (length (filter (λ x, x = true) (imap receives capped))) with n.
  field. lra.
Qed.

Lemma capped_lookup raw tfr a y :
  Forall (λ x, 0 <= x) raw → 0 < sum raw → 0 <= tfr →
  cap (normalised raw tfr) !! a = Some y →
  ∃ f, raw !! a = Some f ∧ 0 <= y <= MAX_ASFR ∧ (f = 0 → y = 0).
Proof.
  intros Hraw Hs Ht (v & (f & Hf & ->)%normalised_lookup & ->)%cap_lookup.
  exists f. split; [done|].
  assert (0 <= f) by (eapply (Forall_lookup_1 _ raw); eauto).
  assert (0 <= f / sum raw * tfr).
  { apply Rmult_le_pos; [|done]. apply Rmult_le_pos; [done|].
    left. by apply Rinv_0_lt_compat. }
  unfold MAX_ASFR in *. split; [split; [apply Rmin_glb; lra|apply Rmin_r]|].
  intros ->. unfold Rdiv. rewrite !Rmult_0_l. apply Rmin_left. lra.
Qed.

(** C10. For every input with [targetTFR >= 0], [getFertilitySchedule]
    returns an array of [numAges] cells, each in [0, MAX_ASFR], the cells
    outside the fertile window [12, 55) being exactly 0; the
    [effectiveTFR] it reports is the sum of the array and never exceeds
    [targetTFR].  (On the early return for a raw shape of sum below 1e-10
    no [effectiveTFR] is attached, and the array sums to less than
    1e-10.) *)
Theorem fertility_schedule_bounds (peak spreadVal : R) (secondPeak : option R)
    (tfr : R) :
  0 <= tfr →
  ∃ r,
    getFertilitySchedule peak spreadVal secondPeak tfr = Some r ∧
    length (schedule r) = numAges ∧
    (∀ a f, schedule r !! a = Some f → 0 <= f <= MAX_ASFR) ∧
    (∀ a f, schedule r !! a = Some f → (a < 12 ∨ 55 ≤ a)%nat → f = 0) ∧
    (∀ e, effectiveTFR r = Some e → e = sum (schedule r) ∧ e <= tfr) ∧
    (effectiveTFR r = None → sum (schedule r) < 1e-10).
Proof.
  intros Ht. rewrite getFertilitySchedule_eq. eexists. split; [done|].
  unfold fertility. set (raw := rawList peak spreadVal secondPeak).
  pose proof (rawList_nonneg peak spreadVal secondPeak) as Hraw. fold raw in Hraw.
  destruct (Rltb (sum raw) 1e-10) eqn:E; cbn [schedule effectiveTFR].
  - apply Rltb_true in E.
    split; [apply rawList_length|].
    split; [|split; [|split; [done|done]]].
    + intros a f Hf.
      assert (0 <= f) by (eapply (Forall_lookup_1 _ raw); eauto).
      assert (f <= sum raw).
      { apply sum_elem_le; [done|]. apply list_elem_of_lookup. eauto. }
      unfold MAX_ASFR. lra.
    + intros a f [_ ->]%rawList_lookup Ha. by apply rawShape_outside.
  - apply Rltb_false in E. assert (Hs : 0 < sum raw) by lra.
    set (capped := cap (normalised raw tfr)).
    assert (Hsum : sum capped <= tfr).
    { pose proof (sum_cap_le (normalised raw tfr)) as Hle.
      rewrite sum_normalised in Hle by lra. done. }
    assert (Hout : ∀ a y, capped !! a = Some y → (a < 12 ∨ 55 ≤ a)%nat → y = 0).
    { intros a y (f & Hf & _ & H0)%capped_lookup Ha; [|done..].
      apply H0. apply rawList_lookup in Hf as [_ ->].
      by apply rawShape_outside. }
    assert (Hlen : length capped = numAges).
    { unfold capped, cap, normalised. rewrite !length_fmap.
      apply rawList_length. }
    destruct (Rltb (sum capped) (tfr * 0.99)) eqn:Ec.
    + apply Rltb_true in Ec. assert (Hl : 0 <= tfr - sum capped) by lra.
      split; [by rewrite redistributed_length|].
      split; [|split; [|split; [|done]]].
      * intros a y (f & Hf & Hy)%redistributed_lookup; [|done].
        apply capped_lookup in Hf as (_ & _ & Hb & _); [|done..].
        destruct Hy as [->|[_ Hy]]; lra.
      * intros a y (f & Hf & Hy)%redistributed_lookup Ha; [|done].
        destruct Hy as [->|[Hr _]]; [by eapply Hout|].
        apply receives_true in Hr. lia.
      * intros e [= <-]. split; [done|].
        pose proof (sum_redistributed_le capped (tfr - sum capped) Hl). lra.
    + split; [done|]. split; [|split; [done|split; [|done]]].
      * intros a y (_ & _ & Hb & _)%capped_lookup; done.
      * intros e [= <-]. done.
Qed.

Lemma fertility_schedule_bounds_witness :
  ∃ r,
    getFertilitySchedule 27 7 None 2.1 = Some r ∧
    length (schedule r) = numAges ∧
    (∀ a f, schedule r !! a = Some f → 0 <= f <= MAX_ASFR) ∧
    (∀ a f, schedule r !! a = Some f → (a < 12 ∨ 55 ≤ a)%nat → f = 0) ∧
    (∀ e, effectiveTFR r = Some e → e = sum (schedule r) ∧ e <= 2.1) ∧
    (effectiveTFR r = None → sum (schedule r) < 1e-10).
Proof. apply (fertility_schedule_bounds 27 7 None 2.1). lra. Defined.



(** *** Sharper bounds on the exponential

    [(1 + x/n)^n <= exp x <= 1 / (1 - x/n)^n], evaluated at [n = 512]. *)

Lemma exp_INR_mult n y : exp (INR n * y) = exp y ^ n.
Proof.
  induction n as [|n IH].
  - simpl. by rewrite Rmult_0_l, exp_0.
  - rewrite S_INR, Rmult_plus_distr_r, Rmult_1_l, exp_plus, IH. simpl. lra.
Qed.

Lemma exp_lower n m x :
  m = INR n → 0 < m → 0 <= 1 + x / m → (1 + x / m) ^ n <= exp x.
Proof.
  intros -> Hm Hx.
  replace (exp x) with (exp (INR n * (x / INR n))) by (f_equal; field; lra).
  rewrite exp_INR_mult. apply pow_incr. split; [done|apply exp_ineq1_le].
Qed.

Lemma exp_upper n m x :
  m = INR n → 0 < m → x / m < 1 → exp x <= / (1 - x / m) ^ n.
Proof.
  intros -> Hm Hx.
  replace (exp x) with (exp (INR n * (x / INR n))) by (f_equal; field; lra).
  rewrite exp_INR_mult, <- pow_inv. apply pow_incr.
  split; [left; apply exp_pos|].
  rewrite <- (Rinv_inv (exp (x / INR n))), <- exp_Ropp.
  apply Rinv_le_contravar; [lra|].
  pose proof (exp_ineq1_le (- (x / INR n))). lra.
Qed.

Lemma INR_512 : 512 = INR 512.
Proof. by rewrite INR_IZR_INZ. Qed.

Lemma exp_2_bounds : 7.36 <= exp 2 <= 7.42.
Proof.
  pose proof (exp_lower 512 512 2 INR_512) as Hlo.
  pose proof (exp_upper 512 512 2 INR_512) as Hup.
  split.
  - apply Rle_trans with ((1 + 2 / 512) ^ 512); [lra|apply Hlo; lra].
  - apply Rle_trans with (/ (1 - 2 / 512) ^ 512); [apply Hup; lra|lra].
Qed.

Lemma exp_416_bounds : 62 <= exp 4.16 <= 66.
Proof.
  pose proof (exp_lower 512 512 4.16 INR_512) as Hlo.
  pose proof (exp_upper 512 512 4.16 INR_512) as Hup.
  split.
  - apply Rle_trans with ((1 + 4.16 / 512) ^ 512); [lra|apply Hlo; lra].
  - apply Rle_trans with (/ (1 - 4.16 / 512) ^ 512); [apply Hup; lra|lra].
Qed.

Lemma exp_648_lower : 620 <= exp 6.48.
Proof.
  pose proof (exp_lower 512 512 6.48 INR_512) as Hlo.
  apply Rle_trans with ((1 + 6.48 / 512) ^ 512); [lra|apply Hlo; lra].
Qed.

Lemma Rdiv_le_bound a b c : 0 < c → a <= b * c → a / c <= b.
Proof.
  intros Hc H. replace b with (b * c / c) by (field; lra).
  unfold Rdiv. apply Rmult_le_compat_r; [|done].
  left. by apply Rinv_0_lt_compat.
Qed.

Lemma Rdiv_ge_bound a b c : 0 < c → b * c <= a → b <= a / c.
Proof.
  intros Hc H. replace b with (b * c / c) by (field; lra).
  unfold Rdiv. apply Rmult_le_compat_r; [|done].
  left. by apply Rinv_0_lt_compat.
Qed.

Lemma pow_seventh_le_1 n : 0 <= (1 / 7) ^ n <= 1.
Proof. induction n as [|n IH]; simpl; lra. Qed.

Lemma exp_neg_2k_le k : exp (- (2 * INR k)) <= (1 / 7) ^ k.
Proof.
  induction k as [|k IH].
  - simpl. replace (- (2 * 0)) with 0 by lra. rewrite exp_0. lra.
  - rewrite S_INR.
    replace (- (2 * (INR k + 1))) with (- (2 * INR k) + Ropp 2) by lra.
    rewrite exp_plus. simpl.
    assert (exp (Ropp 2) <= 1 / 7).
    { rewrite exp_Ropp. pose proof exp_2_bounds.
      replace (1 / 7) with (/ 7) by lra.
      apply Rinv_le_contravar; lra. }
    pose proof (exp_pos (- (2 * INR k))). pose proof (exp_pos (Ropp 2)).
    rewrite (Rmult_comm (1 / 7)). apply Rmult_le_compat; lra.
Qed.

Lemma sum_fmap_seq_0 (f : nat → R) lo n :
  (∀ k, (k < n)%nat → f (lo + k)%nat = 0) → sum (f <$> seq lo n) = 0.
Proof.
  induction n as [|n IH]; intros H; [done|].
  rewrite seq_S, fmap_app, sum_app. csimpl. rewrite sum_cons, sum_nil.
  rewrite IH by (intros; apply H; lia). rewrite H by lia. lra.
Qed.

(** A sequence dominated by [c, c/7, c/49, ...] sums to at most [7c/6]. *)
Lemma sum_fmap_seq_geometric (f : nat → R) lo n c :
  (∀ k, (k < n)%nat → f (lo + k)%nat <= c * (1 / 7) ^ k) →
  sum (f <$> seq lo n) <= c * (1 - (1 / 7) ^ n) * (7 / 6).
Proof.
  induction n as [|n IH]; intros H.
  - simpl. rewrite sum_nil. lra.
  - rewrite seq_S, fmap_app, sum_app. csimpl. rewrite sum_cons, sum_nil.
    assert (sum (f <$> seq lo n) <= c * (1 - (1 / 7) ^ n) * (7 / 6))
      by (apply IH; intros; apply H; lia).
    assert (f (lo + n)%nat <= c * (1 / 7) ^ n) by (apply H; lia).
    simpl. lra.
Qed.

(** *** The schedule for peak age 0 and spread 2.5

    The raw shape is [exp (- a^2 / 12.5)] on ages 12 to 40 and smaller
    above: it is concentrated on age 12, the other ages holding together
    between 14.95% and 15.45% of the mass of age 12. *)

Lemma rawValue_peak0 a :
  rawValue 0 2.5 None a =
  exp (- (INR a) ^ 2 / 12.5) *
  (if Rltb 40 (INR a) then exp (- 0.1 * (INR a - 40)) else 1).
Proof.
  unfold rawValue. rewrite Rmax_left by lra. rewrite Rplus_0_r.
  f_equal; [f_equal; lra|].
  destruct (Rltb 40 (INR a)); [done|lra].
Qed.

Lemma rawShape_peak0_young a :
  (12 ≤ a ≤ 40)%nat → rawShape 0 2.5 None a = exp (- (INR a) ^ 2 / 12.5).
Proof.
  intros Ha. unfold rawShape.
  replace (12 <=? a)%nat with true by (symmetry; apply Nat.leb_le; lia).
  replace (a <? 55)%nat with true by (symmetry; apply Nat.ltb_lt; lia).
  cbn [andb]. rewrite rawValue_peak0.
  replace (Rltb 40 (INR a)) with false; [lra|].
  symmetry. apply Rltb_false.
  replace 40 with (INR 40) by (by rewrite INR_IZR_INZ). apply le_INR. lia.
Qed.

Lemma rawShape_peak0_12 : rawShape 0 2.5 None 12 = exp (- 11.52).
Proof. rewrite rawShape_peak0_young by lia. f_equal. simpl. lra. Qed.

Lemma rawShape_peak0_13 :
  rawShape 0 2.5 None 13 = exp (- 11.52) * / exp 2.
Proof.
  rewrite rawShape_peak0_young by lia. rewrite <- exp_Ropp, <- exp_plus.
  f_equal. simpl. lra.
Qed.

Lemma rawShape_peak0_14 :
  rawShape 0 2.5 None 14 = exp (- 11.52) * / exp 4.16.
Proof.
  rewrite rawShape_peak0_young by lia. rewrite <- exp_Ropp, <- exp_plus.
  f_equal. simpl. lra.
Qed.

Lemma rawShape_peak0_15 :
  rawShape 0 2.5 None 15 = exp (- 11.52) * / exp 6.48.
Proof.
  rewrite rawShape_peak0_young by lia. rewrite <- exp_Ropp, <- exp_plus.
  f_equal. simpl. lra.
Qed.

Lemma rawShape_peak0_tail k :
  rawShape 0 2.5 None (12 + k) <= exp (- 11.52) * (1 / 7) ^ k.
Proof.
  pose proof (exp_pos (- 11.52)).
  pose proof (pow_seventh_le_1 k) as [Hq _].
  unfold rawShape. destruct (_ && _).
  2:{ apply Rmult_le_pos; lra. }
  rewrite rawValue_peak0.
  assert (Hd : 0 < (if Rltb 40 (INR (12 + k))
                    then exp (- 0.1 * (INR (12 + k) - 40)) else 1) <= 1).
  { destruct (Rltb 40 (INR (12 + k))) eqn:E; [|lra].
    apply Rltb_true in E. split; [apply exp_pos|].
    left. rewrite <- exp_0. apply exp_increasing. lra. }
  assert (He : exp (- INR (12 + k) ^ 2 / 12.5) <= exp (- 11.52) * (1 / 7) ^ k).
  { pose proof (exp_neg_2k_le k) as H2.
    assert (H1 : exp (- INR (12 + k) ^ 2 / 12.5) <=
                 exp (- 11.52 + - (2 * INR k))).
    { assert (Hk : INR k = 0 ∨ 1 <= INR k).
      { destruct k as [|k]; [by left|right].
        rewrite S_INR. pose proof (pos_INR k). lra. }
      rewrite plus_INR. change (INR 12) with (1+1+1+1+1+1+1+1+1+1+1+1).
      assert (- (1+1+1+1+1+1+1+1+1+1+1+1 + INR k) ^ 2 / 12.5 <=
              - 11.52 + - (2 * INR k)) as [Hlt|Heq] by (destruct Hk; nra).
      - left. by apply exp_increasing.
      - rewrite Heq. lra. }
    rewrite exp_plus in H1.
    pose proof (exp_pos (- (2 * INR k))).
    assert (exp (- 11.52) * exp (- (2 * INR k)) <= exp (- 11.52) * (1 / 7) ^ k)
      by (apply Rmult_le_compat_l; lra).
    lra. }
  pose proof (exp_pos (- INR (12 + k) ^ 2 / 12.5)).
  rewrite <- (Rmult_1_r (exp (- 11.52) * (1 / 7) ^ k)).
  apply Rmult_le_compat; lra.
Qed.

(** The mode of the raw shape and the mass around it. *)
Lemma rawList_peak0_mass :
  let raw := rawList 0 2.5 None in
  let x := exp (- 11.52) in
  raw !! 12%nat = Some x ∧ 1e-10 <= x ∧
  1.1495 * x <= sum raw <= 1.1545 * x ∧
  (∀ a f, raw !! a = Some f → a ≠ 12%nat → 0 <= f <= x / 7).
Proof.
  intros raw x.
  assert (Hx : 0 < x) by apply exp_pos.
  assert (H12 : raw !! 12%nat = Some x).
  { apply rawList_lookup. split; [unfold numAges; lia|].
    by rewrite rawShape_peak0_12. }
  assert (Hsum : sum raw =
    x + (x * / exp 2 + (x * / exp 4.16 + (x * / exp 6.48 +
      sum (rawShape 0 2.5 None <$> seq 16 84))))).
  { unfold raw, rawList. change numAges with (12 + (4 + 84))%nat.
    rewrite seq_app, fmap_app, sum_app, seq_app, fmap_app, sum_app.
    change (seq (0 + 12) 4) with [12; 13; 14; 15]%nat.
    change (0 + 12 + 4)%nat with 16%nat.
    rewrite !fmap_cons, !sum_cons, fmap_nil, sum_nil.
    rewrite rawShape_peak0_12, rawShape_peak0_13, rawShape_peak0_14,
      rawShape_peak0_15.
    rewrite sum_fmap_seq_0; [fold x; lra|].
    intros k Hk. apply rawShape_outside. lia. }
  assert (Htail : 0 <= sum (rawShape 0 2.5 None <$> seq 16 84) <=
                  x * 0.0005).
  { split.
    - apply sum_nonneg, Forall_fmap, Forall_forall. intros a _.
      apply rawShape_nonneg.
    - pose proof (sum_fmap_seq_geometric (rawShape 0 2.5 None) 16 84
                    (x * (1 / 7) ^ 4)) as Hg.
      assert (x * (1 / 7) ^ 4 * (1 - (1 / 7) ^ 84) * (7 / 6) <= x * 0.0005)
        by lra.
      etrans; [apply Hg|done].
      intros k _. replace (16 + k)%nat with (12 + (4 + k))%nat by lia.
      etrans; [apply rawShape_peak0_tail|].
      rewrite pow_add. unfold x. lra. }
  pose proof exp_2_bounds as [H2lo H2up].
  pose proof exp_416_bounds as [H4lo H4up].
  pose proof exp_648_lower as H6lo.
  assert (Hi2 : / 7.42 <= / exp 2 <= / 7.36)
    by (split; apply Rinv_le_contravar; lra).
  assert (Hi4 : / 66 <= / exp 4.16 <= / 62)
    by (split; apply Rinv_le_contravar; lra).
  assert (Hi6 : 0 < / exp 6.48 <= / 620).
  { split; [apply Rinv_0_lt_compat, exp_pos|].
    apply Rinv_le_contravar; lra. }
  split; [done|]. split; [|split].
  - unfold x. replace (- 11.52) with (Ropp 11.52) by lra. rewrite exp_Ropp.
    pose proof (exp_INR_le 12) as H3.
    assert (exp 11.52 <= exp (INR 12)).
    { left. apply exp_increasing. simpl. lra. }
    pose proof (exp_pos 11.52).
    apply Rle_trans with (/ 3 ^ 12); [lra|].
    apply Rinv_le_contravar; lra.
  - rewrite Hsum.
    assert (x * / 7.42 <= x * / exp 2 <= x * / 7.36)
      by (split; apply Rmult_le_compat_l; lra).
    assert (x * / 66 <= x * / exp 4.16 <= x * / 62)
      by (split; apply Rmult_le_compat_l; lra).
    assert (0 <= x * / exp 6.48 <= x * / 620)
      by (split; [apply Rmult_le_pos|apply Rmult_le_compat_l]; lra).
    lra.
  - intros a f [Ha ->]%rawList_lookup Hne.
    split; [apply rawShape_nonneg|].
    destruct (decide (a < 12)%nat) as [Hlt|Hge].
    + rewrite rawShape_outside by lia. lra.
    + replace a with (12 + S (a - 13))%nat by lia.
      etrans; [apply rawShape_peak0_tail|].
      pose proof (pow_seventh_le_1 (a - 13)) as Hq.
      assert (x * (1 / 7) ^ (a - 13) <= x * 1)
        by (apply Rmult_le_compat_l; lra).
      fold x. simpl. lra.
Qed.

Lemma sum_cap_at l i v :
  l !! i = Some v → sum (cap l) <= sum l - (v - Rmin v MAX_ASFR).
Proof.
  revert i. induction l as [|x l IH]; intros i Hi; [done|].
  unfold cap in *. csimpl. rewrite !sum_cons. destruct i as [|i].
  - injection Hi as ->. pose proof (sum_cap_le l). unfold cap in *. lra.
  - specialize (IH i Hi). pose proof (Rmin_l x MAX_ASFR). lra.
Qed.

(** The cap cuts only the cells above it. *)
Lemma sum_cap_only_at l i v :
  l !! i = Some v →
  (∀ j f, j ≠ i → l !! j = Some f → f <= MAX_ASFR) →
  sum (cap l) = sum l - (v - Rmin v MAX_ASFR).
Proof.
  revert i. induction l as [|x l IH]; intros i Hi Hoth; [done|].
  unfold cap in *. csimpl. rewrite !sum_cons. destruct i as [|i].
  - injection Hi as ->. fold (cap l). rewrite cap_id; [lra|].
    apply Forall_lookup. intros j f Hf. by apply (Hoth (S j)).
  - rewrite (IH i Hi) by (intros j f Hj Hf; apply (Hoth (S j)); [lia|done]).
    rewrite (Rmin_left x) by (by apply (Hoth 0%nat)). lra.
Qed.

Lemma filter_true_pos (l : list bool) a :
  l !! a = Some true → (0 < length (filter (λ x, x = true) l))%nat.
Proof.
  intros H.
  assert (Hin : true ∈ filter (λ x, x = true) l).
  { apply list_elem_of_filter. split; [done|]. by eapply list_elem_of_lookup_2. }
  destruct (filter (λ x, x = true) l); [by apply elem_of_nil in Hin|].
  simpl. lia.
Qed.

(** The normalised and the capped schedule for a target [tfr] between 1.27
    and 7.6: age 12 is clamped, no other age is. *)
Lemma capped_peak0 tfr :
  1.27 <= tfr <= 7.6 →
  let raw := rawList 0 2.5 None in
  let N := normalised raw tfr in
  ∃ v12,
    N !! 12%nat = Some v12 ∧
    tfr / 1.1545 <= v12 <= tfr / 1.1495 ∧ MAX_ASFR < v12 ∧
    sum N = tfr ∧
    cap N !! 12%nat = Some MAX_ASFR ∧
    (∀ a y, cap N !! a = Some y → a ≠ 12%nat → 0 <= y <= tfr / 7) ∧
    sum (cap N) = tfr - (v12 - MAX_ASFR).
Proof.
  intros Htfr raw N.
  destruct rawList_peak0_mass as (H12 & Hx & [Hlo Hup] & Hoth).
  fold raw in H12, Hlo, Hup, Hoth. set (x := exp (- 11.52)) in *.
  assert (Hs : 0 < sum raw) by lra.
  assert (HsN : sum N = tfr) by (apply sum_normalised; lra).
  assert (Hc : / 1.1545 <= x / sum raw <= / 1.1495).
  { split.
    - apply Rdiv_ge_bound; [done|].
      apply Rle_trans with (/ 1.1545 * (1.1545 * x)); [|lra].
      apply Rmult_le_compat_l; lra.
    - apply Rdiv_le_bound; [done|].
      apply Rle_trans with (/ 1.1495 * (1.1495 * x)); [lra|].
      apply Rmult_le_compat_l; lra. }
  exists (x / sum raw * tfr).
  assert (HN12 : N !! 12%nat = Some (x / sum raw * tfr))
    by (apply normalised_lookup; eauto).
  assert (Hv : tfr / 1.1545 <= x / sum raw * tfr <= tfr / 1.1495) by nra.
  assert (Hmax : MAX_ASFR < x / sum raw * tfr) by (unfold MAX_ASFR; lra).
  assert (HNoth : ∀ a v, N !! a = Some v → a ≠ 12%nat → 0 <= v <= tfr / 7).
  { intros a v (f & Hf & ->)%normalised_lookup Hne.
    destruct (Hoth a f Hf Hne) as [Hf0 Hf1].
    assert (f / sum raw <= 1 / 7) by (apply Rdiv_le_bound; lra).
    assert (0 <= f / sum raw).
    { apply Rmult_le_pos; [done|]. left. by apply Rinv_0_lt_compat. }
    nra. }
  split; [done|]. split; [done|]. split; [done|]. split; [done|].
  split; [|split].
  - apply cap_lookup. eexists. split; [done|]. rewrite Rmin_right; lra.
  - intros a y (v & Hv' & ->)%cap_lookup Hne.
    specialize (HNoth a v Hv' Hne). unfold MAX_ASFR. rewrite Rmin_left; lra.
  - rewrite (sum_cap_only_at N 12 _ HN12).
    + rewrite HsN, Rmin_right by lra. done.
    + intros j f Hj Hf. specialize (HNoth j f Hf Hj). unfold MAX_ASFR. lra.
Qed.


(** For the target 1.6 the ceiling binds at age 12, more than 1% of the
    target is cut off, and the redistribution pass restores all of it. *)
Lemma fertility_peak0_restored :
  Exists (λ f, MAX_ASFR < f) (normalised (rawList 0 2.5 None) 1.6) ∧
  biologicallyCapped (fertility 0 2.5 None 1.6) = Some true ∧
  effectiveTFR (fertility 0 2.5 None 1.6) = Some 1.6.
Proof.
  destruct (capped_peak0 1.6)
    as (v12 & HN12 & Hv & Hmax & HsN & HC12 & HCoth & HsC); [lra|].
  destruct rawList_peak0_mass as (_ & Hx & [Hlo _] & _).
  set (raw := rawList 0 2.5 None) in *.
  set (N := normalised raw 1.6) in *. set (C := cap N) in *.
  split.
  { apply Exists_exists. exists v12.
    split; [by eapply list_elem_of_lookup_2|done]. }
  unfold fertility. fold raw.
  replace (Rltb (sum raw) 1e-10) with false
    by (symmetry; apply Rltb_false; lra).
  fold N. fold C.
  replace (Rltb (sum C) (1.6 * 0.99)) with true
    by (symmetry; apply Rltb_true; rewrite HsC; unfold MAX_ASFR; lra).
  split; [done|]. cbn [effectiveTFR]. f_equal.
  set (lost := 1.6 - sum C).
  assert (Hlost : 0 <= lost <= 0.3).
  { unfold lost. rewrite HsC. unfold MAX_ASFR in *. lra. }
  assert (Hlen : length C = numAges).
  { unfold C, cap, N, normalised. rewrite !length_fmap. apply rawList_length. }
  assert (Hn : (0 < length (filter (λ b, b = true) (canReceive C)))%nat).
  { destruct (lookup_lt_is_Some_2 C 13) as [y Hy];
      [rewrite Hlen; unfold numAges; lia|].
    apply (filter_true_pos _ 13). rewrite (canReceive_lookup _ _ _ Hy).
    f_equal. apply receives_true. split; [|lia].
    specialize (HCoth 13%nat y Hy ltac:(lia)). unfold MAX_ASFR. lra. }
  rewrite sum_redistributed_eq; [unfold lost; lra|done|].
  intros a f Hf [Hlt _]%receives_true.
  assert (a ≠ 12%nat).
  { intros ->. rewrite HC12 in Hf. injection Hf as <-. lra. }
  specialize (HCoth a f Hf ltac:(done)).
  assert (1 <= INR (length (filter (λ b, b = true) (canReceive C)))).
  { change 1 with (INR 1). apply le_INR. lia. }
  assert (lost / INR (length (filter (λ b, b = true) (canReceive C))) <= 0.3).
  { apply Rdiv_le_bound; [lra|]. lra. }
  unfold MAX_ASFR. lra.
Qed.



(** ** The one-year transition *)

Lemma cell_lookup l a x : l !! a = Some x → cell l a = x.
Proof. unfold cell. by intros ->. Qed.

Lemma lookup_cell l a : (a < length l)%nat → l !! a = Some (cell l a).
Proof.
  intros H. destruct (lookup_lt_is_Some_2 l a H) as [x Hx].
  by rewrite (cell_lookup _ _ _ Hx).
Qed.

(** An accumulating loop computes a sum. *)
Lemma for_range_sum2 (t1 t2 : nat → R) (body : nat → R * R → option (R * R)) n :
  ∀ lo a b,
    (∀ i x y, (lo ≤ i < lo + n)%nat → body i (x, y) = Some (x + t1 i, y + t2 i)) →
    for_range lo n body (a, b) =
    Some (a + sum (t1 <$> seq lo n), b + sum (t2 <$> seq lo n)).
Proof.
  induction n as [|n IH]; intros lo a b H.
  - simpl. rewrite sum_nil. do 2 f_equal; lra.
  - cbn [for_range]. rewrite H by lia. bind_step.
    rewrite IH by (intros; apply H; lia).
    cbn [seq]. rewrite !fmap_cons, !sum_cons. do 2 f_equal; lra.
Qed.

Lemma for_range_sum (t : nat → R) (body : nat → R → option R) n :
  ∀ lo a,
    (∀ i x, (lo ≤ i < lo + n)%nat → body i x = Some (x + t i)) →
    for_range lo n body a = Some (a + sum (t <$> seq lo n)).
Proof.
  induction n as [|n IH]; intros lo a H.
  - simpl. rewrite sum_nil. f_equal; lra.
  - cbn [for_range]. rewrite H by lia. bind_step.
    rewrite IH by (intros; apply H; lia).
    cbn [seq]. rewrite !fmap_cons, !sum_cons. f_equal; lra.
Qed.

(** A loop that stores [g i] in cell [i] fills the array with [g]. *)
Lemma for_range_fill {St} (g : nat → R) (get : St → list R)
    (body : nat → St → option St) (J : nat → St → Prop) n lo s :
  (lo + n ≤ numAges)%nat →
  get s = (g <$> seq 0 lo) ++ replicate (numAges - lo) 0 →
  J lo s →
  (∀ i t, (lo ≤ i < lo + n)%nat → J i t →
     ∃ t', body i t = Some t' ∧ get t' = <[i := g i]> (get t) ∧ J (S i) t') →
  ∃ s', for_range lo n body s = Some s' ∧
        get s' = (g <$> seq 0 (lo + n)) ++ replicate (numAges - (lo + n)) 0 ∧
        J (lo + n)%nat s'.
Proof.
  intros Hn Hs HJ Hbody.
  edestruct (for_range_inv
    (λ i t, (i ≤ lo + n)%nat ∧ J i t ∧
            get t = (g <$> seq 0 i) ++ replicate (numAges - i) 0)
    body n lo s)
    as (s' & Hs' & _ & HJ' & Hget).
  - split; [lia|]. split; [apply HJ|apply Hs].
  - intros i t Hi (_ & HJi & Ht).
    destruct (Hbody i t Hi HJi) as (t' & Hb & Hg & HJ').
    exists t'. split; [done|]. split; [lia|]. split; [done|].
    rewrite Hg, Ht.
    assert (Hlen : length (g <$> seq 0 i) = i)
      by (by rewrite length_fmap, length_seq).
    rewrite insert_app_r_alt by (rewrite Hlen; lia).
    rewrite Hlen, Nat.sub_diag.
    replace (numAges - i)%nat with (S (numAges - S i)) by lia.
    by rewrite seq_S, fmap_app, <- app_assoc.
  - exists s'. split; [apply Hs'|]. split; [apply Hget|apply HJ'].
Qed.

Lemma ageTrack_eq old e0 isMale newborns :
  length old = numAges →
  ageTrack old e0 isMale newborns = Some (agedList old e0 isMale newborns).
Proof.
  intros Hlen. unfold ageTrack, agedList.
  match goal with
  | |- for_range _ _ ?b ?s = _ =>
      edestruct (for_range_fill (aged old e0 isMale newborns)
                   (λ l : list R, l) b (λ _ _, True) (numAges - 1) 1 s)
        as (s' & -> & Hs' & _)
  end.
  - unfold numAges. lia.
  - reflexivity.
  - done.
  - intros i t Hi _. eexists. split; [|split; [reflexivity|done]].
    rewrite lookup_cell by (unfold numAges in *; lia).
    bind_step. unfold aged. destruct i as [|i]; [lia|]. done.
  - f_equal. rewrite Hs'.
    change (1 + (numAges - 1))%nat with numAges.
    by rewrite Nat.sub_diag, app_nil_r.
Qed.

Lemma fertility_length peak spreadVal secondPeak tfr :
  length (schedule (fertility peak spreadVal secondPeak tfr)) = numAges.
Proof.
  unfold fertility. destruct (Rltb _ 1e-10); cbn [schedule].
  - apply rawList_length.
  - destruct (Rltb _ (tfr * 0.99)); rewrite ?redistributed_length;
      unfold cap, normalised; rewrite !length_fmap; apply rawList_length.
Qed.

Lemma meanAge_eq births weightedAgeSum peakAge :
  meanAge births weightedAgeSum peakAge =
  Some (meanAgeValue births weightedAgeSum peakAge).
Proof.
  unfold meanAge, meanAgeValue. destruct (Rltb 0 births) eqn:E; [|done].
  apply Rltb_true in E. apply num_div_Some. lra.
Qed.

Lemma dependency_eq dist : dependency dist = Some (dependencyValue dist).
Proof.
  unfold dependency, dependencyValue.
  destruct (Rltb 0 (sum (slice 15 65 dist))) eqn:E; [|done].
  apply Rltb_true in E. apply num_div_Some. lra.
Qed.

Lemma births_loop_eq (asfr women : list R) :
  length asfr = numAges → length women = numAges →
  for_range 12 (55 - 12)
    (λ age '(births, weightedAgeSum),
       asfr ← asfr !! age;
       women ← women !! age;
       let birthsFromAge := asfr * women in
       Some (births + birthsFromAge, weightedAgeSum + INR age * birthsFromAge))
    (0, 0) =
  Some (totalBirths asfr women, weightedAges asfr women).
Proof.
  intros Ha Hw.
  rewrite (for_range_sum2 (birthsFromAge asfr women)
             (λ a, INR a * birthsFromAge asfr women a)).
  - unfold totalBirths, weightedAges. do 2 f_equal; lra.
  - intros i x y Hi.
    rewrite (lookup_cell asfr i), (lookup_cell women i)
      by (unfold numAges in *; lia).
    done.
Qed.

Lemma total_loop_eq (old : list R) (e0 births : R) :
  length old = numAges →
  for_range 1 (numAges - 1)
    (λ age '(newDist, deaths),
       let mortality := getMortalityRate (INR age - 1) e0 false in
       let survivalProb := exp (- mortality) in
       prev ← old !! (age - 1)%nat;
       let survivors := prev * survivalProb in
       Some (<[age := Rmax 0 survivors]> newDist,
             deaths + prev * (1 - survivalProb)))
    (<[0%nat := births]> (replicate numAges 0), 0) =
  Some (agedList old e0 false births,
        sum (deathsInto old e0 <$> seq 1 (numAges - 1))).
Proof.
  intros Hlen.
  match goal with
  | |- for_range _ _ ?b ?s = _ =>
      edestruct (for_range_fill (aged old e0 false births)
                   (λ p : list R * R, p.1) b
                   (λ i p, p.2 = sum (deathsInto old e0 <$> seq 1 (i - 1)))
                   (numAges - 1) 1 s)
        as ([nd d] & -> & Hnd & Hd)
  end.
  - unfold numAges. lia.
  - reflexivity.
  - reflexivity.
  - intros i [arr d] Hi Hd. simpl in Hd.
    rewrite lookup_cell by (unfold numAges in *; lia).
    bind_step. eexists. split; [done|]. cbn [fst snd]. split.
    + unfold aged. destruct i as [|i]; [lia|]. done.
    + rewrite Hd. destruct i as [|i]; [lia|].
      replace (S (S i) - 1)%nat with (S i) by lia.
      replace (S i - 1)%nat with i by lia.
      rewrite seq_S, fmap_app, sum_app.
      change (deathsInto old e0 <$> [(1 + i)%nat])
        with [deathsInto old e0 (S i)].
      rewrite sum_cons, sum_nil. unfold deathsInto.
      replace (S i - 1)%nat with i by lia. lra.
  - cbn [fst snd] in Hnd, Hd. do 2 f_equal.
    + rewrite Hnd. change (1 + (numAges - 1))%nat with numAges.
      by rewrite Nat.sub_diag, app_nil_r.
    + done.
Qed.

(** On a well-formed state [simulateStep] never fails and commits
    [nextState]. *)
Lemma simulateStep_eq st :
  wellFormed st → simulateStep st = Some (nextState st).
Proof.
  intros (Ht & Hm & Hf). unfold simulateStep.
  rewrite getFertilitySchedule_eq. bind_step.
  fold (stateFertility st).
  rewrite births_loop_eq; [|apply fertility_length|done].
  bind_step. rewrite meanAge_eq. bind_step.
  rewrite !ageTrack_eq by done. bind_step.
  rewrite total_loop_eq by done. bind_step.
  rewrite lookup_cell by (rewrite Ht; unfold numAges; lia).
  bind_step. rewrite dependency_eq. bind_step.
  reflexivity.
Qed.

Lemma agedList_length old e0 isMale newborns :
  length (agedList old e0 isMale newborns) = numAges.
Proof. unfold agedList. by rewrite length_fmap, length_seq. Qed.

Lemma nextState_wellFormed st : wellFormed (nextState st).
Proof. repeat split; apply agedList_length. Qed.

Lemma fmap_cell_seq l : cell l <$> seq 0 (length l) = l.
Proof.
  apply list_eq. intros i. rewrite list_lookup_fmap.
  destruct (decide (i < length l)%nat) as [Hi|Hi].
  - rewrite lookup_seq_lt by done. simpl. by rewrite lookup_cell.
  - rewrite lookup_seq_ge by lia. simpl. symmetry. apply lookup_ge_None. lia.
Qed.

Lemma cell_nonneg l a : Forall (λ x, 0 <= x) l → 0 <= cell l a.
Proof.
  intros H. unfold cell. destruct (l !! a) as [x|] eqn:E; simpl; [|lra].
  by eapply (Forall_lookup_1 _ l).
Qed.

Lemma sum_fmap_seq_shift (f : nat → R) n :
  sum (f <$> seq 0 (S n)) = f 0%nat + sum ((λ a, f (S a)) <$> seq 0 n).
Proof.
  cbn [seq]. rewrite fmap_cons, sum_cons, <- fmap_S_seq, <- list_fmap_compose.
  done.
Qed.

(** Survivors = cohort - deaths, summed over the first [n] cohorts. *)
Lemma sum_survivors old e0 births n :
  Forall (λ x, 0 <= x) old →
  sum ((λ a, aged old e0 false births (S a)) <$> seq 0 n) =
  sum (cell old <$> seq 0 n) - sum (deathsInto old e0 <$> seq 1 n).
Proof.
  intros Hnn. induction n as [|n IH]; [simpl; rewrite !sum_nil; lra|].
  rewrite !sum_fmap_seq_S, IH, (seq_S n 1), fmap_app, sum_app.
  change (deathsInto old e0 <$> [(1 + n)%nat]) with [deathsInto old e0 (S n)].
  rewrite sum_cons, sum_nil. unfold aged, deathsInto.
  replace (S n - 1)%nat with n by lia.
  pose proof (cell_nonneg old n Hnn).
  pose proof (exp_pos (- getMortalityRate (INR (S n) - 1) e0 false)).
  rewrite Rmax_right by (by apply Rmult_le_pos; lra). lra.
Qed.

Lemma mass_balance old e0 births :
  length old = numAges → Forall (λ x, 0 <= x) old →
  sum (agedList old e0 false births) = sum old - totalDeaths old e0 + births.
Proof.
  intros Hlen Hnn. unfold agedList, totalDeaths.
  rewrite <- (fmap_cell_seq old) at 2. rewrite Hlen.
  change numAges with (S (numAges - 1)) at 1 2.
  rewrite sum_fmap_seq_shift, sum_survivors, sum_fmap_seq_S by done.
  simpl aged. lra.
Qed.

(** C1. One step conserves mass: on a state whose cohort counts are
    nonnegative, [simulateStep] succeeds and the sum of the new total
    distribution equals the sum of the old one minus the recorded deaths
    plus the recorded births, where the deaths are
    [old(age-1) * (1 - exp (- mu(age-1)))] summed over ages
    [1 .. numAges - 1] plus the whole oldest cohort [old(numAges-1)]. *)
Theorem step_conserves_mass (st : State) :
  wellFormed st →
  Forall (λ x, 0 <= x) (ageDistribution st) →
  ∃ st' e,
    simulateStep st = Some st' ∧
    history st' = history st ++ [e] ∧
    Entry.deaths e =
      sum ((λ age, cell (ageDistribution st) (age - 1) *
                   (1 - exp (- getMortalityRate (INR age - 1)
                                 (lifeExpectancy st) false)))
           <$> seq 1 (numAges - 1)) +
      cell (ageDistribution st) (numAges - 1) ∧
    Entry.population e = sum (ageDistribution st') ∧
    sum (ageDistribution st') =
      sum (ageDistribution st) - Entry.deaths e + Entry.births e.
Proof.
  intros Hwf Hnn. exists (nextState st), (nextEntry st).
  split; [by apply simulateStep_eq|]. split; [done|]. split; [done|].
  split; [done|]. destruct Hwf as (Hlen & _ & _).
  by apply mass_balance.
Qed.

Lemma step_conserves_mass_witness :
  ∃ st' e,
    simulateStep uniformState = Some st' ∧
    history st' = history uniformState ++ [e] ∧
    Entry.deaths e =
      sum ((λ age, cell (ageDistribution uniformState) (age - 1) *
                   (1 - exp (- getMortalityRate (INR age - 1)
                                 (lifeExpectancy uniformState) false)))
           <$> seq 1 (numAges - 1)) +
      cell (ageDistribution uniformState) (numAges - 1) ∧
    Entry.population e = sum (ageDistribution st') ∧
    sum (ageDistribution st') =
      sum (ageDistribution uniformState) - Entry.deaths e + Entry.births e.
Proof.
  apply (step_conserves_mass uniformState).
  - repeat split; apply length_replicate.
  - apply Forall_replicate. lra.
Defined.

(** ** Initialisation *)

Lemma sum_survivalCurve_pos st : 1 <= sum (survivalCurve st).
Proof.
  unfold survivalCurve. change numAges with (S (numAges - 1)).
  rewrite sum_fmap_seq_shift. simpl survival at 1.
  assert (0 <= sum ((λ a, survival (lifeExpectancy st) false (S a))
                    <$> seq 0 (numAges - 1))).
  { apply sum_nonneg, Forall_fmap, Forall_forall. intros a _.
    left. apply (survival_pos _ _ (S a)). }
  lra.
Qed.

Lemma initialDistribution_length st : length (initialDistribution st) = numAges.
Proof.
  unfold initialDistribution, survivalCurve.
  by rewrite !length_fmap, length_seq.
Qed.

(** [initialize] never fails and commits [initialState]. *)
Lemma initialize_eq st : initialize st = Some (initialState st).
Proof.
  unfold initialize.
  rewrite getSurvivalCurve_eq. bind_step.
  fold (survivalCurve st).
  rewrite (mapM_total _ (survival (lifeExpectancy st) false)).
  2:{ intros a [j [-> Hj]%lookup_seq]%list_elem_of_lookup.
      apply lookup_fmap_seq. split; [lia|done]. }
  fold (survivalCurve st). bind_step.
  pose proof (sum_survivalCurve_pos st).
  rewrite num_div_Some by lra. bind_step.
  fold (initialDistribution st).
  rewrite getFertilitySchedule_eq. bind_step.
  fold (stateFertility st).
  pose proof (initialDistribution_length st) as Hlen.
  pose proof (fertility_length (peakAge (getEffectiveParams st))
                (spread (getEffectiveParams st))
                (or_null (secondPeak (getEffectiveParams st)))
                (totalFertility st)) as Hflen.
  fold (stateFertility st) in Hflen.
  rewrite (for_range_sum2
             (λ a, cell (schedule (stateFertility st)) a *
                   cell (initialDistribution st) a * 0.5)
             (λ a, INR a * (cell (schedule (stateFertility st)) a *
                            cell (initialDistribution st) a * 0.5))).
  2:{ intros i x y Hi.
      rewrite (lookup_cell (schedule (stateFertility st)) i),
        (lookup_cell (initialDistribution st) i)
        by (unfold numAges in *; lia).
      done. }
  bind_step.
  rewrite (for_range_sum
             (λ a, cell (initialDistribution st) a *
                   (1 - exp (- getMortalityRate (INR a) (lifeExpectancy st) false)))).
  2:{ intros i x Hi.
      rewrite (lookup_cell (initialDistribution st) i)
        by (unfold numAges in *; lia).
      done. }
  bind_step. rewrite meanAge_eq. bind_step.
  rewrite dependency_eq. bind_step.
  unfold initialState, initialEntry. cbn [Entry.ageDistribution
    Entry.maleDistribution Entry.femaleDistribution].
  rewrite !Rplus_0_l. reflexivity.
Qed.

Lemma initialState_wellFormed st : wellFormed (initialState st).
Proof.
  unfold wellFormed, initialState, initialEntry.
  cbn [ageDistribution maleDistribution femaleDistribution
       Entry.ageDistribution Entry.maleDistribution Entry.femaleDistribution].
  rewrite !length_fmap. pose proof (initialDistribution_length st). tauto.
Qed.

(** C8. [initialize] is deterministic: from two states holding identical
    configurations (scenario, totalFertility, lifeExpectancy,
    peakFertilityAge, fertilitySpread, sexRatioAtBirth, initialPopulation)
    and otherwise arbitrary, it succeeds and produces identical total,
    male and female distributions and the identical single history
    entry. *)
Theorem initialize_deterministic (s1 s2 : State) :
  sameConfiguration s1 s2 →
  ∃ i1 i2 e,
    initialize s1 = Some i1 ∧ initialize s2 = Some i2 ∧
    ageDistribution i1 = ageDistribution i2 ∧
    maleDistribution i1 = maleDistribution i2 ∧
    femaleDistribution i1 = femaleDistribution i2 ∧
    history i1 = [e] ∧ history i2 = [e].
Proof.
  intros (Hsc & Htfr & He0 & Hpeak & Hspread & Hsrb & Hpop).
  exists (initialState s1), (initialState s2), (initialEntry s1).
  split; [apply initialize_eq|]. split; [apply initialize_eq|].
  assert (Heq : initialEntry s2 = initialEntry s1).
  { unfold initialEntry, initialDistribution, survivalCurve, stateFertility,
      getEffectiveParams.
    by rewrite Hsc, Htfr, He0, Hpeak, Hspread, Hsrb, Hpop. }
  unfold initialState. cbn [ageDistribution maleDistribution
    femaleDistribution history]. by rewrite Heq.
Qed.

Lemma initialize_deterministic_witness :
  ∃ i1 i2 e,
    initialize mountState = Some i1 ∧ initialize uniformState = Some i2 ∧
    ageDistribution i1 = ageDistribution i2 ∧
    maleDistribution i1 = maleDistribution i2 ∧
    femaleDistribution i1 = femaleDistribution i2 ∧
    history i1 = [e] ∧ history i2 = [e].
Proof.
  apply (initialize_deterministic mountState uniformState).
  repeat split; reflexivity.
Defined.

(** ** Sex consistency of the three tracks *)

Lemma cell_fmap_seq (f : nat → R) n a : (a < n)%nat → cell (f <$> seq 0 n) a = f a.
Proof. intros H. apply cell_lookup, lookup_fmap_seq. done. Qed.

Lemma cell_fmap_scale (c : R) l a : cell ((λ n, n * c) <$> l) a = cell l a * c.
Proof.
  unfold cell. rewrite list_lookup_fmap.
  destruct (l !! a); simpl; lra.
Qed.

(** [initialize] splits every cohort evenly: the invariant holds at time 0. *)
Lemma initialState_consistent st a :
  cell (ageDistribution (initialState st)) a =
  cell (maleDistribution (initialState st)) a +
  cell (femaleDistribution (initialState st)) a.
Proof.
  unfold initialState, initialEntry.
  cbn [ageDistribution maleDistribution femaleDistribution
       Entry.ageDistribution Entry.maleDistribution Entry.femaleDistribution].
  rewrite cell_fmap_scale. lra.
Qed.

(** The newborns are split consistently at every step. *)
Lemma nextState_consistent_at_0 st :
  cell (ageDistribution (nextState st)) 0 =
  cell (maleDistribution (nextState st)) 0 +
  cell (femaleDistribution (nextState st)) 0.
Proof.
  unfold nextState, nextEntry.
  cbn [ageDistribution maleDistribution femaleDistribution
       Entry.ageDistribution Entry.maleDistribution Entry.femaleDistribution].
  unfold agedList. rewrite !cell_fmap_seq by (unfold numAges; lia).
  simpl. lra.
Qed.

(** Above age 0 the total track ages with the female hazard while the men
    age with the male hazard: a consistent cohort that contains men and
    whose female hazard is below the clamp becomes inconsistent. *)
Lemma nextState_inconsistent st a :
  (S a < numAges)%nat →
  cell (ageDistribution st) a =
    cell (maleDistribution st) a + cell (femaleDistribution st) a →
  0 < cell (maleDistribution st) a →
  0 <= cell (femaleDistribution st) a →
  siler (INR a) (lifeExpectancy st) false < 0.6 →
  cell (maleDistribution (nextState st)) (S a) +
  cell (femaleDistribution (nextState st)) (S a) <
  cell (ageDistribution (nextState st)) (S a).
Proof.
  intros Ha Hcons Hm Hf Hclamp.
  unfold nextState, nextEntry.
  cbn [ageDistribution maleDistribution femaleDistribution
       Entry.ageDistribution Entry.maleDistribution Entry.femaleDistribution].
  unfold agedList. rewrite !cell_fmap_seq by done.
  unfold aged. replace (S a - 1)%nat with a by lia.
  rewrite (INR_pred (S a)) by lia. replace (S a - 1)%nat with a by lia.
  set (e0 := lifeExpectancy st) in *.
  pose proof (getMortalityRate_sex_strict (INR a) e0 Hclamp) as Hsex.
  assert (Hexp : exp (- getMortalityRate (INR a) e0 true) <
                 exp (- getMortalityRate (INR a) e0 false))
    by (apply exp_increasing; lra).
  pose proof (exp_pos (- getMortalityRate (INR a) e0 true)).
  pose proof (exp_pos (- getMortalityRate (INR a) e0 false)).
  rewrite !Rmax_right by (apply Rmult_le_pos; lra).
  rewrite Hcons. nra.
Qed.

(** C2 fails on the code.  The component is mounted with the default
    configuration and initialised: total = male + female in every cohort.
    After one step the cohort of age 1 has lost the equality: the total
    track holds more people than the male and female tracks together. *)
Theorem sex_consistency_lost_after_one_step :
  ∃ s0 s1,
    initialize mountState = Some s0 ∧
    (∀ a, cell (ageDistribution s0) a =
          cell (maleDistribution s0) a + cell (femaleDistribution s0) a) ∧
    simulateStep s0 = Some s1 ∧
    cell (maleDistribution s1) 1 + cell (femaleDistribution s1) 1 <
    cell (ageDistribution s1) 1.
Proof.
  exists (initialState mountState), (nextState (initialState mountState)).
  split; [apply initialize_eq|].
  split; [apply initialState_consistent|].
  split; [apply simulateStep_eq, initialState_wellFormed|].
  assert (H0 : 0 < cell (initialDistribution mountState) 0).
  { unfold initialDistribution. rewrite cell_fmap_scale.
    pose proof (sum_survivalCurve_pos mountState).
    set (total := sum (survivalCurve mountState)) in *.
    unfold survivalCurve. rewrite cell_fmap_seq by (unfold numAges; lia).
    cbn [survival initialPopulation mountState]. rewrite Rmult_1_l.
    apply Rdiv_lt_0_compat; lra. }
  apply nextState_inconsistent.
  - unfold numAges. lia.
  - apply initialState_consistent.
  - unfold initialState, initialEntry.
    cbn [maleDistribution Entry.maleDistribution].
    rewrite cell_fmap_scale. lra.
  - unfold initialState, initialEntry.
    cbn [femaleDistribution Entry.femaleDistribution].
    rewrite cell_fmap_scale. lra.
  - apply siler_0_below_clamp. simpl. lra.
Qed.

(** ** Division guards *)

Lemma sum_fmap_seq_bound (f : nat → R) (c : R) n :
  (∀ a, f a <= c) → sum (f <$> seq 0 n) <= INR n * c.
Proof.
  intros H. induction n as [|n IH]; [simpl; rewrite sum_nil; lra|].
  rewrite sum_fmap_seq_S, S_INR. specialize (H n). lra.
Qed.

(** For peak age -12 and spread 2.5 the raw shape is positive on the
    fertile window and sums to less than the threshold. *)
Lemma rawShape_far_peak a : rawShape (-12) 2.5 None a <= / 2 ^ 46.
Proof.
  assert (Hc : 0 < / 2 ^ 46) by (apply Rinv_0_lt_compat; lra).
  unfold rawShape. destruct (12 <=? a)%nat eqn:E; [|simpl; lra].
  destruct (a <? 55)%nat; [|simpl; lra]. cbn [andb].
  apply Nat.leb_le, le_INR in E. simpl INR in E.
  unfold rawValue. rewrite Rmax_left by lra. rewrite Rplus_0_r.
  set (d := if Rltb 40 (INR a) then _ else _).
  assert (Hd : 0 < d <= 1).
  { unfold d. destruct (Rltb 40 (INR a)) eqn:E'; [|lra].
    apply Rltb_true in E'. split; [apply exp_pos|].
    left. rewrite <- exp_0. apply exp_increasing. lra. }
  set (x := - (INR a - -12) ^ 2 / (2 * 2.5 ^ 2)).
  assert (Hx : x <= Ropp (INR 46)).
  { unfold x. simpl INR. nra. }
  assert (He : exp x <= / 2 ^ 46).
  { apply Rle_trans with (exp (Ropp (INR 46))).
    - destruct Hx as [Hx|Hx]; [left; by apply exp_increasing|rewrite Hx; lra].
    - rewrite exp_Ropp. pose proof (exp_INR_ge 46).
      apply Rinv_le_contravar; [lra|done]. }
  pose proof (exp_pos x).
  rewrite <- (Rmult_1_r (/ 2 ^ 46)). apply Rmult_le_compat; lra.
Qed.

Lemma rawList_far_peak_sum : sum (rawList (-12) 2.5 None) < 1e-10.
Proof.
  unfold rawList.
  pose proof (sum_fmap_seq_bound (rawShape (-12) 2.5 None) (/ 2 ^ 46) numAges
                rawShape_far_peak) as H.
  assert (INR numAges * / 2 ^ 46 < 1e-10); [|lra].
  unfold numAges. simpl INR. lra.
Qed.

(** C7 fails on the code in its third part: for peak age -12, spread 2.5
    and target 2.1 the raw shape sums to less than 1e-10, and the array
    returned is the raw shape, whose cell 12 is not zero. *)
Lemma zero_schedule_claim_fails : ¬ zero_schedule_claim (-12) 2.5 None 2.1.
Proof.
  intros Hclaim.
  pose proof (Hclaim _ _ (rawSchedule_eq _ _ _) rawList_far_peak_sum
                (getFertilitySchedule_eq _ _ _ _)) as Hzero.
  unfold fertility in Hzero.
  replace (Rltb (sum (rawList (-12) 2.5 None)) 1e-10) with true in Hzero
    by (symmetry; apply Rltb_true, rawList_far_peak_sum).
  cbn [schedule] in Hzero.
  assert (H12 : rawList (-12) 2.5 None !! 12%nat =
                Some (rawValue (-12) 2.5 None 12)).
  { apply rawList_lookup. split; [unfold numAges; lia|done]. }
  rewrite Hzero in H12. rewrite lookup_replicate_2 in H12
    by (unfold numAges; lia).
  injection H12 as H12. pose proof (rawValue_pos (-12) 2.5 None 12). lra.
Qed.

(** C7, amended.  The guarded divisions never divide by zero: on a
    well-formed state [simulateStep] succeeds, with [meanParentAge] equal
    to the effective peak age when no birth occurs and [dependencyRatio]
    equal to 0 when the working ages of the new total distribution are
    empty; [getFertilitySchedule] succeeds on every input, and when the raw
    shape sums to less than 1e-10 it returns that raw shape unmodified
    (cells in [0, 1e-10), neither [biologicallyCapped] nor [effectiveTFR]
    attached). *)
Theorem division_guards (st : State) (peak spreadVal : R)
    (secondPeak : option R) (tfr : R) :
  wellFormed st →
  (∃ st' e,
     simulateStep st = Some st' ∧ history st' = history st ++ [e] ∧
     (Entry.births e = 0 →
        Entry.meanParentAge e = peakAge (getEffectiveParams st)) ∧
     (sum (slice 15 65 (ageDistribution st')) = 0 →
        Entry.dependencyRatio e = 0)) ∧
  (∃ raw r,
     rawSchedule peak spreadVal secondPeak = Some raw ∧
     getFertilitySchedule peak spreadVal secondPeak tfr = Some r ∧
     (sum raw < 1e-10 →
        schedule r = raw ∧ biologicallyCapped r = None ∧
        effectiveTFR r = None ∧ Forall (λ f, 0 <= f < 1e-10) raw)).
Proof.
  intros Hwf. split.
  - exists (nextState st), (nextEntry st).
    split; [by apply simulateStep_eq|]. split; [done|].
    unfold nextState, nextEntry.
    cbn [ageDistribution Entry.ageDistribution Entry.births
         Entry.meanParentAge Entry.dependencyRatio].
    split.
    + intros ->. unfold meanAgeValue.
      replace (Rltb 0 0) with false by (symmetry; apply Rltb_false; lra).
      done.
    + intros Hw. unfold dependencyValue. rewrite Hw.
      replace (Rltb 0 0) with false by (symmetry; apply Rltb_false; lra).
      done.
  - exists (rawList peak spreadVal secondPeak),
      (fertility peak spreadVal secondPeak tfr).
    split; [apply rawSchedule_eq|]. split; [apply getFertilitySchedule_eq|].
    intros Hs. unfold fertility.
    replace (Rltb (sum (rawList peak spreadVal secondPeak)) 1e-10) with true
      by (symmetry; by apply Rltb_true).
    cbn [schedule biologicallyCapped effectiveTFR].
    split; [done|]. split; [done|]. split; [done|].
    pose proof (rawList_nonneg peak spreadVal secondPeak) as Hnn.
    apply Forall_forall. intros f Hf.
    pose proof (sum_elem_le _ f Hnn Hf).
    rewrite Forall_forall in Hnn. specialize (Hnn f Hf). lra.
Qed.

Lemma division_guards_witness :
  (∃ st' e,
     simulateStep uniformState = Some st' ∧
     history st' = history uniformState ++ [e] ∧
     (Entry.births e = 0 →
        Entry.meanParentAge e = peakAge (getEffectiveParams uniformState)) ∧
     (sum (slice 15 65 (ageDistribution st')) = 0 →
        Entry.dependencyRatio e = 0)) ∧
  (∃ raw r,
     rawSchedule (-12) 2.5 None = Some raw ∧
     getFertilitySchedule (-12) 2.5 None 2.1 = Some r ∧
     (sum raw < 1e-10 →
        schedule r = raw ∧ biologicallyCapped r = None ∧
        effectiveTFR r = None ∧ Forall (λ f, 0 <= f < 1e-10) raw)).
Proof.
  apply (division_guards uniformState (-12) 2.5 None 2.1).
  repeat split; apply length_replicate.
Defined.

(** ** Realised growth rate *)

Lemma growthRate_short h : (length h ≤ 10)%nat → growthRate h = Some 0.
Proof.
  intros H. unfold growthRate.
  replace (10 <? length h)%nat with false; [done|].
  symmetry. apply Nat.ltb_ge. lia.
Qed.

(** What the code computes on a longer history: the latest entry against
    the entry at index [length - 10]. *)
Lemma growthRate_long h :
  (10 < length h)%nat →
  ∃ latest earlier,
    h !! (length h - 1)%nat = Some latest ∧
    h !! (length h - 10)%nat = Some earlier ∧
    (Entry.population earlier ≠ 0 →
     growthRate h =
       Some ((Entry.population latest / Entry.population earlier - 1)
             * 100 / 10)).
Proof.
  intros H.
  destruct (lookup_lt_is_Some_2 h (length h - 1)) as [latest Hl]; [lia|].
  destruct (lookup_lt_is_Some_2 h (length h - 10)) as [earlier He]; [lia|].
  exists latest, earlier. split; [done|]. split; [done|].
  intros Hp. unfold growthRate.
  replace (10 <? length h)%nat with true by (symmetry; by apply Nat.ltb_lt).
  rewrite Hl, He. bind_step.
  by rewrite num_div_Some.
Qed.

Lemma run_eq n st :
  wellFormed st →
  run n st = Some (Nat.iter n nextState st) ∧
  wellFormed (Nat.iter n nextState st).
Proof.
  intros Hwf. induction n as [|n [IH IHwf]]; [done|].
  cbn [run]. rewrite Nat.iter_succ, IH. bind_step.
  split; [by apply simulateStep_eq|apply nextState_wellFormed].
Qed.

Lemma history_iter_length n st :
  length (history (Nat.iter n nextState st)) = (length (history st) + n)%nat.
Proof.
  induction n as [|n IH]; [simpl; lia|].
  rewrite Nat.iter_succ. unfold nextState at 1. cbn [history].
  rewrite length_app, IH. simpl. lia.
Qed.

Lemma time_iter n st : time (Nat.iter n nextState st) = (time st + n)%nat.
Proof.
  induction n as [|n IH]; [simpl; lia|].
  rewrite Nat.iter_succ. unfold nextState at 1. cbn [time]. lia.
Qed.

Lemma last_history_iter n st :
  last (history (Nat.iter (S n) nextState st)) =
  Some (nextEntry (Nat.iter n nextState st)).
Proof.
  rewrite Nat.iter_succ. unfold nextState at 1. cbn [history].
  apply last_snoc.
Qed.

Lemma nextEntry_time st : Entry.time (nextEntry st) = (time st + 1)%nat.
Proof. reflexivity. Qed.

Lemma initialState_time st : time (initialState st) = 0%nat.
Proof. reflexivity. Qed.

Lemma initialState_history st : history (initialState st) = [initialEntry st].
Proof. reflexivity. Qed.


(** * Further properties of the engine *)

(** ** Nonnegative cohorts *)

Lemma fertility_cell_bounds peak spreadVal secondPeak tfr a f :
  0 <= tfr →
  schedule (fertility peak spreadVal secondPeak tfr) !! a = Some f →
  0 <= f <= MAX_ASFR.
Proof.
  intros Ht. unfold fertility.
  set (raw := rawList peak spreadVal secondPeak).
  pose proof (rawList_nonneg peak spreadVal secondPeak) as Hraw. fold raw in Hraw.
  destruct (Rltb (sum raw) 1e-10) eqn:E; cbn [schedule].
  - apply Rltb_true in E. intros Hf.
    assert (0 <= f) by (eapply (Forall_lookup_1 _ raw); eauto).
    assert (f <= sum raw).
    { apply sum_elem_le; [done|]. by eapply list_elem_of_lookup_2. }
    unfold MAX_ASFR. lra.
  - apply Rltb_false in E. assert (Hs : 0 < sum raw) by lra.
    set (capped := cap (normalised raw tfr)).
    assert (Hsum : sum capped <= tfr).
    { pose proof (sum_cap_le (normalised raw tfr)) as Hle.
      rewrite sum_normalised in Hle by lra. done. }
    destruct (Rltb (sum capped) (tfr * 0.99)) eqn:Ec.
    + apply Rltb_true in Ec.
      intros (g & Hg & Hy)%redistributed_lookup; [|lra].
      apply capped_lookup in Hg as (_ & _ & Hb & _); [|done..].
      destruct Hy as [->|[_ Hy]]; lra.
    + intros (_ & _ & Hb & _)%capped_lookup; done.
Qed.

Lemma cell_fertility_nonneg st a :
  0 <= totalFertility st → 0 <= cell (schedule (stateFertility st)) a.
Proof.
  intros Ht. unfold cell.
  destruct (schedule (stateFertility st) !! a) as [f|] eqn:E; simpl; [|lra].
  by apply fertility_cell_bounds in E as [? _].
Qed.

Lemma sum_fmap_nonneg {A} (f : A → R) (l : list A) :
  (∀ x, 0 <= f x) → 0 <= sum (f <$> l).
Proof.
  intros H. apply sum_nonneg, Forall_fmap, Forall_forall. intros x _. apply H.
Qed.

Lemma totalBirths_nonneg asfr women :
  (∀ a, 0 <= cell asfr a) → Forall (λ x, 0 <= x) women →
  0 <= totalBirths asfr women.
Proof.
  intros Ha Hw. unfold totalBirths. apply sum_fmap_nonneg. intros a.
  unfold birthsFromAge. apply Rmult_le_pos; [done|by apply cell_nonneg].
Qed.

Lemma aged_nonneg old e0 isMale newborns a :
  0 <= newborns → 0 <= aged old e0 isMale newborns a.
Proof. intros H. destruct a; simpl; [done|apply Rmax_l]. Qed.

Lemma agedList_nonneg old e0 isMale newborns :
  0 <= newborns → Forall (λ x, 0 <= x) (agedList old e0 isMale newborns).
Proof.
  intros H. unfold agedList. apply Forall_fmap, Forall_forall.
  intros a _. by apply aged_nonneg.
Qed.

Lemma exp_neg_hazard_bounds age e0 isMale :
  exp (- 0.6) <= exp (- getMortalityRate age e0 isMale) < 1.
Proof.
  pose proof (getMortalityRate_pos age e0 isMale).
  pose proof (getMortalityRate_le age e0 isMale) as [Hlt|Heq].
  - split; [left; apply exp_increasing; lra|by apply exp_neg_lt_1].
  - split; [|by apply exp_neg_lt_1]. right. f_equal. lra.
Qed.

Lemma totalDeaths_nonneg old e0 :
  Forall (λ x, 0 <= x) old → 0 <= totalDeaths old e0.
Proof.
  intros H. unfold totalDeaths.
  assert (0 <= sum (deathsInto old e0 <$> seq 1 (numAges - 1))).
  { apply sum_fmap_nonneg. intros a. unfold deathsInto.
    pose proof (exp_neg_hazard_bounds (INR a - 1) e0 false).
    apply Rmult_le_pos; [by apply cell_nonneg|lra]. }
  pose proof (cell_nonneg old (numAges - 1) H). lra.
Qed.

Lemma nextState_nonnegative st :
  nonnegative st → 0 <= totalFertility st → 0 <= sexRatioBirth st <= 1 →
  nonnegative (nextState st) ∧ 0 <= Entry.births (nextEntry st) ∧
  0 <= Entry.deaths (nextEntry st).
Proof.
  intros (Ht & Hm & Hf) Htfr Hsrb.
  assert (Hb : 0 <= totalBirths (schedule (stateFertility st))
                      (femaleDistribution st)).
  { apply totalBirths_nonneg; [|done]. intros a. by apply cell_fertility_nonneg. }
  split; [|split; [done|by apply totalDeaths_nonneg]].
  unfold nonnegative, nextState, nextEntry.
  cbn [ageDistribution maleDistribution femaleDistribution
       Entry.ageDistribution Entry.maleDistribution Entry.femaleDistribution].
  repeat split; apply agedList_nonneg; try done; apply Rmult_le_pos; lra.
Qed.

Lemma nextState_sameConfiguration st : sameConfiguration st (nextState st).
Proof. by repeat split. Qed.

Lemma iter_sameConfiguration n st :
  sameConfiguration st (Nat.iter n nextState st).
Proof.
  induction n as [|n IH]; [by repeat split|].
  rewrite Nat.iter_succ.
  destruct IH as (H1 & H2 & H3 & H4 & H5 & H6 & H7).
  destruct (nextState_sameConfiguration (Nat.iter n nextState st))
    as (G1 & G2 & G3 & G4 & G5 & G6 & G7).
  repeat split; congruence.
Qed.

Lemma iter_nonnegative n st :
  nonnegative st → 0 <= totalFertility st → 0 <= sexRatioBirth st <= 1 →
  nonnegative (Nat.iter n nextState st).
Proof.
  intros Hnn Htfr Hsrb. induction n as [|n IH]; [done|].
  rewrite Nat.iter_succ.
  destruct (iter_sameConfiguration n st) as (_ & H2 & _ & _ & _ & H6 & _).
  apply nextState_nonnegative; [done|rewrite <- H2; lra|rewrite <- H6; lra].
Qed.

Lemma sum_fmap_times (c : R) l : sum ((λ x, x * c) <$> l) = sum l * c.
Proof.
  induction l as [|x l IH]; csimpl; [rewrite !sum_nil; lra|].
  rewrite !sum_cons, IH. lra.
Qed.

Lemma initialDistribution_nonneg st :
  0 <= initialPopulation st → Forall (λ x, 0 <= x) (initialDistribution st).
Proof.
  intros HP. unfold initialDistribution.
  pose proof (sum_survivalCurve_pos st) as Hs.
  apply Forall_fmap, Forall_fmap, Forall_forall. intros a _. simpl.
  apply Rmult_le_pos; [left; apply survival_pos|].
  apply Rmult_le_pos; [done|]. left. apply Rinv_0_lt_compat. lra.
Qed.

Lemma initialState_nonnegative st :
  0 <= initialPopulation st → nonnegative (initialState st).
Proof.
  intros HP. pose proof (initialDistribution_nonneg st HP) as H.
  unfold nonnegative, initialState, initialEntry.
  cbn [ageDistribution maleDistribution femaleDistribution
       Entry.ageDistribution Entry.maleDistribution Entry.femaleDistribution].
  split; [done|].
  assert (Forall (λ x, 0 <= x) ((λ n, n * 0.5) <$> initialDistribution st)).
  { apply Forall_fmap. eapply Forall_impl; [exact H|]. simpl. intros; lra. }
  done.
Qed.

(** X1. Cohort counts never become negative: after [initialize] with a
    nonnegative initial population and any number of steps with a
    nonnegative total fertility and a sex ratio at birth in [0, 1], every
    cell of the total, male and female distributions is nonnegative. *)
Theorem cohorts_stay_nonnegative (st : State) (n : nat) :
  0 <= initialPopulation st → 0 <= totalFertility st →
  0 <= sexRatioBirth st <= 1 →
  ∃ s0 sn,
    initialize st = Some s0 ∧ run n s0 = Some sn ∧
    wellFormed sn ∧ nonnegative sn.
Proof.
  intros HP Htfr Hsrb.
  exists (initialState st), (Nat.iter n nextState (initialState st)).
  split; [apply initialize_eq|].
  destruct (run_eq n _ (initialState_wellFormed st)) as [Hrun Hwf].
  split; [done|]. split; [done|].
  apply iter_nonnegative; [by apply initialState_nonnegative|done..].
Qed.

Lemma cohorts_stay_nonnegative_witness :
  ∃ s0 sn,
    initialize mountState = Some s0 ∧ run 25 s0 = Some sn ∧
    wellFormed sn ∧ nonnegative sn.
Proof.
  apply (cohorts_stay_nonnegative mountState 25); simpl; lra.
Defined.

(** ** The history log *)

Lemma iter_history_lookup n st :
  ∀ i, (i < n)%nat →
    history (Nat.iter n nextState st) !! (length (history st) + i)%nat =
    Some (nextEntry (Nat.iter i nextState st)).
Proof.
  induction n as [|n IH]; intros i Hi; [lia|].
  rewrite Nat.iter_succ. unfold nextState at 1. cbn [history].
  destruct (decide (i = n)) as [->|Hne].
  - rewrite lookup_app_r by (rewrite history_iter_length; lia).
    rewrite history_iter_length.
    by replace (length (history st) + n - (length (history st) + n))%nat
      with 0%nat by lia.
  - rewrite lookup_app_l by (rewrite history_iter_length; lia).
    apply IH. lia.
Qed.

Lemma iter_history_prefix n st :
  ∀ i, (i < length (history st))%nat →
    history (Nat.iter n nextState st) !! i = history st !! i.
Proof.
  induction n as [|n IH]; intros i Hi; [done|].
  rewrite Nat.iter_succ. unfold nextState at 1. cbn [history].
  rewrite lookup_app_l by (rewrite history_iter_length; lia).
  by apply IH.
Qed.

Lemma initial_history_times st n i e :
  history (Nat.iter n nextState (initialState st)) !! i = Some e →
  Entry.time e = i.
Proof.
  set (s0 := initialState st). intros He.
  assert (Hlen : length (history (Nat.iter n nextState s0)) = S n)
    by (by rewrite history_iter_length).
  assert (i < S n)%nat by (rewrite <- Hlen; by eapply lookup_lt_Some).
  destruct i as [|i].
  - rewrite (iter_history_prefix n s0 0) in He by (simpl; lia).
    by injection He as <-.
  - pose proof (iter_history_lookup n s0 i ltac:(lia)) as Hi.
    change (length (history s0) + i)%nat with (S i) in Hi.
    rewrite Hi in He. injection He as <-.
    rewrite nextEntry_time, time_iter. unfold s0.
    rewrite initialState_time. lia.
Qed.

(** X2. Time stamps of the log: after [initialize] and [n] steps the clock
    shows [n], the history holds [n + 1] entries, and the entry at index
    [i] carries the time [i]. *)
Theorem history_time_stamps (st : State) (n : nat) :
  ∃ s0 sn,
    initialize st = Some s0 ∧ run n s0 = Some sn ∧
    time sn = n ∧ length (history sn) = S n ∧
    (∀ i e, history sn !! i = Some e → Entry.time e = i).
Proof.
  exists (initialState st), (Nat.iter n nextState (initialState st)).
  split; [apply initialize_eq|].
  destruct (run_eq n _ (initialState_wellFormed st)) as [Hrun _].
  split; [done|].
  split; [by rewrite time_iter|].
  split; [by rewrite history_iter_length|].
  apply initial_history_times.
Qed.

Lemma iter_snapshot n st :
  snapshotOfLive st → snapshotOfLive (Nat.iter n nextState st).
Proof.
  intros H. destruct n as [|n]; [done|].
  exists (nextEntry (Nat.iter n nextState st)).
  split; [apply last_history_iter|].
  rewrite Nat.iter_succ. by repeat split.
Qed.

(** X3. The latest history entry is a snapshot of the live state: after
    [initialize] and any number of steps, the last entry of the log holds
    the current time, the current three distributions, and as population
    the sum of the current total distribution. *)
Theorem latest_entry_is_live (st : State) (n : nat) :
  ∃ s0 sn e,
    initialize st = Some s0 ∧ run n s0 = Some sn ∧
    last (history sn) = Some e ∧
    Entry.time e = time sn ∧
    Entry.population e = sum (ageDistribution sn) ∧
    Entry.ageDistribution e = ageDistribution sn ∧
    Entry.maleDistribution e = maleDistribution sn ∧
    Entry.femaleDistribution e = femaleDistribution sn.
Proof.
  destruct (run_eq n _ (initialState_wellFormed st)) as [Hrun _].
  assert (H0 : snapshotOfLive (initialState st)).
  { exists (initialEntry st). by repeat split. }
  destruct (iter_snapshot n _ H0) as (e & He).
  exists (initialState st), (Nat.iter n nextState (initialState st)), e.
  split; [apply initialize_eq|]. by split.
Qed.

Lemma iter_history_app n st :
  ∃ k, history (Nat.iter n nextState st) = history st ++ k ∧ length k = n.
Proof.
  induction n as [|n (k & Hk & Hlen)].
  - exists []. by rewrite app_nil_r.
  - exists (k ++ [nextEntry (Nat.iter n nextState st)]).
    rewrite Nat.iter_succ. unfold nextState at 1. cbn [history].
    rewrite Hk, <- app_assoc, length_app. simpl. split; [done|lia].
Qed.

(** X4. The log is append-only: [n] steps from a well-formed state succeed
    and leave every entry recorded before in place, adding exactly [n]
    entries behind them. *)
Theorem history_append_only (st : State) (n : nat) :
  wellFormed st →
  ∃ sn k,
    run n st = Some sn ∧ history sn = history st ++ k ∧ length k = n.
Proof.
  intros Hwf. destruct (run_eq n st Hwf) as [Hrun _].
  destruct (iter_history_app n st) as (k & Hk & Hlen).
  by exists (Nat.iter n nextState st), k.
Qed.

Lemma history_append_only_witness :
  ∃ sn k,
    run 3 (initialState mountState) = Some sn ∧
    history sn = history (initialState mountState) ++ k ∧ length k = 3%nat.
Proof.
  apply (history_append_only (initialState mountState) 3).
  repeat split; reflexivity.
Defined.

(** ** The initial population *)

Lemma sum_initialDistribution st :
  sum (initialDistribution st) = initialPopulation st.
Proof.
  unfold initialDistribution. rewrite sum_fmap_times.
  pose proof (sum_survivalCurve_pos st). field. lra.
Qed.

(** X5. [initialize] scales the stationary age structure to the requested
    size: the total distribution sums to [initialPopulation], the male and
    the female distribution to half of it each, and the first history
    entry records [initialPopulation] as the population. *)
Theorem initial_population_size (st : State) :
  ∃ s0 e,
    initialize st = Some s0 ∧ history s0 = [e] ∧
    sum (ageDistribution s0) = initialPopulation st ∧
    sum (maleDistribution s0) = initialPopulation st / 2 ∧
    sum (femaleDistribution s0) = initialPopulation st / 2 ∧
    Entry.population e = initialPopulation st.
Proof.
  exists (initialState st), (initialEntry st).
  split; [apply initialize_eq|]. split; [done|].
  unfold initialState, initialEntry.
  cbn [ageDistribution maleDistribution femaleDistribution Entry.population
       Entry.ageDistribution Entry.maleDistribution Entry.femaleDistribution].
  rewrite sum_fmap_times, sum_initialDistribution. repeat split; lra.
Qed.

Lemma cell_initialDistribution st a :
  (a < numAges)%nat →
  cell (initialDistribution st) a =
  survival (lifeExpectancy st) false a *
  (initialPopulation st / sum (survivalCurve st)).
Proof.
  intros Ha. unfold initialDistribution.
  rewrite cell_fmap_scale. unfold survivalCurve at 1.
  by rewrite cell_fmap_seq.
Qed.

(** X6. The initial age structure is the stationary one of the female
    life table: for a positive initial population every cohort is
    positive and strictly smaller than the cohort one year younger, and
    it is the newborn cohort times the probability [l(a)] returned by
    [getSurvivalCurve] of surviving to its age. *)
Theorem initial_age_structure (st : State) :
  0 < initialPopulation st →
  ∃ s0 l,
    initialize st = Some s0 ∧
    getSurvivalCurve (lifeExpectancy st) false = Some l ∧
    (∀ a, (a < numAges)%nat →
       0 < cell (ageDistribution s0) a ∧
       cell (ageDistribution s0) a = cell (ageDistribution s0) 0 * cell l a) ∧
    (∀ a, (S a < numAges)%nat →
       cell (ageDistribution s0) (S a) < cell (ageDistribution s0) a).
Proof.
  intros HP.
  exists (initialState st), (survival (lifeExpectancy st) false <$> seq 0 numAges).
  split; [apply initialize_eq|]. split; [apply getSurvivalCurve_eq|].
  change (ageDistribution (initialState st)) with (initialDistribution st).
  pose proof (sum_survivalCurve_pos st) as Hs.
  set (c := initialPopulation st / sum (survivalCurve st)).
  assert (Hc : 0 < c) by (apply Rdiv_lt_0_compat; lra).
  split.
  - intros a Ha. rewrite !cell_initialDistribution by first [done|unfold numAges; lia].
    rewrite cell_fmap_seq by done. fold c.
    pose proof (survival_pos (lifeExpectancy st) false a).
    split; [by apply Rmult_lt_0_compat|].
    change (survival (lifeExpectancy st) false 0) with 1. lra.
  - intros a Ha. rewrite !cell_initialDistribution by lia. fold c.
    apply Rmult_lt_compat_r; [done|apply survival_step_lt].
Qed.

Lemma initial_age_structure_witness :
  ∃ s0 l,
    initialize mountState = Some s0 ∧
    getSurvivalCurve (lifeExpectancy mountState) false = Some l ∧
    (∀ a, (a < numAges)%nat →
       0 < cell (ageDistribution s0) a ∧
       cell (ageDistribution s0) a = cell (ageDistribution s0) 0 * cell l a) ∧
    (∀ a, (S a < numAges)%nat →
       cell (ageDistribution s0) (S a) < cell (ageDistribution s0) a).
Proof.
  apply (initial_age_structure mountState). simpl. lra.
Defined.

(** ** One year of ageing *)

Lemma cell_agedList old e0 isMale newborns a :
  (a < numAges)%nat →
  cell (agedList old e0 isMale newborns) a = aged old e0 isMale newborns a.
Proof. intros Ha. unfold agedList. by rewrite cell_fmap_seq. Qed.

Lemma cell_agedList_out old e0 isMale newborns a :
  (numAges ≤ a)%nat → cell (agedList old e0 isMale newborns) a = 0.
Proof.
  intros Ha. unfold cell. rewrite lookup_ge_None_2; [done|].
  by rewrite agedList_length.
Qed.

Lemma aged_S old e0 isMale newborns a :
  0 <= cell old a →
  aged old e0 isMale newborns (S a) =
  cell old a * exp (- getMortalityRate (INR a) e0 isMale).
Proof.
  intros H. cbn [aged].
  replace (S a - 1)%nat with a by lia.
  replace (INR (S a) - 1) with (INR a) by (rewrite S_INR; lra).
  apply Rmax_right. apply Rmult_le_pos; [done|left; apply exp_pos].
Qed.

Lemma nextState_totalCoversSexes st :
  nonnegative st → totalCoversSexes st → totalCoversSexes (nextState st).
Proof.
  intros (Ht & Hm & Hf) Hcov a.
  unfold nextState, nextEntry.
  cbn [ageDistribution maleDistribution femaleDistribution
       Entry.ageDistribution Entry.maleDistribution Entry.femaleDistribution].
  destruct (decide (a < numAges)%nat) as [Ha|Ha].
  - rewrite !cell_agedList by done.
    destruct a as [|a]; [cbn [aged]; lra|].
    pose proof (cell_nonneg _ a Hm) as Hma.
    pose proof (cell_nonneg _ a Hf) as Hfa.
    specialize (Hcov a).
    rewrite !aged_S by lra.
    set (sf := exp (- getMortalityRate (INR a) (lifeExpectancy st) false)).
    set (sm := exp (- getMortalityRate (INR a) (lifeExpectancy st) true)).
    assert (0 < sf) by apply exp_pos.
    assert (sm <= sf).
    { pose proof (getMortalityRate_sex (INR a) (lifeExpectancy st)) as [Hlt|Heq].
      - left. apply exp_increasing. lra.
      - right. unfold sm, sf. by rewrite Heq. }
    assert (cell (maleDistribution st) a * sm <=
            cell (maleDistribution st) a * sf)
      by (by apply Rmult_le_compat_l).
    assert ((cell (maleDistribution st) a + cell (femaleDistribution st) a) * sf
            <= cell (ageDistribution st) a * sf)
      by (apply Rmult_le_compat_r; lra).
    lra.
  - rewrite !cell_agedList_out by lia. lra.
Qed.

Lemma iter_totalCoversSexes n st :
  nonnegative st → 0 <= totalFertility st → 0 <= sexRatioBirth st <= 1 →
  totalCoversSexes st → totalCoversSexes (Nat.iter n nextState st).
Proof.
  intros Hnn Htfr Hsrb Hcov. induction n as [|n IH]; [done|].
  rewrite Nat.iter_succ. apply nextState_totalCoversSexes; [|done].
  by apply iter_nonnegative.
Qed.

(** X7. The total track never undercounts: after [initialize] with a
    nonnegative initial population and any number of steps with a
    nonnegative total fertility and a sex ratio at birth in [0, 1], every
    cohort of the total distribution holds at least the male plus the
    female cohort of the same age (with equality for the newborns of a
    step, the two sex shares adding up to the births). *)
Theorem total_covers_male_plus_female (st : State) (n : nat) :
  0 <= initialPopulation st → 0 <= totalFertility st →
  0 <= sexRatioBirth st <= 1 →
  ∃ s0 sn,
    initialize st = Some s0 ∧ run n s0 = Some sn ∧
    (∀ a, cell (maleDistribution sn) a + cell (femaleDistribution sn) a
          <= cell (ageDistribution sn) a) ∧
    cell (maleDistribution sn) 0 + cell (femaleDistribution sn) 0
      = cell (ageDistribution sn) 0.
Proof.
  intros HP Htfr Hsrb.
  exists (initialState st), (Nat.iter n nextState (initialState st)).
  split; [apply initialize_eq|].
  destruct (run_eq n _ (initialState_wellFormed st)) as [Hrun _].
  split; [done|]. split.
  - apply iter_totalCoversSexes; [by apply initialState_nonnegative|done..|].
    intros a. rewrite (initialState_consistent st a). lra.
  - destruct n as [|n].
    + change (Nat.iter 0 nextState (initialState st)) with (initialState st).
      by rewrite (initialState_consistent st 0).
    + rewrite Nat.iter_succ. by rewrite nextState_consistent_at_0.
Qed.

Lemma total_covers_male_plus_female_witness :
  ∃ s0 sn,
    initialize mountState = Some s0 ∧ run 5 s0 = Some sn ∧
    (∀ a, cell (maleDistribution sn) a + cell (femaleDistribution sn) a
          <= cell (ageDistribution sn) a) ∧
    cell (maleDistribution sn) 0 + cell (femaleDistribution sn) 0
      = cell (ageDistribution sn) 0.
Proof.
  apply (total_covers_male_plus_female mountState 5); simpl; lra.
Defined.

Lemma aged_bounds old e0 isMale newborns a :
  0 <= cell old a →
  exp (- 0.6) * cell old a <= aged old e0 isMale newborns (S a) <= cell old a.
Proof.
  intros H. rewrite aged_S by done.
  pose proof (exp_neg_hazard_bounds (INR a) e0 isMale) as [Hlo Hhi].
  split.
  - rewrite (Rmult_comm (exp (- 0.6))). by apply Rmult_le_compat_l.
  - rewrite <- (Rmult_1_r (cell old a)) at 2. apply Rmult_le_compat_l; lra.
Qed.

(** X8. Survivors of one year: a step from a well-formed state with
    nonnegative cohorts succeeds, and in each of the three tracks the
    cohort of age [a + 1] after the step lies between [exp (-0.6)] times
    and once the cohort of age [a] before it: ageing never creates people,
    and the clamp of the hazard at 0.6 lets at least 54.8 % of every cohort
    below the last age survive the year. *)
Theorem survivors_bounds (st : State) :
  wellFormed st → nonnegative st →
  ∃ st',
    simulateStep st = Some st' ∧
    ∀ a, (S a < numAges)%nat →
      exp (- 0.6) * cell (ageDistribution st) a
        <= cell (ageDistribution st') (S a) <= cell (ageDistribution st) a ∧
      exp (- 0.6) * cell (maleDistribution st) a
        <= cell (maleDistribution st') (S a) <= cell (maleDistribution st) a ∧
      exp (- 0.6) * cell (femaleDistribution st) a
        <= cell (femaleDistribution st') (S a) <= cell (femaleDistribution st) a.
Proof.
  intros Hwf (Ht & Hm & Hf). exists (nextState st).
  split; [by apply simulateStep_eq|].
  intros a Ha. unfold nextState, nextEntry.
  cbn [ageDistribution maleDistribution femaleDistribution
       Entry.ageDistribution Entry.maleDistribution Entry.femaleDistribution].
  rewrite !cell_agedList by done.
  repeat split; apply aged_bounds; by apply cell_nonneg.
Qed.

Lemma survivors_bounds_witness :
  ∃ st',
    simulateStep uniformState = Some st' ∧
    ∀ a, (S a < numAges)%nat →
      exp (- 0.6) * cell (ageDistribution uniformState) a
        <= cell (ageDistribution st') (S a)
        <= cell (ageDistribution uniformState) a ∧
      exp (- 0.6) * cell (maleDistribution uniformState) a
        <= cell (maleDistribution st') (S a)
        <= cell (maleDistribution uniformState) a ∧
      exp (- 0.6) * cell (femaleDistribution uniformState) a
        <= cell (femaleDistribution st') (S a)
        <= cell (femaleDistribution uniformState) a.
Proof.
  apply (survivors_bounds uniformState).
  - repeat split; reflexivity.
  - repeat split; apply Forall_replicate; lra.
Defined.

Lemma sum_cells old : length old = numAges → sum (cell old <$> seq 0 numAges) = sum old.
Proof. intros <-. by rewrite fmap_cell_seq. Qed.

Lemma totalDeaths_le old e0 :
  length old = numAges → Forall (λ x, 0 <= x) old →
  totalDeaths old e0 <= sum old.
Proof.
  intros Hlen Hnn. unfold totalDeaths.
  pose proof (sum_survivors old e0 0 (numAges - 1) Hnn) as Hs.
  assert (0 <= sum ((λ a, aged old e0 false 0 (S a)) <$> seq 0 (numAges - 1))).
  { apply sum_fmap_nonneg. intros a. apply aged_nonneg. lra. }
  rewrite <- (sum_cells old Hlen).
  change numAges with (S (numAges - 1)) at 3.
  rewrite sum_fmap_seq_S. lra.
Qed.

(** X9. Deaths of a year: in a step from a well-formed state with
    nonnegative cohorts the recorded deaths lie between the size of the
    oldest cohort, which is removed whole, and the population before the
    step, so that the population after the step is at least the births. *)
Theorem deaths_bounds (st : State) :
  wellFormed st → nonnegative st →
  ∃ st' e,
    simulateStep st = Some st' ∧ last (history st') = Some e ∧
    cell (ageDistribution st) (numAges - 1) <= Entry.deaths e
      <= sum (ageDistribution st) ∧
    Entry.births e <= Entry.population e.
Proof.
  intros Hwf (Ht & Hm & Hf). exists (nextState st), (nextEntry st).
  split; [by apply simulateStep_eq|].
  split; [apply last_snoc|].
  destruct Hwf as (Hlen & _ & _).
  pose proof (totalDeaths_le _ (lifeExpectancy st) Hlen Ht) as Hle.
  unfold nextEntry. cbn [Entry.deaths Entry.births Entry.population].
  rewrite mass_balance by done.
  split; [|lra]. split; [|done].
  unfold totalDeaths.
  assert (0 <= sum (deathsInto (ageDistribution st) (lifeExpectancy st)
                    <$> seq 1 (numAges - 1))); [|lra].
  apply sum_fmap_nonneg. intros a. unfold deathsInto.
  pose proof (exp_neg_hazard_bounds (INR a - 1) (lifeExpectancy st) false).
  apply Rmult_le_pos; [by apply cell_nonneg|lra].
Qed.

Lemma deaths_bounds_witness :
  ∃ st' e,
    simulateStep uniformState = Some st' ∧ last (history st') = Some e ∧
    cell (ageDistribution uniformState) (numAges - 1) <= Entry.deaths e
      <= sum (ageDistribution uniformState) ∧
    Entry.births e <= Entry.population e.
Proof.
  apply (deaths_bounds uniformState).
  - repeat split; reflexivity.
  - repeat split; apply Forall_replicate; lra.
Defined.

(** ** The fertility schedule inside its domain *)

(** The whole year reached by the peak: an age of the fertile window
    within one year below it. *)
Lemma floor_in_window (peak : R) :
  12 <= peak <= 54 →
  ∃ a : nat, (12 ≤ a ≤ 54)%nat ∧ INR a <= peak < INR a + 1.
Proof.
  intros [Hlo Hhi]. destruct (archimed peak) as [Hup1 Hup2].
  set (z := (up peak - 1)%Z).
  assert (Hz : IZR z = IZR (up peak) - 1) by (unfold z; by rewrite minus_IZR).
  assert (12 ≤ z)%Z.
  { assert (12 < z + 1)%Z; [|lia]. apply lt_IZR. rewrite plus_IZR. lra. }
  assert (z ≤ 54)%Z by (apply le_IZR; lra).
  exists (Z.to_nat z). split; [lia|].
  rewrite INR_IZR_INZ, Z2Nat.id by lia. lra.
Qed.

Lemma rawValue_near_peak peak spreadVal secondPeak a :
  (a ≤ 54)%nat → INR a <= peak < INR a + 1 →
  1 / 27 <= rawValue peak spreadVal secondPeak a.
Proof.
  intros Ha Hp. unfold rawValue.
  set (sigma := Rmax spreadVal 2.5).
  assert (Hs : 2.5 <= sigma) by apply Rmax_r.
  assert (Hs2 : 1 <= 2 * sigma ^ 2) by nra.
  assert (H3 : exp 1 <= 3) by (apply exp_le_3'; lra).
  assert (H9 : exp 2 <= 9).
  { replace 2 with (1 + 1) by lra. rewrite exp_plus.
    pose proof (exp_pos 1). nra. }
  assert (Hp1 : / 3 <= exp (- (INR a - peak) ^ 2 / (2 * sigma ^ 2))).
  { apply Rle_trans with (exp (Ropp 1)).
    - rewrite exp_Ropp. apply Rinv_le_contravar; [apply exp_pos|done].
    - assert (- 1 <= - (INR a - peak) ^ 2 / (2 * sigma ^ 2)) as [Hlt|Heq].
      { apply Rdiv_ge_bound; [lra|]. nra. }
      + left. apply exp_increasing. lra.
      + right. f_equal. lra. }
  assert (Hsec : 0 <=
    match secondPeak with
    | Some sp =>
        if truthy secondPeak && Rltb 5 (Rabs (sp - peak))
        then exp (- (INR a - sp) ^ 2 / (2 * sigma ^ 2)) * 0.6
        else 0
    | None => 0
    end).
  { destruct secondPeak as [sp|]; [|lra].
    destruct (truthy (Some sp) && Rltb 5 (Rabs (sp - peak))); [|lra].
    pose proof (exp_pos (- (INR a - sp) ^ 2 / (2 * sigma ^ 2))). lra. }
  assert (Hdec : / 9 <=
    (if Rltb 40 (INR a) then exp (- 0.1 * (INR a - 40)) else 1.0)).
  { destruct (Rltb 40 (INR a)); [|lra].
    apply Rle_trans with (exp (Ropp 2)).
    - rewrite exp_Ropp. apply Rinv_le_contravar; [apply exp_pos|done].
    - left. apply exp_increasing.
      pose proof (le_INR _ _ Ha) as H54.
      rewrite (INR_IZR_INZ 54) in H54.
      change (Z.of_nat 54) with 54%Z in H54. lra. }
  apply Rle_trans with (/ 3 * / 9); [lra|].
  apply Rmult_le_compat; lra.
Qed.

Lemma rawList_mass peak spreadVal secondPeak :
  12 <= peak <= 54 → 1 / 27 <= sum (rawList peak spreadVal secondPeak).
Proof.
  intros Hp. destruct (floor_in_window peak Hp) as (a & Ha & Hpa).
  pose proof (rawValue_near_peak peak spreadVal secondPeak a ltac:(lia) Hpa) as Hv.
  apply Rle_trans with (rawShape peak spreadVal secondPeak a).
  - unfold rawShape.
    replace ((12 <=? a)%nat && (a <? 55)%nat) with true; [done|].
    symmetry. apply andb_true_iff. split;
      [apply Nat.leb_le|apply Nat.ltb_lt]; lia.
  - apply sum_elem_le; [apply rawList_nonneg|].
    apply (list_elem_of_lookup_2 _ a). apply rawList_lookup.
    split; [unfold numAges; lia|done].
Qed.

Lemma fertility_in_window peak spreadVal secondPeak tfr :
  12 <= peak <= 54 →
  let raw := rawList peak spreadVal secondPeak in
  let capped := cap (normalised raw tfr) in
  let isCapped := Rltb (sum capped) (tfr * 0.99) in
  let result :=
    if isCapped then redistributed capped (tfr - sum capped) else capped in
  fertility peak spreadVal secondPeak tfr =
  {| schedule := result;
     biologicallyCapped := Some isCapped;
     effectiveTFR := Some (sum result) |}.
Proof.
  intros Hp. pose proof (rawList_mass peak spreadVal secondPeak Hp) as Hm.
  unfold fertility.
  destruct (Rltb (sum (rawList peak spreadVal secondPeak)) 1e-10) eqn:E; [|done].
  apply Rltb_true in E. lra.
Qed.

(** X10. Inside the fertile window the zero guard is dead code: for
    every peak age in [12, 54] (the slider offers 15 to 50, the presets use
    20 to 33) and every spread, second peak and target, the raw shape sums
    to at least 1/27, so that [getFertilitySchedule] takes the normalising
    branch and always attaches [effectiveTFR], the sum of the schedule it
    returns, and [biologicallyCapped]. *)
Theorem zero_guard_unreachable_in_window
    (peak spreadVal : R) (secondPeak : option R) (tfr : R) :
  12 <= peak <= 54 →
  ∃ raw r capped,
    rawSchedule peak spreadVal secondPeak = Some raw ∧
    1 / 27 <= sum raw ∧
    getFertilitySchedule peak spreadVal secondPeak tfr = Some r ∧
    effectiveTFR r = Some (sum (schedule r)) ∧
    biologicallyCapped r = Some capped.
Proof.
  intros Hp.
  exists (rawList peak spreadVal secondPeak),
         (fertility peak spreadVal secondPeak tfr).
  rewrite (fertility_in_window _ _ _ _ Hp).
  eexists. split; [apply rawSchedule_eq|].
  split; [by apply rawList_mass|].
  split; [|by split].
  by rewrite getFertilitySchedule_eq, (fertility_in_window _ _ _ _ Hp).
Qed.

Lemma zero_guard_unreachable_in_window_witness :
  ∃ raw r capped,
    rawSchedule 27 7 None = Some raw ∧
    1 / 27 <= sum raw ∧
    getFertilitySchedule 27 7 None 2.1 = Some r ∧
    effectiveTFR r = Some (sum (schedule r)) ∧
    biologicallyCapped r = Some capped.
Proof.
  apply (zero_guard_unreachable_in_window 27 7 None 2.1). lra.
Defined.

(** ** No fertility *)

Lemma sum_fmap_zero {A} (l : list A) : sum ((λ _, 0) <$> l) = 0.
Proof.
  induction l as [|x l IH]; csimpl; [apply sum_nil|].
  rewrite sum_cons, IH. lra.
Qed.

Lemma fertility_zero peak spreadVal secondPeak :
  12 <= peak <= 54 →
  schedule (fertility peak spreadVal secondPeak 0) =
  (λ _, 0) <$> rawList peak spreadVal secondPeak.
Proof.
  intros Hp. rewrite (fertility_in_window _ _ _ _ Hp). cbn [schedule].
  set (raw := rawList peak spreadVal secondPeak).
  assert (Hc : cap (normalised raw 0) = (λ _, 0) <$> raw).
  { unfold cap, normalised. rewrite <- list_fmap_compose.
    apply list_fmap_ext. intros _ f _. simpl.
    unfold MAX_ASFR. rewrite Rmin_left; lra. }
  rewrite Hc, sum_fmap_zero.
  replace (Rltb 0 (0 * 0.99)) with false; [done|].
  symmetry. apply Rltb_false. lra.
Qed.

Lemma cell_fertility_zero st a :
  totalFertility st = 0 → 12 <= peakAge (getEffectiveParams st) <= 54 →
  cell (schedule (stateFertility st)) a = 0.
Proof.
  intros Ht Hp. unfold stateFertility. rewrite Ht, fertility_zero by done.
  unfold cell. rewrite list_lookup_fmap.
  by destruct (rawList _ _ _ !! a).
Qed.

Lemma totalBirths_zero st :
  totalFertility st = 0 → 12 <= peakAge (getEffectiveParams st) <= 54 →
  totalBirths (schedule (stateFertility st)) (femaleDistribution st) = 0.
Proof.
  intros Ht Hp. unfold totalBirths. apply sum_fmap_seq_0. intros k _.
  unfold birthsFromAge. rewrite cell_fertility_zero by done. lra.
Qed.

Lemma aged_S_empty old e0 isMale newborns a :
  cell old a = 0 → aged old e0 isMale newborns (S a) = 0.
Proof.
  intros H. cbn [aged]. replace (S a - 1)%nat with a by lia.
  rewrite H, Rmult_0_l. apply Rmax_left. lra.
Qed.

Lemma nextState_emptyBelow k st :
  totalFertility st = 0 → 12 <= peakAge (getEffectiveParams st) <= 54 →
  emptyBelow k st → emptyBelow (S k) (nextState st).
Proof.
  intros Ht Hp Hk a Ha.
  pose proof (totalBirths_zero st Ht Hp) as Hb.
  unfold nextState, nextEntry.
  cbn [ageDistribution maleDistribution femaleDistribution
       Entry.ageDistribution Entry.maleDistribution Entry.femaleDistribution].
  destruct (decide (a < numAges)%nat) as [Hlt|Hge].
  - rewrite !cell_agedList by done. destruct a as [|a].
    + cbn [aged]. rewrite Hb. repeat split; lra.
    + destruct (Hk a ltac:(lia)) as (H1 & H2 & H3).
      by rewrite !aged_S_empty.
  - by rewrite !cell_agedList_out by lia.
Qed.

Lemma getEffectiveParams_sameConfiguration s1 s2 :
  sameConfiguration s1 s2 → getEffectiveParams s1 = getEffectiveParams s2.
Proof.
  intros (H1 & _ & _ & H4 & H5 & _). unfold getEffectiveParams.
  by rewrite H1, H4, H5.
Qed.

Lemma iter_emptyBelow n st :
  totalFertility st = 0 → 12 <= peakAge (getEffectiveParams st) <= 54 →
  emptyBelow n (Nat.iter n nextState st).
Proof.
  intros Ht Hp. induction n as [|n IH]; [intros a Ha; lia|].
  rewrite Nat.iter_succ.
  pose proof (iter_sameConfiguration n st) as Hc.
  apply nextState_emptyBelow; [| |done].
  - destruct Hc as (_ & <- & _). done.
  - by rewrite <- (getEffectiveParams_sameConfiguration _ _ Hc).
Qed.

Lemma empty_list l : length l = numAges → (∀ a, (a < numAges)%nat → cell l a = 0) →
  l = replicate numAges 0.
Proof.
  intros Hlen H. apply list_eq. intros i.
  destruct (decide (i < numAges)%nat) as [Hi|Hi].
  - rewrite lookup_replicate_2 by done.
    rewrite lookup_cell by lia. by rewrite H.
  - rewrite !lookup_ge_None_2; [done|rewrite length_replicate; lia|lia].
Qed.

(** X11. Without fertility there are no births: a step from a
    well-formed state with nonnegative cohorts, total fertility 0 and a
    peak age in [12, 54] records 0 births, leaves the newborn cohort of
    every track empty, and records a population that is the old one minus
    the deaths, hence not larger. *)
Theorem no_fertility_no_births (st : State) :
  wellFormed st → nonnegative st →
  totalFertility st = 0 → 12 <= peakAge (getEffectiveParams st) <= 54 →
  ∃ st' e,
    simulateStep st = Some st' ∧ last (history st') = Some e ∧
    Entry.births e = 0 ∧
    cell (ageDistribution st') 0 = 0 ∧
    cell (maleDistribution st') 0 = 0 ∧
    cell (femaleDistribution st') 0 = 0 ∧
    Entry.population e = sum (ageDistribution st) - Entry.deaths e ∧
    Entry.population e <= sum (ageDistribution st).
Proof.
  intros Hwf (Hnn & _ & _) Ht Hp. exists (nextState st), (nextEntry st).
  split; [by apply simulateStep_eq|]. split; [apply last_snoc|].
  pose proof (totalBirths_zero st Ht Hp) as Hb.
  split; [done|].
  destruct (nextState_emptyBelow 0 st Ht Hp) with (a := 0%nat)
    as (H1 & H2 & H3); [intros a Ha; lia|lia|].
  do 3 (split; [done|]).
  destruct Hwf as (Hlen & _ & _).
  unfold nextEntry. cbn [Entry.deaths Entry.population].
  rewrite mass_balance, Hb by done.
  pose proof (totalDeaths_nonneg _ (lifeExpectancy st) Hnn). lra.
Qed.

Lemma no_fertility_no_births_witness :
  ∃ st' e,
    simulateStep (childless uniformState) = Some st' ∧
    last (history st') = Some e ∧
    Entry.births e = 0 ∧
    cell (ageDistribution st') 0 = 0 ∧
    cell (maleDistribution st') 0 = 0 ∧
    cell (femaleDistribution st') 0 = 0 ∧
    Entry.population e =
      sum (ageDistribution (childless uniformState)) - Entry.deaths e ∧
    Entry.population e <= sum (ageDistribution (childless uniformState)).
Proof.
  apply (no_fertility_no_births (childless uniformState)).
  - repeat split; reflexivity.
  - repeat split; apply Forall_replicate; lra.
  - reflexivity.
  - simpl. lra.
Defined.

Lemma iter_extinct n st :
  wellFormed st →
  totalFertility st = 0 → 12 <= peakAge (getEffectiveParams st) <= 54 →
  (numAges ≤ n)%nat →
  ∃ sn e,
    run n st = Some sn ∧ last (history sn) = Some e ∧
    ageDistribution sn = replicate numAges 0 ∧
    maleDistribution sn = replicate numAges 0 ∧
    femaleDistribution sn = replicate numAges 0 ∧
    Entry.population e = 0.
Proof.
  intros Hwf Ht Hp Hn.
  destruct n as [|n]; [unfold numAges in Hn; lia|].
  destruct (run_eq (S n) st Hwf) as [Hrun (L1 & L2 & L3)].
  pose proof (iter_emptyBelow (S n) st Ht Hp) as He.
  rewrite Nat.iter_succ in Hrun, L1, L2, L3, He.
  set (s := Nat.iter n nextState st) in *.
  assert (E1 : ageDistribution (nextState s) = replicate numAges 0).
  { apply empty_list; [done|]. intros a Ha.
    by destruct (He a ltac:(lia)). }
  assert (E2 : maleDistribution (nextState s) = replicate numAges 0).
  { apply empty_list; [done|]. intros a Ha.
    by destruct (He a ltac:(lia)) as (_ & ? & _). }
  assert (E3 : femaleDistribution (nextState s) = replicate numAges 0).
  { apply empty_list; [done|]. intros a Ha.
    by destruct (He a ltac:(lia)) as (_ & _ & ?). }
  exists (nextState s), (nextEntry s).
  split; [done|]. split; [apply last_snoc|].
  do 3 (split; [done|]).
  change (Entry.population (nextEntry s))
    with (sum (ageDistribution (nextState s))).
  rewrite E1, <- (fmap_replicate (λ _ : nat, 0) numAges 0%nat).
  apply sum_fmap_zero.
Qed.

(** X12. Extinction: with total fertility 0 and a peak age in [12, 54],
    [numAges] steps from any well-formed state succeed and leave all three
    distributions empty, the last entry recording the population 0. *)
Theorem no_fertility_extinction (st : State) :
  wellFormed st →
  totalFertility st = 0 → 12 <= peakAge (getEffectiveParams st) <= 54 →
  ∃ sn e,
    run numAges st = Some sn ∧ last (history sn) = Some e ∧
    ageDistribution sn = replicate numAges 0 ∧
    maleDistribution sn = replicate numAges 0 ∧
    femaleDistribution sn = replicate numAges 0 ∧
    Entry.population e = 0.
Proof.
  intros Hwf Ht Hp. apply iter_extinct; [done..|]. apply Nat.le_refl.
Qed.

Lemma no_fertility_extinction_witness :
  ∃ sn e,
    run numAges (childless uniformState) = Some sn ∧
    last (history sn) = Some e ∧
    ageDistribution sn = replicate numAges 0 ∧
    maleDistribution sn = replicate numAges 0 ∧
    femaleDistribution sn = replicate numAges 0 ∧
    Entry.population e = 0.
Proof.
  apply (no_fertility_extinction (childless uniformState)).
  - repeat split; reflexivity.
  - reflexivity.
  - cbn [childless getEffectiveParams scenario uniformState scenarios peakAge].
    lra.
Defined.

(** ** Targets below the ceiling *)

(** X13. A target at or below the per-age ceiling is always met exactly:
    for a peak age in [12, 54] and a target total fertility in [0, 1.1], no
    age is clamped, [biologicallyCapped] is false, [effectiveTFR] is the
    target itself, and every cell is the raw shape scaled by the target
    over the raw sum. *)
Theorem low_target_is_met_exactly
    (peak spreadVal : R) (secondPeak : option R) (tfr : R) :
  12 <= peak <= 54 → 0 <= tfr <= MAX_ASFR →
  ∃ raw r,
    rawSchedule peak spreadVal secondPeak = Some raw ∧
    getFertilitySchedule peak spreadVal secondPeak tfr = Some r ∧
    biologicallyCapped r = Some false ∧
    effectiveTFR r = Some tfr ∧
    sum (schedule r) = tfr ∧
    schedule r = (λ f, f / sum raw * tfr) <$> raw.
Proof.
  intros Hp Ht.
  exists (rawList peak spreadVal secondPeak),
         (fertility peak spreadVal secondPeak tfr).
  split; [apply rawSchedule_eq|]. split; [apply getFertilitySchedule_eq|].
  rewrite (fertility_in_window _ _ _ _ Hp).
  cbn [schedule biologicallyCapped effectiveTFR].
  set (raw := rawList peak spreadVal secondPeak).
  pose proof (rawList_mass peak spreadVal secondPeak Hp) as Hm. fold raw in Hm.
  pose proof (rawList_nonneg peak spreadVal secondPeak) as Hnn. fold raw in Hnn.
  assert (Hid : cap (normalised raw tfr) = normalised raw tfr).
  { apply cap_id. unfold normalised. apply Forall_fmap, Forall_forall.
    intros f Hf. simpl.
    assert (0 <= f) by (by eapply (proj1 (Forall_forall _ _) Hnn)).
    assert (f <= sum raw) by (by apply sum_elem_le).
    assert (f / sum raw <= 1) by (apply Rdiv_le_bound; lra).
    assert (0 <= f / sum raw) by (apply Rdiv_ge_bound; lra).
    apply Rle_trans with tfr; [|lra].
    rewrite <- (Rmult_1_l tfr) at 2. apply Rmult_le_compat_r; lra. }
  rewrite Hid, sum_normalised by lra.
  replace (Rltb tfr (tfr * 0.99)) with false
    by (symmetry; apply Rltb_false; lra).
  rewrite sum_normalised by lra. done.
Qed.

Lemma low_target_is_met_exactly_witness :
  ∃ raw r,
    rawSchedule 27 7 None = Some raw ∧
    getFertilitySchedule 27 7 None 1 = Some r ∧
    biologicallyCapped r = Some false ∧
    effectiveTFR r = Some 1 ∧
    sum (schedule r) = 1 ∧
    schedule r = (λ f, f / sum raw * 1) <$> raw.
Proof.
  apply (low_target_is_met_exactly 27 7 None 1); unfold MAX_ASFR; lra.
Defined.

(** ** Births of a year *)

Lemma sum_fmap_le {A} (f g : A → R) (l : list A) :
  (∀ x, x ∈ l → f x <= g x) → sum (f <$> l) <= sum (g <$> l).
Proof.
  induction l as [|x l IH]; intros H; csimpl; [rewrite !sum_nil; lra|].
  rewrite !sum_cons.
  assert (f x <= g x) by (apply H; left).
  assert (sum (f <$> l) <= sum (g <$> l))
    by (apply IH; intros y Hy; apply H; by right).
  lra.
Qed.

Lemma sum_fmap_scale_l {A} (c : R) (f : A → R) (l : list A) :
  sum ((λ x, c * f x) <$> l) = c * sum (f <$> l).
Proof.
  induction l as [|x l IH]; csimpl; [rewrite !sum_nil; lra|].
  rewrite !sum_cons, IH. lra.
Qed.

Lemma INR_window a : (12 ≤ a < 55)%nat → 12 <= INR a <= 54.
Proof.
  intros [Hlo Hhi].
  assert (a ≤ 54)%nat as Hhi' by lia.
  apply le_INR in Hlo, Hhi'.
  rewrite (INR_IZR_INZ 12) in Hlo. rewrite (INR_IZR_INZ 54) in Hhi'.
  change (Z.of_nat 12) with 12%Z in Hlo.
  change (Z.of_nat 54) with 54%Z in Hhi'. lra.
Qed.

Lemma elem_of_window a : a ∈ seq 12 (55 - 12) → (12 ≤ a < 55)%nat.
Proof. intros H%elem_of_seq. lia. Qed.

Lemma weightedAges_bounds asfr women :
  (∀ a, 0 <= cell asfr a) → Forall (λ x, 0 <= x) women →
  12 * totalBirths asfr women <= weightedAges asfr women
    <= 54 * totalBirths asfr women.
Proof.
  intros Ha Hw. unfold weightedAges, totalBirths.
  rewrite <- !sum_fmap_scale_l.
  assert (Hb : ∀ a, 0 <= birthsFromAge asfr women a).
  { intros a. unfold birthsFromAge.
    apply Rmult_le_pos; [done|by apply cell_nonneg]. }
  split; apply sum_fmap_le; intros a Hin%elem_of_window;
    pose proof (INR_window a Hin); pose proof (Hb a);
    apply Rmult_le_compat_r; lra.
Qed.

(** X14. The mean age of the parents lies in the fertile window: in a
    step from a well-formed state with nonnegative cohorts and a
    nonnegative total fertility, whenever births are recorded the recorded
    [meanParentAge] lies in [12, 54]; without births it is the configured
    peak age. *)
Theorem mean_parent_age_in_window (st : State) :
  wellFormed st → nonnegative st → 0 <= totalFertility st →
  ∃ st' e,
    simulateStep st = Some st' ∧ last (history st') = Some e ∧
    0 <= Entry.births e ∧
    (0 < Entry.births e → 12 <= Entry.meanParentAge e <= 54) ∧
    (Entry.births e = 0 →
       Entry.meanParentAge e = peakAge (getEffectiveParams st)).
Proof.
  intros Hwf (_ & _ & Hf) Ht. exists (nextState st), (nextEntry st).
  split; [by apply simulateStep_eq|]. split; [apply last_snoc|].
  unfold nextEntry. cbn [Entry.births Entry.meanParentAge].
  set (asfr := schedule (stateFertility st)).
  assert (Ha : ∀ a, 0 <= cell asfr a)
    by (intros a; by apply cell_fertility_nonneg).
  pose proof (totalBirths_nonneg asfr _ Ha Hf) as Hb.
  pose proof (weightedAges_bounds asfr _ Ha Hf) as [Hlo Hhi].
  split; [done|]. unfold meanAgeValue. split.
  - intros Hpos. replace (Rltb 0 _) with true
      by (symmetry; by apply Rltb_true).
    split; [apply Rdiv_ge_bound|apply Rdiv_le_bound]; done.
  - intros ->. replace (Rltb 0 0) with false; [done|].
    symmetry. apply Rltb_false. lra.
Qed.

Lemma mean_parent_age_in_window_witness :
  ∃ st' e,
    simulateStep uniformState = Some st' ∧ last (history st') = Some e ∧
    0 <= Entry.births e ∧
    (0 < Entry.births e → 12 <= Entry.meanParentAge e <= 54) ∧
    (Entry.births e = 0 →
       Entry.meanParentAge e = peakAge (getEffectiveParams uniformState)).
Proof.
  apply (mean_parent_age_in_window uniformState).
  - repeat split; reflexivity.
  - repeat split; apply Forall_replicate; lra.
  - simpl. lra.
Defined.

(** X15. The biological ceiling bounds the births: in a step from a
    well-formed state with nonnegative cohorts and a nonnegative total
    fertility, the recorded births are at most [MAX_ASFR] times the number
    of women of the ages 12 to 54 before the step. *)
Theorem births_bounded_by_ceiling (st : State) :
  wellFormed st → nonnegative st → 0 <= totalFertility st →
  ∃ st' e,
    simulateStep st = Some st' ∧ last (history st') = Some e ∧
    0 <= Entry.births e
      <= MAX_ASFR * sum (slice 12 55 (femaleDistribution st)).
Proof.
  intros Hwf (_ & _ & Hf) Ht. exists (nextState st), (nextEntry st).
  split; [by apply simulateStep_eq|]. split; [apply last_snoc|].
  unfold nextEntry. cbn [Entry.births].
  set (asfr := schedule (stateFertility st)).
  assert (Ha : ∀ a, 0 <= cell asfr a)
    by (intros a; by apply cell_fertility_nonneg).
  split; [by apply totalBirths_nonneg|].
  assert (Hs : slice 12 55 (femaleDistribution st) =
               cell (femaleDistribution st) <$> seq 12 (55 - 12)).
  { destruct Hwf as (_ & _ & Hlen). unfold slice.
    rewrite <- (fmap_cell_seq (femaleDistribution st)) at 1.
    rewrite Hlen. change numAges with (12 + (43 + 45))%nat.
    rewrite seq_app, fmap_app, drop_app_length'
      by (by rewrite length_fmap, length_seq).
    rewrite seq_app, fmap_app, take_app_length'
      by (by rewrite length_fmap, length_seq).
    done. }
  rewrite Hs, <- sum_fmap_scale_l. unfold totalBirths.
  apply sum_fmap_le. intros a _. unfold birthsFromAge.
  apply Rmult_le_compat_r; [by apply cell_nonneg|].
  unfold cell, asfr.
  destruct (schedule (stateFertility st) !! a) as [f|] eqn:E; simpl.
  - by apply fertility_cell_bounds in E as [_ ?].
  - unfold MAX_ASFR. lra.
Qed.

Lemma births_bounded_by_ceiling_witness :
  ∃ st' e,
    simulateStep uniformState = Some st' ∧ last (history st') = Some e ∧
    0 <= Entry.births e
      <= MAX_ASFR * sum (slice 12 55 (femaleDistribution uniformState)).
Proof.
  apply (births_bounded_by_ceiling uniformState).
  - repeat split; reflexivity.
  - repeat split; apply Forall_replicate; lra.
  - simpl. lra.
Defined.

(** ** The dependency ratio *)

Lemma sum_age_groups (d : list R) :
  sum (slice 0 15 d) + sum (slice 15 65 d) + sum (drop 65 d) = sum d.
Proof.
  unfold slice. rewrite drop_0.
  rewrite <- (take_drop 15 d) at 4.
  rewrite <- (take_drop 50 (drop 15 d)) at 2.
  rewrite drop_drop, !sum_app.
  change (15 - 0)%nat with 15%nat. change (65 - 15)%nat with 50%nat.
  change (15 + 50)%nat with 65%nat. lra.
Qed.

(** X16. The dependency ratio counts everybody once: in a step from a
    well-formed state with nonnegative cohorts and a nonnegative total
    fertility, the three age groups 0 to 14, 15 to 64 and 65 and over of
    the new total distribution add up to the recorded population, the
    recorded [dependencyRatio] is nonnegative, and whenever the working
    ages are not empty it is the population outside the working ages
    divided by the population in them. *)
Theorem dependency_ratio_partition (st : State) :
  wellFormed st → nonnegative st → 0 <= totalFertility st →
  ∃ st' e,
    simulateStep st = Some st' ∧ last (history st') = Some e ∧
    let working := sum (slice 15 65 (ageDistribution st')) in
    sum (slice 0 15 (ageDistribution st')) + working +
      sum (drop 65 (ageDistribution st')) = Entry.population e ∧
    0 <= Entry.dependencyRatio e ∧
    (0 < working →
       Entry.dependencyRatio e = (Entry.population e - working) / working).
Proof.
  intros Hwf (_ & _ & Hf) Ht. exists (nextState st), (nextEntry st).
  split; [by apply simulateStep_eq|]. split; [apply last_snoc|].
  unfold nextState, nextEntry.
  cbn [ageDistribution Entry.ageDistribution Entry.population
       Entry.dependencyRatio].
  set (asfr := schedule (stateFertility st)).
  set (newDist := agedList _ _ _ _).
  assert (Hnn : Forall (λ x, 0 <= x) newDist).
  { apply agedList_nonneg, totalBirths_nonneg; [|done].
    intros a. by apply cell_fertility_nonneg. }
  pose proof (sum_age_groups newDist) as Hsum.
  assert (Hy : 0 <= sum (slice 0 15 newDist))
    by (apply sum_nonneg, Forall_take, Forall_drop, Hnn).
  assert (Ho : 0 <= sum (drop 65 newDist))
    by (apply sum_nonneg, Forall_drop, Hnn).
  cbv zeta. split; [done|]. unfold dependencyValue.
  destruct (Rltb 0 (sum (slice 15 65 newDist))) eqn:E.
  - apply Rltb_true in E. split.
    + apply Rdiv_ge_bound; lra.
    + intros _. f_equal. lra.
  - apply Rltb_false in E. split; [lra|]. intros Hpos. lra.
Qed.

Lemma dependency_ratio_partition_witness :
  ∃ st' e,
    simulateStep uniformState = Some st' ∧ last (history st') = Some e ∧
    let working := sum (slice 15 65 (ageDistribution st')) in
    sum (slice 0 15 (ageDistribution st')) + working +
      sum (drop 65 (ageDistribution st')) = Entry.population e ∧
    0 <= Entry.dependencyRatio e ∧
    (0 < working →
       Entry.dependencyRatio e = (Entry.population e - working) / working).
Proof.
  apply (dependency_ratio_partition uniformState).
  - repeat split; reflexivity.
  - repeat split; apply Forall_replicate; lra.
  - simpl. lra.
Defined.

(** ** The growth rate on the log of the engine *)

(** X17. The window of the realised growth rate: after [initialize] and
    [n >= 10] steps, [growthRate] on the history relates the latest entry,
    of time [n], to the entry of time [n - 9], nine steps earlier, and
    divides the relative change in percent by 10, whenever the earlier
    population is not zero. *)
Theorem growthRate_on_engine_history (st : State) (n : nat) :
  (10 ≤ n)%nat →
  ∃ s0 sn latest earlier,
    initialize st = Some s0 ∧ run n s0 = Some sn ∧
    last (history sn) = Some latest ∧
    history sn !! (n - 9)%nat = Some earlier ∧
    Entry.time latest = n ∧ Entry.time earlier = (n - 9)%nat ∧
    (Entry.population earlier ≠ 0 →
     growthRate (history sn) =
       Some ((Entry.population latest / Entry.population earlier - 1)
             * 100 / 10)).
Proof.
  intros Hn.
  destruct (run_eq n _ (initialState_wellFormed st)) as [Hrun _].
  set (sn := Nat.iter n nextState (initialState st)) in *.
  assert (Hlen : length (history sn) = S n)
    by (unfold sn; by rewrite history_iter_length).
  destruct (growthRate_long (history sn)) as (latest & earlier & Hl & He & Hg);
    [lia|].
  rewrite Hlen in Hl, He.
  replace (S n - 1)%nat with n in Hl by lia.
  replace (S n - 10)%nat with (n - 9)%nat in He by lia.
  exists (initialState st), sn, latest, earlier.
  split; [apply initialize_eq|]. split; [done|].
  split.
  { rewrite last_lookup, Hlen. done. }
  split; [done|].
  split; [by apply (initial_history_times st n)|].
  split; [by apply (initial_history_times st n)|done].
Qed.

Lemma growthRate_on_engine_history_witness :
  ∃ s0 sn latest earlier,
    initialize mountState = Some s0 ∧ run 10 s0 = Some sn ∧
    last (history sn) = Some latest ∧
    history sn !! (10 - 9)%nat = Some earlier ∧
    Entry.time latest = 10%nat ∧ Entry.time earlier = (10 - 9)%nat ∧
    (Entry.population earlier ≠ 0 →
     growthRate (history sn) =
       Some ((Entry.population latest / Entry.population earlier - 1)
             * 100 / 10)).
Proof.
  apply (growthRate_on_engine_history mountState 10). lia.
Defined.

(** ** The median age *)

Lemma Rgeb_true x y : Rgeb x y = true ↔ y <= x.
Proof. unfold Rgeb. destruct (Rge_dec x y); split; (done || lra). Qed.

Lemma Rgeb_false x y : Rgeb x y = false ↔ x < y.
Proof. unfold Rgeb. destruct (Rge_dec x y); split; (done || lra). Qed.

Lemma sum_take_S (l : list R) a x :
  l !! a = Some x → sum (take (S a) l) = sum (take a l) + x.
Proof.
  intros H. rewrite (take_S_r _ _ _ H), sum_app, sum_cons, sum_nil. lra.
Qed.

Lemma medianScan_spec dist total n :
  ∀ age cumulative,
    (age + n = length dist)%nat → (0 < length dist)%nat →
    total / 2 <= sum dist →
    cumulative = sum (take age dist) →
    (∀ k, (k < age)%nat → sum (take (S k) dist) < total / 2) →
    ∃ m, medianScan dist total age n cumulative = Some m ∧
         (m < length dist)%nat ∧
         total / 2 <= sum (take (S m) dist) ∧
         (∀ k, (k < m)%nat → sum (take (S k) dist) < total / 2).
Proof.
  induction n as [|n IH]; intros age c Hlen Hpos Hhalf Hc Hbelow.
  - exfalso. rewrite Nat.add_0_r in Hlen.
    specialize (Hbelow (age - 1)%nat ltac:(lia)).
    replace (S (age - 1)) with (length dist) in Hbelow by lia.
    rewrite firstn_all in Hbelow. lra.
  - cbn [medianScan].
    destruct (lookup_lt_is_Some_2 dist age ltac:(lia)) as [x Hx].
    rewrite Hx. bind_step.
    pose proof (sum_take_S dist age x Hx) as HS. rewrite <- Hc in HS.
    destruct (Rgeb (c + x) (total / 2)) eqn:E.
    + apply Rgeb_true in E. exists age.
      split; [done|]. split; [lia|]. split; [lra|done].
    + apply Rgeb_false in E.
      apply IH; [lia|done|done|done|].
      intros k Hk. destruct (decide (k = age)) as [->|]; [lra|].
      apply Hbelow. lia.
Qed.

(** X18. [findMedianAge] finds the median: on a distribution of
    [numAges] nonnegative cells it returns an age below [numAges], the
    first whose cumulative population reaches half of the total; the
    fallback value 50 of the loop is never taken. *)
Theorem findMedianAge_is_median (dist : list R) :
  length dist = numAges → Forall (λ x, 0 <= x) dist →
  ∃ m,
    findMedianAge dist = Some m ∧ (m < numAges)%nat ∧
    sum dist / 2 <= sum (take (S m) dist) ∧
    (∀ k, (k < m)%nat → sum (take (S k) dist) < sum dist / 2).
Proof.
  intros Hlen Hnn. unfold findMedianAge. rewrite <- Hlen.
  pose proof (sum_nonneg dist Hnn).
  apply medianScan_spec.
  - by rewrite Hlen.
  - rewrite Hlen. unfold numAges. lia.
  - lra.
  - by rewrite take_0, sum_nil.
  - intros k Hk. lia.
Qed.

Lemma findMedianAge_is_median_witness :
  ∃ m,
    findMedianAge (replicate numAges 100) = Some m ∧ (m < numAges)%nat ∧
    sum (replicate numAges 100) / 2
      <= sum (take (S m) (replicate numAges 100)) ∧
    (∀ k, (k < m)%nat →
       sum (take (S k) (replicate numAges 100))
         < sum (replicate numAges 100) / 2).
Proof.
  apply (findMedianAge_is_median (replicate numAges 100)).
  - reflexivity.
  - apply Forall_replicate. lra.
Defined.

(** ** Time travel *)

Lemma setScrubIndex_invariant v st :
  playerInvariant st →
  (∀ i, v = Some i → (i < length (history st))%nat) →
  playerInvariant (setScrubIndex v st).
Proof.
  intros (Hwf & Hne & Hall & _) Hv.
  split; [exact Hwf|]. split; [exact Hne|]. split; [exact Hall|exact Hv].
Qed.

Lemma handleTimeScrub_invariant index st :
  playerInvariant st → playerInvariant (handleTimeScrub index st).
Proof.
  intros Hinv. unfold handleTimeScrub, historyLength.
  destruct ((0 <=? index)%Z && (index <? Z.of_nat (length (history st)))%Z)
    eqn:E; [|done].
  apply andb_true_iff in E as [H0%Z.leb_le Hlt%Z.ltb_lt].
  apply setScrubIndex_invariant; [done|].
  intros i [= <-]. lia.
Qed.

Lemma nextEntry_wellFormed st : entryWellFormed (nextEntry st).
Proof. repeat split; apply agedList_length. Qed.

Lemma initialEntry_wellFormed st : entryWellFormed (initialEntry st).
Proof. apply (initialState_wellFormed st). Qed.

Lemma nextState_invariant st : playerInvariant st → playerInvariant (nextState st).
Proof.
  intros (Hwf & Hne & Hall & Hc).
  split; [apply nextState_wellFormed|].
  unfold nextState. cbn [history scrubIndex]. rewrite length_app.
  split; [simpl; lia|]. split.
  - apply Forall_app. split; [done|].
    apply Forall_singleton, nextEntry_wellFormed.
  - intros i Hi. specialize (Hc i Hi). lia.
Qed.

Lemma initialState_invariant st : playerInvariant (initialState st).
Proof.
  split; [apply initialState_wellFormed|].
  unfold initialState. cbn [history scrubIndex].
  split; [simpl; lia|]. split; [|done].
  apply Forall_singleton, initialEntry_wellFormed.
Qed.

Lemma perform_invariant a p :
  playerInvariant (engine p) →
  ∃ p', perform a p = Some p' ∧ playerInvariant (engine p').
Proof.
  intros Hinv. pose proof Hinv as (Hwf & Hne & Hall & Hc).
  destruct a; cbn [perform]; unfold onEngine.
  - rewrite simulateStep_eq by done. bind_step.
    eexists. split; [done|]. by apply nextState_invariant.
  - rewrite initialize_eq. bind_step.
    eexists. split; [done|]. apply initialState_invariant.
  - bind_step. eexists. split; [done|]. by apply handleTimeScrub_invariant.
  - bind_step. eexists. split; [done|]. by apply handleTimeScrub_invariant.
  - bind_step. eexists. split; [done|]. by apply handleTimeScrub_invariant.
  - bind_step. eexists. split; [done|]. by apply handleTimeScrub_invariant.
  - bind_step. eexists. split; [done|]. by apply handleTimeScrub_invariant.
  - eexists. split; [done|]. unfold playButton.
    destruct (isPlayingHistory p); cbn [engine]; [done|].
    destruct (isViewingHistory (engine p)); [done|].
    apply setScrubIndex_invariant; [done|]. by intros i [= <-].
  - eexists. split; [done|]. cbn [liveButton engine]. unfold jumpToLive.
    by apply setScrubIndex_invariant.
  - eexists. split; [done|]. unfold playbackTick, historyLength.
    destruct (isPlayingHistory p && _) eqn:E; [|done].
    apply andb_true_iff in E as [_ Hpos%Z.ltb_lt].
    destruct (_ <=? _)%Z eqn:E2; cbn [engine].
    + apply setScrubIndex_invariant; [done|]. intros i [= <-]. lia.
    + apply Z.leb_gt in E2.
      apply setScrubIndex_invariant; [done|]. intros i [= <-].
      assert (0 <= cursor (engine p))%Z; [|lia].
      unfold cursor, historyLength. destruct (scrubIndex (engine p)); lia.
  - unfold selectScenario.
    destruct (sameScenario s (scenario (engine p))).
    + bind_step. by eexists.
    + rewrite initialize_eq. bind_step.
      eexists. split; [done|]. apply initialState_invariant.
  - bind_step. eexists. split; [done|]. cbn [engine].
    split; [exact Hwf|]. split; [exact Hne|]. split; [exact Hall|exact Hc].
Qed.

Lemma performAll_invariant actions :
  ∀ p, playerInvariant (engine p) →
    ∃ p', performAll actions p = Some p' ∧ playerInvariant (engine p').
Proof.
  induction actions as [|a rest IH]; intros p Hinv; cbn [performAll].
  - by exists p.
  - destruct (perform_invariant a p Hinv) as (p1 & -> & H1). bind_step.
    by apply IH.
Qed.

Lemma displayed_defined st :
  playerInvariant st →
  ∃ e, displayedHistoryEntry st = Some e ∧ entryWellFormed e ∧
       length (displayedAgeDist st) = numAges ∧
       length (displayedMaleDist st) = numAges ∧
       length (displayedFemaleDist st) = numAges.
Proof.
  intros ((L1 & L2 & L3) & Hne & Hall & Hc).
  unfold displayedAgeDist, displayedMaleDist, displayedFemaleDist,
    displayedHistoryEntry, at_index, historyLength.
  destruct (scrubIndex st) as [i|] eqn:Ei.
  - destruct (lookup_lt_is_Some_2 (history st) i (Hc i eq_refl)) as [e He].
    rewrite He. exists e.
    pose proof (Forall_lookup_1 _ _ _ _ Hall He) as (E1 & E2 & E3).
    split; [done|]. split; [by split|]. by split.
  - replace (0 <=? Z.of_nat (length (history st)) - 1)%Z with true
      by (symmetry; apply Z.leb_le; lia).
    destruct (lookup_lt_is_Some_2 (history st)
                (Z.to_nat (Z.of_nat (length (history st)) - 1)) ltac:(lia))
      as [e He].
    rewrite He. exists e.
    pose proof (Forall_lookup_1 _ _ _ _ Hall He).
    split; [done|]. split; [done|]. by split.
Qed.

(** X19. The view never dangles: after [initialize], whatever sequence
    of steps, resets, scenario and parameter changes, positions of the time
    slider (any integer), button presses and playback ticks follows, every
    action succeeds, the cursor, when set, points into the history, the
    displayed history entry is defined, and the three displayed
    distributions have [numAges] cells. *)
Theorem view_always_defined (st : State) (playing : bool)
    (actions : list Action) :
  ∃ s0 p e,
    initialize st = Some s0 ∧
    performAll actions (playerOn s0 playing) = Some p ∧
    (∀ i, scrubIndex (engine p) = Some i →
          (i < length (history (engine p)))%nat) ∧
    displayedHistoryEntry (engine p) = Some e ∧
    length (displayedAgeDist (engine p)) = numAges ∧
    length (displayedMaleDist (engine p)) = numAges ∧
    length (displayedFemaleDist (engine p)) = numAges.
Proof.
  destruct (performAll_invariant actions (playerOn (initialState st) playing)
              (initialState_invariant st)) as (p & Hp & Hinv).
  destruct (displayed_defined _ Hinv) as (e & He & _ & D1 & D2 & D3).
  exists (initialState st), p, e.
  split; [apply initialize_eq|]. split; [done|].
  destruct Hinv as (_ & _ & _ & Hc). by repeat split.
Qed.

Lemma booksConsistent_ext s1 s2 :
  history s2 = history s1 → ageDistribution s2 = ageDistribution s1 →
  maleDistribution s2 = maleDistribution s1 →
  femaleDistribution s2 = femaleDistribution s1 →
  booksConsistent s1 → booksConsistent s2.
Proof.
  intros Hh Ha Hm Hf. unfold booksConsistent. by rewrite Hh, Ha, Hm, Hf.
Qed.

Lemma handleTimeScrub_books index st :
  booksConsistent st → booksConsistent (handleTimeScrub index st).
Proof.
  unfold handleTimeScrub. destruct (_ && _); [|done].
  by apply booksConsistent_ext.
Qed.

Lemma nextState_books st : booksConsistent st → booksConsistent (nextState st).
Proof.
  intros [Hall _]. split.
  - unfold nextState. cbn [history]. apply Forall_app. split; [done|].
    by apply Forall_singleton.
  - exists (nextEntry st). split; [apply last_snoc|done].
Qed.

Lemma initialState_books st : booksConsistent (initialState st).
Proof.
  split; [by apply Forall_singleton|]. by exists (initialEntry st).
Qed.

Lemma perform_books a p :
  playerInvariant (engine p) → booksConsistent (engine p) →
  ∃ p', perform a p = Some p' ∧ booksConsistent (engine p').
Proof.
  intros (Hwf & _) Hb.
  destruct a; cbn [perform]; unfold onEngine.
  - rewrite simulateStep_eq by done. bind_step.
    eexists. split; [done|]. by apply nextState_books.
  - rewrite initialize_eq. bind_step.
    eexists. split; [done|]. apply initialState_books.
  - bind_step. eexists. split; [done|]. by apply handleTimeScrub_books.
  - bind_step. eexists. split; [done|]. by apply handleTimeScrub_books.
  - bind_step. eexists. split; [done|]. by apply handleTimeScrub_books.
  - bind_step. eexists. split; [done|]. by apply handleTimeScrub_books.
  - bind_step. eexists. split; [done|]. by apply handleTimeScrub_books.
  - eexists. split; [done|]. unfold playButton.
    destruct (isPlayingHistory p); cbn [engine]; [done|].
    destruct (isViewingHistory (engine p)); [done|].
    by apply (booksConsistent_ext (engine p)).
  - eexists. split; [done|]. by apply (booksConsistent_ext (engine p)).
  - eexists. split; [done|]. unfold playbackTick.
    destruct (isPlayingHistory p && _); [|done].
    destruct (_ <=? _)%Z; by apply (booksConsistent_ext (engine p)).
  - unfold selectScenario.
    destruct (sameScenario s (scenario (engine p))).
    + bind_step. by eexists.
    + rewrite initialize_eq. bind_step.
      eexists. split; [done|]. apply initialState_books.
  - bind_step. eexists. split; [done|].
    by apply (booksConsistent_ext (engine p)).
Qed.

Lemma performAll_books actions :
  ∀ p, playerInvariant (engine p) → booksConsistent (engine p) →
    ∃ p', performAll actions p = Some p' ∧
          playerInvariant (engine p') ∧ booksConsistent (engine p').
Proof.
  induction actions as [|a rest IH]; intros p Hinv Hb; cbn [performAll].
  - by exists p.
  - destruct (perform_invariant a p Hinv) as (p1 & Hp1 & H1).
    destruct (perform_books a p Hinv Hb) as (p2 & Hp2 & H2).
    rewrite Hp1 in Hp2. injection Hp2 as <-.
    rewrite Hp1. bind_step. by apply IH.
Qed.

(** X20. What is displayed is what is recorded: after [initialize] and
    any sequence of actions, in the live view as well as in a scrubbed
    one, the three displayed distributions are those stored in the
    displayed history entry, and the displayed population [totalPop] is the
    population recorded in that entry. *)
Theorem displayed_is_recorded (st : State) (playing : bool)
    (actions : list Action) :
  ∃ s0 p e,
    initialize st = Some s0 ∧
    performAll actions (playerOn s0 playing) = Some p ∧
    displayedHistoryEntry (engine p) = Some e ∧
    displayedAgeDist (engine p) = Entry.ageDistribution e ∧
    displayedMaleDist (engine p) = Entry.maleDistribution e ∧
    displayedFemaleDist (engine p) = Entry.femaleDistribution e ∧
    totalPop (engine p) = Entry.population e.
Proof.
  destruct (performAll_books actions (playerOn (initialState st) playing)
              (initialState_invariant st) (initialState_books st))
    as (p & Hp & Hinv & Hall & l & Hl & L1 & L2 & L3).
  destruct (displayed_defined _ Hinv) as (e & He & _).
  exists (initialState st), p, e.
  split; [apply initialize_eq|]. split; [done|]. split; [done|].
  assert (Hin : e ∈ history (engine p)).
  { unfold displayedHistoryEntry, at_index in He.
    destruct (scrubIndex (engine p)).
    - by eapply list_elem_of_lookup_2.
    - destruct (_ <=? _)%Z; [|done]. by eapply list_elem_of_lookup_2. }
  pose proof (proj1 (Forall_forall _ _) Hall e Hin) as Hpop.
  unfold totalPop, displayedAgeDist, displayedMaleDist, displayedFemaleDist.
  cbv beta in Hpop. symmetry in Hpop.
  rewrite He. destruct (scrubIndex (engine p)) as [i|] eqn:Ei;
    [by repeat split|].
  assert (e = l); [|subst e; rewrite <- L1, <- L2, <- L3; by repeat split].
  unfold displayedHistoryEntry, at_index, historyLength in He.
  rewrite Ei in He. destruct (_ <=? _)%Z; [|done].
  rewrite last_lookup in Hl.
  replace (Z.to_nat (Z.of_nat (length (history (engine p))) - 1))
    with (pred (length (history (engine p)))) in He by lia.
  congruence.
Qed.

Lemma iter_scrubIndex n st :
  scrubIndex (Nat.iter n nextState st) = scrubIndex st.
Proof.
  induction n as [|n IH]; [done|]. by rewrite Nat.iter_succ.
Qed.

(** X21. A scrubbed view is frozen: while the cursor points at an entry
    of the history, any number of steps of the live simulation succeed and
    leave the cursor, the displayed entry, the three displayed
    distributions and the displayed population as they are. *)
Theorem scrubbed_view_is_frozen (st : State) (i n : nat) :
  wellFormed st → scrubIndex st = Some i → (i < length (history st))%nat →
  ∃ sn,
    run n st = Some sn ∧ scrubIndex sn = Some i ∧
    displayedHistoryEntry sn = displayedHistoryEntry st ∧
    displayedAgeDist sn = displayedAgeDist st ∧
    displayedMaleDist sn = displayedMaleDist st ∧
    displayedFemaleDist sn = displayedFemaleDist st ∧
    totalPop sn = totalPop st.
Proof.
  intros Hwf Hi Hlt. destruct (run_eq n st Hwf) as [Hrun _].
  exists (Nat.iter n nextState st). split; [done|].
  pose proof (iter_scrubIndex n st) as Hs. rewrite Hi in Hs.
  pose proof (iter_history_prefix n st i Hlt) as Hh.
  split; [done|].
  unfold totalPop, displayedAgeDist, displayedMaleDist, displayedFemaleDist,
    displayedHistoryEntry.
  rewrite Hs, Hi, Hh.
  destruct (lookup_lt_is_Some_2 (history st) i Hlt) as [e ->]. done.
Qed.

Lemma scrubbed_view_is_frozen_witness :
  let st := setScrubIndex (Some 0%nat) (initialState mountState) in
  ∃ sn,
    run 7 st = Some sn ∧ scrubIndex sn = Some 0%nat ∧
    displayedHistoryEntry sn = displayedHistoryEntry st ∧
    displayedAgeDist sn = displayedAgeDist st ∧
    displayedMaleDist sn = displayedMaleDist st ∧
    displayedFemaleDist sn = displayedFemaleDist st ∧
    totalPop sn = totalPop st.
Proof.
  apply (scrubbed_view_is_frozen
           (setScrubIndex (Some 0%nat) (initialState mountState)) 0 7).
  - repeat split; reflexivity.
  - reflexivity.
  - simpl. lia.
Defined.

Lemma playbackTick_playing p :
  isPlayingHistory p = true → (0 < length (history (engine p)))%nat →
  let len := historyLength (engine p) in
  let c := cursor (engine p) in
  playbackTick p =
  if (len - 1 <=? c + 1)%Z
  then playerOn (setScrubIndex (Some (Z.to_nat (len - 1))) (engine p)) false
  else playerOn (setScrubIndex (Some (Z.to_nat (c + 1))) (engine p)) true.
Proof.
  intros Hp Hlen. cbv zeta. unfold playbackTick. rewrite Hp.
  replace (0 <? historyLength (engine p))%Z with true
    by (symmetry; apply Z.ltb_lt; unfold historyLength; lia).
  cbn [andb]. by destruct (_ <=? _)%Z.
Qed.

Lemma playback_progress p j :
  isPlayingHistory p = true → (0 < length (history (engine p)))%nat →
  (0 <= cursor (engine p))%Z →
  let len := historyLength (engine p) in
  let c := cursor (engine p) in
  (Z.of_nat j < Z.max 1 (len - 1 - c))%Z →
  let q := Nat.iter j playbackTick p in
  isPlayingHistory q = true ∧ cursor (engine q) = (c + Z.of_nat j)%Z ∧
  jumpToLive (engine q) = jumpToLive (engine p).
Proof.
  intros Hp Hlen Hc. cbv zeta.
  induction j as [|j IH]; intros Hj.
  - cbn [Nat.iter nat_rect]. split; [done|]. split; [lia|done].
  - rewrite Nat.iter_succ.
    destruct IH as (Hq & Hcq & Hlive); [lia|].
    set (q := Nat.iter j playbackTick p) in *.
    assert (Hh : history (engine q) = history (engine p))
      by (change (history (jumpToLive (engine q)) =
                  history (jumpToLive (engine p))); by rewrite Hlive).
    assert (HL : historyLength (engine q) = historyLength (engine p))
      by (unfold historyLength; by rewrite Hh).
    rewrite (playbackTick_playing q Hq) by (by rewrite Hh).
    rewrite HL, Hcq.
    replace (_ <=? _)%Z with false by (symmetry; apply Z.leb_gt; lia).
    unfold playerOn. cbn [isPlayingHistory engine].
    split; [done|]. split; [|done].
    change (cursor (setScrubIndex ?v ?s)) with
      (match v with Some i => Z.of_nat i | None => historyLength s - 1 end)%Z.
    cbv beta iota. lia.
Qed.

(** X22. Playback runs to the end and stops: when the playback of a
    nonempty history is on and the cursor [c] (the live view counting as
    the last index) points into the history, the ticks advance the cursor
    by one each while playing, and after [max 1 (length - 1 - c)] ticks
    the playback is off and the cursor rests on the last entry; the
    simulation state is untouched, and further ticks do nothing. *)
Theorem playback_reaches_end (p : Player) :
  isPlayingHistory p = true →
  (0 < length (history (engine p)))%nat →
  (∀ i, scrubIndex (engine p) = Some i →
        (i < length (history (engine p)))%nat) →
  let len := length (history (engine p)) in
  let c := cursor (engine p) in
  let k := Z.to_nat (Z.max 1 (Z.of_nat len - 1 - c)) in
  (∀ j, (j < k)%nat →
     isPlayingHistory (Nat.iter j playbackTick p) = true ∧
     cursor (engine (Nat.iter j playbackTick p)) = (c + Z.of_nat j)%Z) ∧
  isPlayingHistory (Nat.iter k playbackTick p) = false ∧
  scrubIndex (engine (Nat.iter k playbackTick p)) = Some (len - 1)%nat ∧
  jumpToLive (engine (Nat.iter k playbackTick p)) = jumpToLive (engine p) ∧
  playbackTick (Nat.iter k playbackTick p) = Nat.iter k playbackTick p.
Proof.
  intros Hp Hlen Hvalid. cbv zeta.
  set (len := length (history (engine p))) in *.
  set (c := cursor (engine p)).
  assert (Hc : (0 <= c < Z.of_nat len)%Z).
  { unfold c, cursor, historyLength. fold len.
    destruct (scrubIndex (engine p)) as [i|] eqn:E; [|lia].
    specialize (Hvalid i eq_refl). lia. }
  set (k := Z.to_nat (Z.max 1 (Z.of_nat len - 1 - c))).
  assert (Hprog : ∀ j, (j < k)%nat →
    isPlayingHistory (Nat.iter j playbackTick p) = true ∧
    cursor (engine (Nat.iter j playbackTick p)) = (c + Z.of_nat j)%Z ∧
    jumpToLive (engine (Nat.iter j playbackTick p)) = jumpToLive (engine p)).
  { intros j Hj. apply playback_progress; [done|done|lia|].
    unfold historyLength. fold len. fold c. lia. }
  split; [intros j Hj; destruct (Hprog j Hj) as (? & ? & _); done|].
  assert (Hk : k = S (k - 1)) by lia.
  destruct (Hprog (k - 1)%nat ltac:(lia)) as (Hq & Hcq & Hlive).
  rewrite Hk, Nat.iter_succ.
  set (q := Nat.iter (k - 1) playbackTick p) in *.
  assert (Hh : history (engine q) = history (engine p))
    by (change (history (jumpToLive (engine q)) =
                history (jumpToLive (engine p))); by rewrite Hlive).
  assert (HL : historyLength (engine q) = Z.of_nat len)
    by (unfold historyLength; by rewrite Hh).
  rewrite (playbackTick_playing q Hq) by (by rewrite Hh).
  rewrite HL, Hcq.
  replace (_ <=? _)%Z with true by (symmetry; apply Z.leb_le; lia).
  unfold playerOn. cbn [isPlayingHistory engine].
  split; [done|]. split.
  { cbn [scrubIndex setScrubIndex]. f_equal. lia. }
  split; [done|].
  unfold playbackTick. by cbn [isPlayingHistory andb].
Qed.

Lemma playback_reaches_end_witness :
  ∃ s0 s4,
    initialize mountState = Some s0 ∧ run 4 s0 = Some s4 ∧
    let p := playerOn (setScrubIndex (Some 0%nat) s4) true in
    length (history (engine p)) = 5%nat ∧ cursor (engine p) = 0%Z ∧
    (∀ j, (j < 4)%nat →
       isPlayingHistory (Nat.iter j playbackTick p) = true ∧
       cursor (engine (Nat.iter j playbackTick p)) = (0 + Z.of_nat j)%Z) ∧
    isPlayingHistory (Nat.iter 4 playbackTick p) = false ∧
    scrubIndex (engine (Nat.iter 4 playbackTick p)) = Some 4%nat ∧
    jumpToLive (engine (Nat.iter 4 playbackTick p)) = jumpToLive (engine p) ∧
    playbackTick (Nat.iter 4 playbackTick p) = Nat.iter 4 playbackTick p.
Proof.
  destruct (run_eq 4 _ (initialState_wellFormed mountState)) as [Hrun _].
  pose proof (history_iter_length 4 (initialState mountState)) as Hlen.
  rewrite initialState_history in Hlen.
  change (length [initialEntry mountState] + 4)%nat with 5%nat in Hlen.
  generalize dependent (Nat.iter 4 nextState (initialState mountState)).
  intros s4 Hrun Hlen.
  exists (initialState mountState), s4.
  split; [apply initialize_eq|]. split; [exact Hrun|]. cbv zeta.
  set (p := playerOn (setScrubIndex (Some 0%nat) s4) true).
  assert (Hh : length (history (engine p)) = 5%nat) by exact Hlen.
  assert (Hc : cursor (engine p) = 0%Z) by reflexivity.
  split; [exact Hh|]. split; [exact Hc|].
  assert (Hpos : (0 < length (history (engine p)))%nat)
    by (rewrite Hh; lia).
  assert (Hvalid : ∀ i, scrubIndex (engine p) = Some i →
                        (i < length (history (engine p)))%nat).
  { intros i Hi. apply (inj Some) in Hi. subst i. exact Hpos. }
  pose proof (playback_reaches_end p eq_refl Hpos Hvalid) as H.
  cbv zeta in H. rewrite Hh, Hc in H.
  exact H.
Defined.

(** ** The net reproduction rate and the intrinsic growth rate *)

Lemma rawValue_or_null peak spreadVal secondPeak age :
  rawValue peak spreadVal (or_null secondPeak) age =
  rawValue peak spreadVal secondPeak age.
Proof.
  unfold rawValue, or_null.
  destruct secondPeak as [sp|]; [|done].
  destruct (truthy (Some sp)) eqn:E; [by rewrite E|done].
Qed.

Lemma fertility_or_null peak spreadVal secondPeak tfr :
  fertility peak spreadVal (or_null secondPeak) tfr =
  fertility peak spreadVal secondPeak tfr.
Proof.
  assert (H : rawList peak spreadVal (or_null secondPeak) =
              rawList peak spreadVal secondPeak).
  { unfold rawList. apply list_fmap_ext. intros _ a _.
    unfold rawShape. by rewrite rawValue_or_null. }
  unfold fertility. by rewrite H.
Qed.

Lemma currentFertilitySchedule_eq st :
  currentFertilitySchedule st = Some (stateFertility st).
Proof.
  unfold currentFertilitySchedule, stateFertility.
  by rewrite getFertilitySchedule_eq, fertility_or_null.
Qed.

Lemma reduce_from_sum {A} (t : nat → A → R)
    (f : R → A → nat → option R) (l : list A) :
  ∀ i acc,
    (∀ k x a, l !! k = Some x → f a x (i + k)%nat = Some (a + t (i + k)%nat x)) →
    reduce_from f i l acc = Some (acc + sum (imap (λ k x, t (i + k)%nat x) l)).
Proof.
  induction l as [|x l IH]; intros i acc H; cbn [reduce_from].
  - simpl. rewrite sum_nil. f_equal. lra.
  - pose proof (H 0%nat x acc eq_refl) as H0.
    rewrite Nat.add_0_r in H0. rewrite H0. bind_step.
    rewrite (IH (S i)).
    + rewrite imap_cons, sum_cons, Nat.add_0_r. f_equal.
      assert (E : imap (λ k y, t (S i + k)%nat y) l =
                  imap ((λ k y, t (i + k)%nat y) ∘ S) l).
      { apply imap_ext. intros k y _. simpl. f_equal. lia. }
      rewrite E. lra.
    + intros k y a Hk.
      replace (S i + k)%nat with (i + S k)%nat by lia. by apply H.
Qed.

Lemma imap_cell_seq (g : nat → R → R) (l : list R) :
  imap g l = (λ a, g a (cell l a)) <$> seq 0 (length l).
Proof.
  apply list_eq. intros i. rewrite list_lookup_imap, list_lookup_fmap.
  destruct (decide (i < length l)%nat) as [Hi|Hi].
  - rewrite lookup_seq_lt by done. rewrite (lookup_cell l i Hi). done.
  - rewrite lookup_seq_ge by lia. by rewrite lookup_ge_None_2 by lia.
Qed.

Lemma netReproductionRate_eq st : netReproductionRate st = Some (r0Value st).
Proof.
  unfold netReproductionRate.
  rewrite getSurvivalCurve_eq. bind_step.
  rewrite currentFertilitySchedule_eq. bind_step.
  set (asfr := schedule (stateFertility st)).
  assert (Hlen : length asfr = numAges) by apply fertility_length.
  rewrite (reduce_from_sum
             (λ a beta, sexRatioBirth st * beta *
                        survival (lifeExpectancy st) false a)).
  - rewrite imap_cell_seq, Hlen. unfold r0Value. fold asfr.
    f_equal. cbn [Nat.add]. lra.
  - intros k x a Hk. cbn [Nat.add].
    assert (k < numAges)%nat by (rewrite <- Hlen; by eapply lookup_lt_Some).
    rewrite (proj2 (lookup_fmap_seq _ _ k _) (conj H eq_refl)).
    by bind_step.
Qed.

Lemma r0_terms_bounds st a :
  0 <= sexRatioBirth st → 0 <= totalFertility st →
  0 <= sexRatioBirth st * cell (schedule (stateFertility st)) a *
       survival (lifeExpectancy st) false a
    <= sexRatioBirth st * cell (schedule (stateFertility st)) a.
Proof.
  intros Hs Ht.
  pose proof (cell_fertility_nonneg st a Ht) as Hb.
  pose proof (survival_pos (lifeExpectancy st) false a) as Hl0.
  pose proof (survival_le_1 (lifeExpectancy st) false a) as Hl1.
  assert (0 <= sexRatioBirth st * cell (schedule (stateFertility st)) a)
    by (by apply Rmult_le_pos).
  split; [apply Rmult_le_pos; lra|].
  set (x := sexRatioBirth st * cell (schedule (stateFertility st)) a) in *.
  assert (x * survival (lifeExpectancy st) false a <= x * 1)
    by (apply Rmult_le_compat_l; lra).
  lra.
Qed.

(** X23. Bounds of the net reproduction rate: for a nonnegative sex
    ratio at birth and a nonnegative total fertility,
    [netReproductionRate] is defined, it is the sum over the ages of
    [SRB * beta(a) * l(a)] for the schedule returned by
    [getFertilitySchedule] and the female survival curve, and it lies
    between 0 and [SRB] times the sum of the schedule. *)
Theorem netReproductionRate_bounds (st : State) :
  0 <= sexRatioBirth st → 0 <= totalFertility st →
  ∃ r0 fs,
    netReproductionRate st = Some r0 ∧
    currentFertilitySchedule st = Some fs ∧
    r0 = sum ((λ a, sexRatioBirth st * cell (schedule fs) a *
                    survival (lifeExpectancy st) false a) <$> seq 0 numAges) ∧
    0 <= r0 <= sexRatioBirth st * sum (schedule fs).
Proof.
  intros Hs Ht. exists (r0Value st), (stateFertility st).
  split; [apply netReproductionRate_eq|].
  split; [apply currentFertilitySchedule_eq|]. split; [done|].
  unfold r0Value. split.
  - apply sum_fmap_nonneg. intros a. by apply r0_terms_bounds.
  - rewrite <- (sum_cells (schedule (stateFertility st)))
      by apply fertility_length.
    rewrite <- sum_fmap_scale_l. apply sum_fmap_le. intros a _.
    by apply r0_terms_bounds.
Qed.

Lemma netReproductionRate_bounds_witness :
  ∃ r0 fs,
    netReproductionRate mountState = Some r0 ∧
    currentFertilitySchedule mountState = Some fs ∧
    r0 = sum ((λ a, sexRatioBirth mountState * cell (schedule fs) a *
                    survival (lifeExpectancy mountState) false a)
              <$> seq 0 numAges) ∧
    0 <= r0 <= sexRatioBirth mountState * sum (schedule fs).
Proof.
  apply (netReproductionRate_bounds mountState); simpl; lra.
Defined.

(** X24. Longer lives never lower the net reproduction rate: of two
    states that differ in the life-expectancy target only, with a
    nonnegative sex ratio at birth and a nonnegative total fertility, the
    one with the higher target has the net reproduction rate at least as
    high. *)
Theorem netReproductionRate_monotone_in_e0 (st : State) (e0 e0' : R) :
  e0 <= e0' → 0 <= sexRatioBirth st → 0 <= totalFertility st →
  ∃ r r',
    netReproductionRate (withLifeExpectancy e0 st) = Some r ∧
    netReproductionRate (withLifeExpectancy e0' st) = Some r' ∧
    r <= r'.
Proof.
  intros He Hs Ht.
  exists (r0Value (withLifeExpectancy e0 st)),
         (r0Value (withLifeExpectancy e0' st)).
  split; [apply netReproductionRate_eq|].
  split; [apply netReproductionRate_eq|].
  unfold r0Value. apply sum_fmap_le. intros a _.
  change (stateFertility (withLifeExpectancy e0' st))
    with (stateFertility (withLifeExpectancy e0 st)).
  cbn [sexRatioBirth lifeExpectancy withLifeExpectancy].
  apply Rmult_le_compat_l.
  - apply Rmult_le_pos; [done|].
    by apply (cell_fertility_nonneg (withLifeExpectancy e0 st)).
  - apply survival_le. intros age. by apply getMortalityRate_e0_decr.
Qed.

Lemma netReproductionRate_monotone_in_e0_witness :
  ∃ r r',
    netReproductionRate (withLifeExpectancy 60 mountState) = Some r ∧
    netReproductionRate (withLifeExpectancy 80 mountState) = Some r' ∧
    r <= r'.
Proof.
  apply (netReproductionRate_monotone_in_e0 mountState 60 80); simpl; lra.
Defined.

Lemma fertility_cell_pos peak spreadVal secondPeak tfr a :
  12 <= peak <= 54 → 0 < tfr → (a < numAges)%nat →
  0 < rawShape peak spreadVal secondPeak a →
  0 < cell (schedule (fertility peak spreadVal secondPeak tfr)) a.
Proof.
  intros Hp Ht Ha Hraw. rewrite (fertility_in_window _ _ _ _ Hp).
  cbn [schedule].
  set (raw := rawList peak spreadVal secondPeak).
  pose proof (rawList_mass peak spreadVal secondPeak Hp) as Hm. fold raw in Hm.
  set (capped := cap (normalised raw tfr)).
  assert (Hc : capped !! a =
    Some (Rmin (rawShape peak spreadVal secondPeak a / sum raw * tfr) MAX_ASFR)).
  { apply cap_lookup. eexists. split; [|done].
    apply normalised_lookup. eexists. split; [|done].
    by apply rawList_lookup. }
  assert (Hpos : 0 < Rmin (rawShape peak spreadVal secondPeak a / sum raw * tfr)
                          MAX_ASFR).
  { apply Rmin_glb_lt; [|unfold MAX_ASFR; lra].
    apply Rmult_lt_0_compat; [|done]. apply Rdiv_lt_0_compat; lra. }
  destruct (Rltb (sum capped) (tfr * 0.99)) eqn:E.
  - apply Rltb_true in E.
    assert (Hlen : (a < length (redistributed capped (tfr - sum capped)))%nat).
    { rewrite redistributed_length. by eapply lookup_lt_Some. }
    destruct (lookup_lt_is_Some_2 _ a Hlen) as [y Hy].
    rewrite (cell_lookup _ _ _ Hy).
    apply redistributed_lookup in Hy as (f & Hf & Hy); [|lra].
    rewrite Hc in Hf. injection Hf as <-.
    destruct Hy as [->|[_ Hy]]; lra.
  - by rewrite (cell_lookup _ _ _ Hc).
Qed.

Lemma r0Value_pos st :
  0 < sexRatioBirth st → 0 < totalFertility st →
  12 <= peakAge (getEffectiveParams st) <= 54 →
  0 < r0Value st.
Proof.
  intros Hs Ht Hp.
  destruct (floor_in_window _ Hp) as (a & Ha & Hpa).
  set (params := getEffectiveParams st) in *.
  pose proof (rawValue_near_peak (peakAge params) (spread params)
                (or_null (secondPeak params)) a ltac:(lia) Hpa) as Hv.
  assert (Hshape : 0 < rawShape (peakAge params) (spread params)
                         (or_null (secondPeak params)) a).
  { unfold rawShape.
    replace ((12 <=? a)%nat && (a <? 55)%nat) with true; [lra|].
    symmetry. apply andb_true_iff. split;
      [apply Nat.leb_le|apply Nat.ltb_lt]; lia. }
  assert (Han : (a < numAges)%nat) by (unfold numAges; lia).
  pose proof (fertility_cell_pos _ _ _ _ a Hp Ht Han Hshape) as Hb.
  fold (stateFertility st) in Hb.
  pose proof (survival_pos (lifeExpectancy st) false a) as Hl.
  set (term := λ a, sexRatioBirth st * cell (schedule (stateFertility st)) a *
                    survival (lifeExpectancy st) false a).
  apply Rlt_le_trans with (term a).
  - unfold term. apply Rmult_lt_0_compat; [|done].
    by apply Rmult_lt_0_compat.
  - unfold r0Value. fold term. apply sum_elem_le.
    + apply Forall_fmap, Forall_forall. intros b _. simpl.
      apply r0_terms_bounds; lra.
    + apply list_elem_of_fmap. exists a. split; [done|].
      apply elem_of_seq. lia.
Qed.

Lemma intrinsicGrowthRate_eq st :
  0 < r0Value st → 0 < generationTime st →
  intrinsicGrowthRate st = Some (ln (r0Value st) / generationTime st).
Proof.
  intros Hr HT. unfold intrinsicGrowthRate.
  rewrite netReproductionRate_eq. bind_step.
  replace (Rltb 0 (generationTime st)) with true
    by (symmetry; by apply Rltb_true).
  unfold num_ln. destruct (Rlt_dec 0 (r0Value st)); [|done]. bind_step.
  apply num_div_Some. lra.
Qed.

Lemma ln_sign x : 0 < x → (0 < ln x ↔ 1 < x) ∧ (ln x < 0 ↔ x < 1).
Proof.
  intros Hx. rewrite <- ln_1.
  split; split; intros H.
  - apply ln_lt_inv; lra.
  - apply ln_increasing; lra.
  - apply ln_lt_inv; lra.
  - apply ln_increasing; lra.
Qed.

(** X25. The sign of the intrinsic growth rate: for a positive sex ratio
    at birth, a positive total fertility, a peak age in [12, 54] and a
    positive generation time, the net reproduction rate is positive,
    [intrinsicGrowthRate] is defined and equals its logarithm over the
    generation time, and it is positive, zero or negative exactly when
    the net reproduction rate is above, at or below 1. *)
Theorem intrinsicGrowthRate_sign (st : State) :
  0 < sexRatioBirth st → 0 < totalFertility st →
  12 <= peakAge (getEffectiveParams st) <= 54 →
  0 < generationTime st →
  ∃ r0 r,
    netReproductionRate st = Some r0 ∧ intrinsicGrowthRate st = Some r ∧
    0 < r0 ∧ r = ln r0 / generationTime st ∧
    (0 < r ↔ 1 < r0) ∧ (r < 0 ↔ r0 < 1) ∧ (r = 0 ↔ r0 = 1).
Proof.
  intros Hs Ht Hp HT.
  pose proof (r0Value_pos st Hs Ht Hp) as Hr.
  exists (r0Value st), (ln (r0Value st) / generationTime st).
  split; [apply netReproductionRate_eq|].
  split; [by apply intrinsicGrowthRate_eq|].
  split; [done|]. split; [done|].
  destruct (ln_sign _ Hr) as [[P1 P2] [N1 N2]].
  set (T := generationTime st) in *. set (x := r0Value st) in *.
  assert (HTi : 0 < / T) by (by apply Rinv_0_lt_compat).
  unfold Rdiv.
  assert (Hpos : 0 < ln x * / T ↔ 0 < ln x).
  { split; intros H; [|by apply Rmult_lt_0_compat].
    destruct (Rlt_or_le 0 (ln x)) as [|Hle]; [done|].
    assert (ln x * / T <= 0 * / T) by (apply Rmult_le_compat_r; lra). lra. }
  assert (Hneg : ln x * / T < 0 ↔ ln x < 0).
  { split; intros H.
    - destruct (Rlt_or_le (ln x) 0) as [|Hle]; [done|].
      assert (0 * / T <= ln x * / T) by (apply Rmult_le_compat_r; lra). lra.
    - assert (ln x * / T < 0 * / T) by (apply Rmult_lt_compat_r; lra). lra. }
  split; [tauto|]. split; [tauto|].
  split; intros H.
  - destruct (Rtotal_order x 1) as [Hlt|[Heq|Hgt]]; [|done|].
    + apply N2, Hneg in Hlt. lra.
    + apply P2, Hpos in Hgt. lra.
  - rewrite H, ln_1. lra.
Qed.

Lemma intrinsicGrowthRate_sign_witness :
  ∃ r0 r,
    netReproductionRate mountState = Some r0 ∧
    intrinsicGrowthRate mountState = Some r ∧
    0 < r0 ∧ r = ln r0 / generationTime mountState ∧
    (0 < r ↔ 1 < r0) ∧ (r < 0 ↔ r0 < 1) ∧ (r = 0 ↔ r0 = 1).
Proof.
  apply (intrinsicGrowthRate_sign mountState).
  - simpl. lra.
  - simpl. lra.
  - simpl. lra.
  - unfold generationTime, displayedHistoryEntry, at_index, historyLength.
    simpl. lra.
Defined.

(** ** The first year after the initialisation *)

Lemma sum_fmap_eq {A} (f g : A → R) (l : list A) :
  (∀ x, f x = g x) → sum (f <$> l) = sum (g <$> l).
Proof. intros H. f_equal. apply list_fmap_ext. intros _ x _. apply H. Qed.

Lemma sum_fmap_seq_from (f : nat → R) n :
  sum (f <$> seq 1 n) = sum ((λ a, f (S a)) <$> seq 0 n).
Proof. by rewrite <- fmap_S_seq, <- list_fmap_compose. Qed.

(** X26. The books of the first year agree with the initialisation: the
    entry appended by the first [simulateStep] after [initialize] records
    the births and the mean parent age that [initialize] itself recorded,
    and its deaths exceed those recorded by [initialize] by the survivors
    of the oldest cohort, which a step removes whole while [initialize]
    applies the hazard to it. *)
Theorem first_year_bookkeeping (st : State) :
  ∃ s0 s1 initial first,
    initialize st = Some s0 ∧ simulateStep s0 = Some s1 ∧
    history s1 = [initial; first] ∧
    Entry.births first = Entry.births initial ∧
    Entry.meanParentAge first = Entry.meanParentAge initial ∧
    Entry.deaths first =
      Entry.deaths initial +
      cell (ageDistribution s0) (numAges - 1) *
      exp (- getMortalityRate (INR (numAges - 1)) (lifeExpectancy st) false).
Proof.
  exists (initialState st), (nextState (initialState st)),
         (initialEntry st), (nextEntry (initialState st)).
  split; [apply initialize_eq|].
  split; [apply simulateStep_eq, initialState_wellFormed|].
  split; [done|].
  assert (Hb : totalBirths (schedule (stateFertility st))
                 ((λ n, n * 0.5) <$> initialDistribution st) =
               sum ((λ a, cell (schedule (stateFertility st)) a *
                          cell (initialDistribution st) a * 0.5)
                    <$> seq 12 (55 - 12))).
  { unfold totalBirths. apply sum_fmap_eq. intros a.
    unfold birthsFromAge. rewrite cell_fmap_scale. lra. }
  assert (Hw : weightedAges (schedule (stateFertility st))
                 ((λ n, n * 0.5) <$> initialDistribution st) =
               sum ((λ a, INR a * (cell (schedule (stateFertility st)) a *
                                   cell (initialDistribution st) a * 0.5))
                    <$> seq 12 (55 - 12))).
  { unfold weightedAges. apply sum_fmap_eq. intros a.
    unfold birthsFromAge. rewrite cell_fmap_scale. lra. }
  unfold nextEntry, initialEntry.
  cbn [Entry.births Entry.meanParentAge Entry.deaths].
  change (stateFertility (initialState st)) with (stateFertility st).
  change (femaleDistribution (initialState st))
    with ((λ n, n * 0.5) <$> initialDistribution st).
  change (ageDistribution (initialState st)) with (initialDistribution st).
  change (lifeExpectancy (initialState st)) with (lifeExpectancy st).
  change (getEffectiveParams (initialState st)) with (getEffectiveParams st).
  rewrite Hb, Hw. split; [done|]. split; [done|].
  unfold totalDeaths. rewrite sum_fmap_seq_from.
  rewrite (sum_fmap_seq_S
             (λ a, cell (initialDistribution st) a *
                   (1 - exp (- getMortalityRate (INR a) (lifeExpectancy st) false)))
             (numAges - 1) : sum (_ <$> seq 0 numAges) = _).
  rewrite (sum_fmap_eq
             (λ a, deathsInto (initialDistribution st) (lifeExpectancy st) (S a))
             (λ a, cell (initialDistribution st) a *
                   (1 - exp (- getMortalityRate (INR a) (lifeExpectancy st) false)))).
  - lra.
  - intros a. unfold deathsInto.
    replace (S a - 1)%nat with a by lia.
    replace (INR (S a) - 1) with (INR a) by (rewrite S_INR; lra). done.
Qed.

Lemma iter_stationary n st :
  0 <= initialPopulation st →
  ∀ a, (n ≤ a < numAges)%nat →
    cell (ageDistribution (Nat.iter n nextState (initialState st))) a =
      cell (initialDistribution st) a ∧
    cell (femaleDistribution (Nat.iter n nextState (initialState st))) a =
      cell (initialDistribution st) a * 0.5.
Proof.
  intros HP. induction n as [|n IH]; intros a Ha.
  - change (Nat.iter 0 nextState (initialState st)) with (initialState st).
    change (ageDistribution (initialState st)) with (initialDistribution st).
    change (femaleDistribution (initialState st))
      with ((λ n, n * 0.5) <$> initialDistribution st).
    by rewrite cell_fmap_scale.
  - rewrite Nat.iter_succ.
    set (s := Nat.iter n nextState (initialState st)) in *.
    destruct a as [|a]; [lia|].
    destruct (IH a ltac:(lia)) as [It If].
    pose proof (cell_nonneg _ a (initialDistribution_nonneg st HP)) as Hnn.
    destruct (iter_sameConfiguration n (initialState st))
      as (_ & _ & He & _).
    change (lifeExpectancy (initialState st)) with (lifeExpectancy st) in He.
    fold s in He.
    unfold nextState, nextEntry.
    cbn [ageDistribution femaleDistribution
         Entry.ageDistribution Entry.femaleDistribution].
    rewrite !cell_agedList by lia.
    rewrite !aged_S by (rewrite ?It, ?If; lra).
    rewrite It, If, <- He.
    rewrite !cell_initialDistribution by lia.
    cbn [survival]. split; lra.
Qed.

(** X27. The initial age structure is stationary under ageing: after
    [initialize] with a nonnegative initial population and [n] steps, every
    cohort of age [n] or more holds, in the total and in the female track,
    exactly what it held after [initialize]; the population changes through
    the cohorts born since only. *)
Theorem initial_structure_is_stationary (st : State) (n : nat) :
  0 <= initialPopulation st →
  ∃ s0 sn,
    initialize st = Some s0 ∧ run n s0 = Some sn ∧
    ∀ a, (n ≤ a < numAges)%nat →
      cell (ageDistribution sn) a = cell (ageDistribution s0) a ∧
      cell (femaleDistribution sn) a = cell (femaleDistribution s0) a.
Proof.
  intros HP.
  exists (initialState st), (Nat.iter n nextState (initialState st)).
  split; [apply initialize_eq|].
  destruct (run_eq n _ (initialState_wellFormed st)) as [Hrun _].
  split; [done|]. intros a Ha.
  destruct (iter_stationary n st HP a Ha) as [-> ->].
  change (ageDistribution (initialState st)) with (initialDistribution st).
  change (femaleDistribution (initialState st))
    with ((λ n, n * 0.5) <$> initialDistribution st).
  by rewrite cell_fmap_scale.
Qed.

Lemma initial_structure_is_stationary_witness :
  ∃ s0 sn,
    initialize mountState = Some s0 ∧ run 20 s0 = Some sn ∧
    ∀ a, (20 ≤ a < numAges)%nat →
      cell (ageDistribution sn) a = cell (ageDistribution s0) a ∧
      cell (femaleDistribution sn) a = cell (femaleDistribution s0) a.
Proof.
  apply (initial_structure_is_stationary mountState 20). simpl. lra.
Defined.

(** * Rounding and the calibration *)

Lemma SFltb_irrefl (s : SpecFloat.spec_float) : SpecFloat.SFltb s s = false.
Proof.
  unfold SpecFloat.SFltb, SpecFloat.SFcompare.
  destruct s as [b|b| |b m e]; try done.
  - by destruct b.
  - rewrite Z.compare_refl.
    assert (H : PosDef.Pos.compare_cont Eq m m = Eq)
      by apply Pos.compare_cont_refl.
    rewrite H. by destruct b.
Qed.

Lemma float_ltb_irrefl (x : PrimFloat.float) : PrimFloat.ltb x x = false.
Proof. rewrite FloatAxioms.ltb_spec. apply SFltb_irrefl. Qed.

Lemma for_range_ext {St} (body body' : nat → St → option St) n :
  (∀ i s, body i s = body' i s) →
  ∀ lo s, for_range lo n body s = for_range lo n body' s.
Proof.
  intros H. induction n as [|n IH]; intros lo s; [done|].
  cbn [for_range]. rewrite H. destruct (body' lo s) as [s'|]; [|done].
  bind_step. apply IH.
Qed.

(** The two targets give the same hazard: [75 - e0] rounds to 45 and
    [80 - e0] to 50 for both of them. *)
Lemma binary64_same_hazard (exp : PrimFloat.float → PrimFloat.float) age isMale :
  Binary64.getMortalityRate exp age Binary64.e0_next isMale =
  Binary64.getMortalityRate exp age Binary64.e0_low isMale.
Proof.
  unfold Binary64.getMortalityRate. reflexivity.
Qed.

Lemma binary64_same_curve (exp : PrimFloat.float → PrimFloat.float) isMale :
  Binary64.getSurvivalCurve exp Binary64.e0_next isMale =
  Binary64.getSurvivalCurve exp Binary64.e0_low isMale.
Proof.
  unfold Binary64.getSurvivalCurve. apply for_range_ext.
  intros i s. cbv zeta. by rewrite binary64_same_hazard.
Qed.

(** C5 fails on the program as stated.  The targets 30 and
    30.000000000000004, two neighbouring doubles of the valid domain, enter
    the hazard through [75 - e0] and [80 - e0] only, and both differences
    round to the same doubles (45 and 50): whatever function [Math.exp] is,
    the two survival curves and their sums are the same doubles, for either
    sex, and the second is not strictly greater than the first. *)
Theorem strict_increase_fails_in_binary64 :
  ¬ ∃ exp isMale,
      Binary64.increasing_claim exp Binary64.e0_low Binary64.e0_next isMale.
Proof.
  intros (exp & isMale & H).
  destruct H as (l & l' & Hl & Hl' & Hlt); [reflexivity..|].
  rewrite binary64_same_curve, Hl in Hl'. injection Hl' as <-.
  by rewrite float_ltb_irrefl in Hlt.
Qed.

(** * The window of the realised growth rate *)

Lemma fertility_sum_le peak spreadVal secondPeak tfr :
  0 <= tfr →
  sum (schedule (fertility peak spreadVal secondPeak tfr)) <= Rmax tfr 1e-10.
Proof.
  intros Ht. unfold fertility.
  set (raw := rawList peak spreadVal secondPeak).
  destruct (Rltb (sum raw) 1e-10) eqn:E; cbn [schedule].
  - apply Rltb_true in E. pose proof (Rmax_r tfr 1e-10). lra.
  - apply Rltb_false in E.
    set (capped := cap (normalised raw tfr)).
    assert (Hsum : sum capped <= tfr).
    { pose proof (sum_cap_le (normalised raw tfr)) as Hle.
      rewrite sum_normalised in Hle by lra. done. }
    pose proof (Rmax_l tfr 1e-10).
    destruct (Rltb (sum capped) (tfr * 0.99)) eqn:Ec; [|lra].
    apply Rltb_true in Ec.
    pose proof (sum_redistributed_le capped (tfr - sum capped)). lra.
Qed.

Lemma sum_window_le (f : nat → R) :
  (∀ a, 0 <= f a) →
  sum (f <$> seq 12 (55 - 12)) <= sum (f <$> seq 0 numAges).
Proof.
  intros Hf.
  assert (E : seq 0 numAges = seq 0 12 ++ seq 12 (55 - 12) ++ seq 55 45)
    by reflexivity.
  rewrite E, !fmap_app, !sum_app.
  pose proof (sum_fmap_nonneg f (seq 0 12) Hf).
  pose proof (sum_fmap_nonneg f (seq 55 45) Hf).
  lra.
Qed.

(** The births of the first year stay below the newborn cohort of the
    initial structure when the total fertility is below 2. *)
Lemma first_year_births_lt st :
  0 < initialPopulation st → 0 <= totalFertility st < 2 →
  totalBirths (schedule (stateFertility st))
    ((λ n, n * 0.5) <$> initialDistribution st)
  < cell (initialDistribution st) 0.
Proof.
  intros HP Ht.
  pose proof (sum_survivalCurve_pos st) as Hs.
  set (c := initialPopulation st / sum (survivalCurve st)).
  assert (Hc : 0 < c) by (apply Rdiv_lt_0_compat; lra).
  set (asfr := schedule (stateFertility st)).
  assert (Hb : ∀ a, 0 <= cell asfr a)
    by (intros a; apply cell_fertility_nonneg; lra).
  assert (Hsum : sum asfr <= Rmax (totalFertility st) 1e-10)
    by (apply fertility_sum_le; lra).
  assert (Hmax : Rmax (totalFertility st) 1e-10 < 2)
    by (apply Rmax_lub_lt; lra).
  assert (H0 : cell (initialDistribution st) 0 = c).
  { rewrite cell_initialDistribution by (unfold numAges; lia).
    fold c. change (survival (lifeExpectancy st) false 0) with 1. lra. }
  rewrite H0.
  apply Rle_lt_trans with (sum ((λ a, 0.5 * c * cell asfr a) <$> seq 12 (55 - 12))).
  - unfold totalBirths. apply sum_fmap_le. intros a Ha%elem_of_window.
    unfold birthsFromAge. rewrite cell_fmap_scale.
    rewrite cell_initialDistribution by (unfold numAges; lia). fold c.
    pose proof (survival_pos (lifeExpectancy st) false a).
    pose proof (survival_le_1 (lifeExpectancy st) false a).
    specialize (Hb a).
    assert (cell asfr a * (survival (lifeExpectancy st) false a * c)
            <= cell asfr a * (1 * c)).
    { apply Rmult_le_compat_l; [done|]. apply Rmult_le_compat_r; lra. }
    lra.
  - rewrite sum_fmap_scale_l.
    pose proof (sum_window_le (cell asfr) Hb) as Hw.
    rewrite (sum_cells asfr) in Hw by apply fertility_length.
    assert (0.5 * c * sum (cell asfr <$> seq 12 (55 - 12))
            <= 0.5 * c * sum asfr)
      by (apply Rmult_le_compat_l; lra).
    assert (0.5 * c * sum asfr <= 0.5 * c * Rmax (totalFertility st) 1e-10)
      by (apply Rmult_le_compat_l; lra).
    assert (0.5 * c * Rmax (totalFertility st) 1e-10 < 0.5 * c * 2)
      by (apply Rmult_lt_compat_l; lra).
    lra.
Qed.

Lemma sum_telescope (f : nat → R) n :
  sum ((λ a, f a - f (S a)) <$> seq 0 n) = f 0%nat - f n.
Proof.
  induction n as [|n IH]; [simpl; rewrite sum_nil; lra|].
  rewrite sum_fmap_seq_S, IH. lra.
Qed.

Lemma sum_fmap_eq_in {A} (f g : A → R) (l : list A) :
  (∀ x, x ∈ l → f x = g x) → sum (f <$> l) = sum (g <$> l).
Proof.
  intros H. f_equal. apply list_fmap_ext. intros i x Hx. apply H.
  by eapply list_elem_of_lookup_2.
Qed.

(** In the initial structure the deaths of a year are the newborn cohort:
    what a cohort loses is what separates it from the next one. *)
Lemma totalDeaths_initial st :
  totalDeaths (initialDistribution st) (lifeExpectancy st) =
  cell (initialDistribution st) 0.
Proof.
  unfold totalDeaths. rewrite sum_fmap_seq_from.
  rewrite (sum_fmap_eq_in _
             (λ a, cell (initialDistribution st) a -
                   cell (initialDistribution st) (S a))
             (seq 0 (numAges - 1))).
  - rewrite sum_telescope. lra.
  - intros a Ha%elem_of_seq. unfold deathsInto.
    replace (S a - 1)%nat with a by lia.
    replace (INR (S a) - 1) with (INR a) by (rewrite S_INR; lra).
    rewrite !cell_initialDistribution by (unfold numAges in *; lia).
    cbn [survival]. lra.
Qed.

(** With a total fertility below 2 the first year after the initialisation
    loses population. *)
Lemma first_year_decline st :
  0 < initialPopulation st → 0 <= totalFertility st < 2 →
  Entry.population (nextEntry (initialState st)) <
  Entry.population (initialEntry st).
Proof.
  intros HP Ht.
  pose proof (first_year_births_lt st HP Ht) as Hb.
  unfold nextEntry, initialEntry. cbn [Entry.population].
  change (stateFertility (initialState st)) with (stateFertility st).
  change (femaleDistribution (initialState st))
    with ((λ n, n * 0.5) <$> initialDistribution st).
  change (ageDistribution (initialState st)) with (initialDistribution st).
  change (lifeExpectancy (initialState st)) with (lifeExpectancy st).
  rewrite mass_balance;
    [|apply initialDistribution_length|apply initialDistribution_nonneg; lra].
  rewrite totalDeaths_initial. lra.
Qed.

(** A population that went through [n < numAges] years since a positive
    initialisation is positive: the cohort of age [n] is of the initial
    structure still. *)
Lemma population_pos st n :
  0 < initialPopulation st → 0 <= totalFertility st →
  0 <= sexRatioBirth st <= 1 → (n < numAges)%nat →
  0 < sum (ageDistribution (Nat.iter n nextState (initialState st))).
Proof.
  intros HP Ht Hs Hn.
  set (sn := Nat.iter n nextState (initialState st)).
  assert (Hnn : nonnegative sn).
  { apply iter_nonnegative; [apply initialState_nonnegative; lra|done..]. }
  destruct (iter_stationary n st ltac:(lra) n ltac:(lia)) as [Hcell _].
  fold sn in Hcell.
  assert (Hpos : 0 < cell (ageDistribution sn) n).
  { rewrite Hcell, cell_initialDistribution by done.
    pose proof (sum_survivalCurve_pos st).
    apply Rmult_lt_0_compat; [apply survival_pos|].
    apply Rdiv_lt_0_compat; lra. }
  apply Rlt_le_trans with (cell (ageDistribution sn) n); [done|].
  destruct Hnn as (Hnn & _).
  apply sum_elem_le; [done|].
  apply (list_elem_of_lookup_2 _ n). apply lookup_cell.
  destruct (run_eq n _ (initialState_wellFormed st)) as [_ (Hlen & _)].
  fold sn in Hlen. lia.
Qed.

(** After an initialisation with a positive population and ten years
    with a total fertility below 2, [growthRate] relates the latest entry
    to the entry of time 1, not to the entry of time 0 that lies ten steps
    back, and the two populations differ. *)
Lemma growth_window_off_by_one st m :
  m = 9%nat →
  0 < initialPopulation st → 0 <= totalFertility st < 2 →
  0 <= sexRatioBirth st <= 1 →
  ∃ s0 sn initial first latest,
    initialize st = Some s0 ∧ run (S m) s0 = Some sn ∧
    history sn !! 0%nat = Some initial ∧
    history sn !! 1%nat = Some first ∧
    last (history sn) = Some latest ∧
    Entry.time initial = 0%nat ∧ Entry.time first = 1%nat ∧
    Entry.time latest = S m ∧
    growthRate (history sn) =
      Some ((Entry.population latest / Entry.population first - 1)
            * 100 / 10) ∧
    growthRate (history sn) ≠
      Some ((Entry.population latest / Entry.population initial - 1)
            * 100 / 10) ∧
    ¬ growth_claim (history sn).
Proof.
  intros Hm HP Ht Hs.
  assert (Hlen0 : length (history (initialState st)) = 1%nat)
    by (by rewrite initialState_history).
  destruct (run_eq (S m) _ (initialState_wellFormed st)) as [Hrun _].
  pose proof (history_iter_length (S m) (initialState st)) as Hlen.
  pose proof (iter_history_prefix (S m) (initialState st) 0 ltac:(lia)) as H0.
  pose proof (iter_history_lookup (S m) (initialState st) 0 ltac:(lia)) as H1.
  pose proof (iter_history_lookup (S m) (initialState st) m ltac:(lia)) as Hm1.
  pose proof (population_pos st (S m) HP ltac:(lra) Hs
                ltac:(unfold numAges; lia)) as Pl.
  pose proof (population_pos st 1 HP ltac:(lra) Hs
                ltac:(unfold numAges; lia)) as Pf.
  pose proof (initial_history_times st (S m)) as Htimes.
  pose proof (first_year_decline st HP Ht) as Hdecl.
  rewrite Hlen0 in Hlen, H1, Hm1.
  rewrite initialState_history in H0.
  rewrite (Nat.iter_succ m) in Pl.
  generalize dependent (Nat.iter (S m) nextState (initialState st)).
  generalize dependent (Nat.iter m nextState (initialState st)).
  intros sm Pl sn Hrun Hlen H0 H1 Hm1 Htimes.
  change (Nat.iter 0 nextState (initialState st)) with (initialState st) in H1.
  change (Nat.iter 1 nextState (initialState st))
    with (nextState (initialState st)) in Pf.
  change ([initialEntry st] !! 0%nat) with (Some (initialEntry st)) in H0.
  replace (1 + 0)%nat with 1%nat in H1 by lia.
  replace (1 + m)%nat with (S m) in Hm1 by lia.
  set (first := nextEntry (initialState st)) in *.
  set (latest := nextEntry sm) in *.
  assert (Pl' : 0 < Entry.population latest) by exact Pl.
  assert (Pf' : 0 < Entry.population first) by exact Pf.
  assert (Hlast : last (history sn) = Some latest).
  { rewrite last_lookup, Hlen. replace (pred (1 + S m)) with (S m) by lia.
    exact Hm1. }
  destruct (growthRate_long (history sn)) as (l & e & Hl & He & Hg); [lia|].
  rewrite Hlen in Hl, He.
  replace (1 + S m - 1)%nat with (S m) in Hl by lia.
  replace (1 + S m - 10)%nat with 1%nat in He by lia.
  rewrite Hm1 in Hl. rewrite H1 in He.
  apply (inj Some) in Hl, He. subst l e.
  specialize (Hg ltac:(lra)).
  assert (Hne : Entry.population latest / Entry.population first
                ≠ Entry.population latest / Entry.population (initialEntry st)).
  { intros Heq.
    set (pl := Entry.population latest) in *.
    set (pf := Entry.population first) in *.
    set (pi := Entry.population (initialEntry st)) in *.
    assert (Hpi : 0 < pi) by lra.
    assert (E1 : pl / pf * pf = pl) by (field; lra).
    assert (E2 : pl / pi * pi = pl) by (field; lra).
    rewrite Heq in E1.
    assert (pl / pi * (pi - pf) = 0) by lra.
    assert (0 < pl / pi) by (apply Rdiv_lt_0_compat; lra).
    nra. }
  assert (Hdiff : growthRate (history sn) ≠
    Some ((Entry.population latest /
           Entry.population (initialEntry st) - 1) * 100 / 10)).
  { rewrite Hg. intros Heq. apply (inj Some) in Heq. apply Hne.
    set (x := Entry.population latest / Entry.population first) in *.
    set (y := Entry.population latest / Entry.population (initialEntry st)) in *.
    lra. }
  exists (initialState st), sn, (initialEntry st), first, latest.
  split; [apply initialize_eq|]. split; [done|].
  do 3 (split; [done|]).
  split; [done|]. split; [done|].
  split; [by apply (Htimes (S m))|].
  split; [done|]. split; [done|].
  intros [Hclaim _].
  destruct Hclaim as (l & e & Hl & (i & Hi)%list_elem_of_lookup_1 & Ht10 & Hgr);
    [lia|].
  rewrite Hlast in Hl. apply (inj Some) in Hl. subst l.
  rewrite (Htimes (S m) _ Hm1) in Ht10.
  pose proof (Htimes i e Hi) as Hti.
  assert (Hi0 : i = 0%nat) by lia.
  rewrite Hi0, H0 in Hi. apply (inj Some) in Hi. subst e.
  by apply Hdiff.
Qed.

(** C6.  The code misses the window of the claim.  The total-fertility
    slider is moved to 0.8, the population is initialised and ten years
    are simulated: the history holds the entries of the times 0 to 10.
    The claim relates the latest population to the one ten steps earlier,
    that of time 0.  [growthRate] reads [history[history.length - 10]],
    the entry of time 1, nine steps back, and divides the change over
    these nine years by 10; the populations of time 0 and time 1 differ,
    so that its result is not the rate of the claim. *)
Theorem growthRate_looks_nine_steps_back :
  ∃ s0 s10 initial first latest,
    initialize lowFertilityMount = Some s0 ∧ run 10 s0 = Some s10 ∧
    history s10 !! 0%nat = Some initial ∧
    history s10 !! 1%nat = Some first ∧
    last (history s10) = Some latest ∧
    Entry.time initial = 0%nat ∧ Entry.time first = 1%nat ∧
    Entry.time latest = 10%nat ∧
    growthRate (history s10) =
      Some ((Entry.population latest / Entry.population first - 1)
            * 100 / 10) ∧
    growthRate (history s10) ≠
      Some ((Entry.population latest / Entry.population initial - 1)
            * 100 / 10) ∧
    ¬ growth_claim (history s10).
Proof.
  apply (growth_window_off_by_one lowFertilityMount 9 eq_refl); simpl; lra.
Qed.
